(** * SDN_Sim: the routing / utilization engine of [sdn.py]

    A shallow embedding of the class [SDNController] of src/sdn.py and of
    the part of networkx it calls: the class [nx.Graph] and
    [nx.all_shortest_paths(G, source, target, weight='weight')], which is
    [dijkstra_predecessor_and_distance] (Dijkstra's search recording, for
    every node, the list of its predecessors on shortest paths) followed by
    [_build_paths_from_predecessors] (the enumeration of the paths of the
    predecessor lists), as in networkx 2.4 to 3.x
    (networkx/algorithms/shortest_paths/weighted.py and generic.py).

    - node names are Python strings: [string];
    - link weights and bandwidths are Python ints: [Z];
    - [self.link_utilization] is a dict keyed by ordered pairs of nodes:
      [gmap (string * string) Z];
    - [self.topology] is an [nx.Graph]: its adjacency dict [_adj], a
      [gmap] from nodes to inner dicts; the inner dicts are iterated by
      the search, so they keep their insertion order (association lists);
    - [self.flows] is a list of dicts with the same five keys: a list of
      records;
    - Python exceptions are explicit ([result]), and so is what each
      command prints ([report]);
    - the file goes: the model (the controller, then [main] and the
      Python built-ins it uses), the vocabulary of the properties, the
      lemmas, the claims C1 to C10, and further properties X1, X2, ... of
      the controller and of [main] at the end. *)

From stdpp Require Import gmap strings list.
From Stdlib Require Import Ascii ZArith Lia.

Local Open Scope Z_scope.

Abbreviation node := string (only parsing).

(** ** Exceptions *)

Inductive exn := KeyError | ValueError | IndexError | NodeNotFound | NetworkXNoPath.

(** The outcome of a call: a value, a raised exception, or [OutOfFuel] when
    the fuel of a loop of the model ran out (shown not to happen). *)
Inductive result (A : Type) :=
  | Ok (a : A)
  | Raise (e : exn)
  | OutOfFuel.
Arguments Ok {A} a.
Arguments Raise {A} e.
Arguments OutOfFuel {A}.

#[global] Instance exn_eq_dec : EqDecision exn.
Proof. solve_decision. Defined.

#[global] Instance result_ret : MRet result := λ A, Ok.
#[global] Instance result_fmap : FMap result := λ A B f r,
  match r with
  | Ok a => Ok (f a)
  | Raise e => Raise e
  | OutOfFuel => OutOfFuel
  end.
#[global] Instance result_bind : MBind result := λ A B k r,
  match r with
  | Ok a => k a
  | Raise e => Raise e
  | OutOfFuel => OutOfFuel
  end.

(** [for x in l: st = f st x], stopping at the first exception. *)
Fixpoint for_each {A S} (f : S → A → result S) (st : S) (l : list A) : result S :=
  match l with
  | [] => Ok st
  | x :: l' => st' ← f st x ; for_each f st' l'
  end.

(** ** Insertion-ordered dicts (the inner dicts of [Graph._adj]) *)

Module odict.
Section odict.
Context {V : Type}.

Fixpoint get (k : node) (d : list (node * V)) : option V :=
  match d with
  | [] => None
  | (k', v) :: d' => if decide (k' = k) then Some v else get k d'
  end.

(** [d[k] = v]: an existing key keeps its position. *)
Fixpoint set (k : node) (v : V) (d : list (node * V)) : list (node * V) :=
  match d with
  | [] => [(k, v)]
  | (k', v') :: d' =>
      if decide (k' = k) then (k, v) :: d' else (k', v') :: set k v d'
  end.

(** [del d[k]] *)
Fixpoint del (k : node) (d : list (node * V)) : list (node * V) :=
  match d with
  | [] => []
  | (k', v') :: d' =>
      if decide (k' = k) then del k d' else (k', v') :: del k d'
  end.

Definition keys (d : list (node * V)) : list node := d.*1.
End odict.
End odict.

(** ** networkx: [nx.Graph] and [nx.all_shortest_paths] *)

Module nx.

(** [_adj]: node ↦ (neighbour ↦ weight), the only edge attribute used.
    [_node] has the same keys as [_adj] and carries no attribute here, so
    it is not duplicated.  The mutators below are total: [sdn.py] calls
    [remove_node] and [remove_edge] behind [has_node] and [has_edge]. *)
Record Graph := mkGraph { adj : gmap string (list (string * Z)) }.

Definition empty_graph : Graph := mkGraph ∅.

(** [n in self._node] *)
Definition has_node (G : Graph) (n : node) : bool :=
  bool_decide (is_Some (adj G !! n)).

(** [v in self._adj[u]], [False] on [KeyError] *)
Definition has_edge (G : Graph) (u v : node) : bool :=
  match adj G !! u with
  | Some nbrs => bool_decide (is_Some (odict.get v nbrs))
  | None => false
  end.

(** A new node gets an empty inner dict. *)
Definition add_node (G : Graph) (n : node) : Graph :=
  match adj G !! n with
  | Some _ => G
  | None => mkGraph (<[n := []]> (adj G))
  end.

(** [for u in nbrs: del adj[u][n]]; [del adj[n]] *)
Definition remove_node (G : Graph) (n : node) : Graph :=
  match adj G !! n with
  | None => G
  | Some nbrs =>
      mkGraph (delete n
        (foldl (λ a u, alter (odict.del n) u a) (adj G) (odict.keys nbrs)))
  end.

(** Missing endpoints are added; [_adj[u][v]] and [_adj[v][u]] get the
    attribute. *)
Definition add_edge (G : Graph) (u v : node) (weight : Z) : Graph :=
  let G := add_node (add_node G u) v in
  mkGraph (alter (odict.set u weight) v (alter (odict.set v weight) u (adj G))).

(** [del _adj[u][v]] and, unless [u == v], [del _adj[v][u]] *)
Definition remove_edge (G : Graph) (u v : node) : Graph :=
  let a := alter (odict.del v) u (adj G) in
  mkGraph (if decide (u = v) then a else alter (odict.del u) v a).

(** The weight read by Dijkstra's weight function on the edge [u]–[v]. *)
Definition edge_weight (G : Graph) (u v : node) : option Z :=
  adj G !! u ≫= odict.get v.

(** ** Dijkstra with predecessors ([_dijkstra_multisource], one source) *)

Record dijkstra_state := mkDS {
  dist : gmap string Z;              (* final distances *)
  seen : gmap string Z;              (* best distance found so far *)
  fringe : list (Z * nat * string);  (* heap of (distance, counter, node) *)
  count : nat;                       (* itertools.count() *)
  pred : gmap string (list string)   (* predecessor lists *)
}.

(** The order of the tuples (distance, counter, node) of the heap. *)
Definition entry_lt (x y : Z * nat * string) : bool :=
  (x.1.1 <? y.1.1) || ((x.1.1 =? y.1.1) && (x.1.2 <? y.1.2)%nat).

(** [heappop]: the least (distance, counter) entry.  Counters are never
    repeated, so nodes are never compared. *)
Fixpoint heappop (h : list (Z * nat * string))
  : option ((Z * nat * string) * list (Z * nat * string)) :=
  match h with
  | [] => None
  | x :: h' =>
      match heappop h' with
      | None => Some (x, [])
      | Some (m, r) =>
          if entry_lt m x then Some (m, x :: r) else Some (x, h')
      end
  end.

(** [seen[u] = d]; [push(fringe, (d, next(c), u))]; [pred[u] = [v]] *)
Definition push (u : node) (d : Z) (v : node) (st : dijkstra_state) : dijkstra_state :=
  mkDS (dist st) (<[u := d]> (seen st))
       ((d, count st, u) :: fringe st) (S (count st))
       (<[u := [v]]> (pred st)).

(** [pred[u].append(v)] *)
Definition pred_append (u v : node) (st : dijkstra_state) : result dijkstra_state :=
  match pred st !! u with
  | Some l =>
      Ok (mkDS (dist st) (seen st) (fringe st) (count st) (<[u := l ++ [v]]> (pred st)))
  | None => Raise KeyError
  end.

(** The body of [for u, e in G_succ[v].items()], with [d = dist[v]]. *)
Definition relax (v : node) (d : Z) (st : dijkstra_state) (ue : node * Z)
  : result dijkstra_state :=
  let vu_dist := d + ue.2 in
  match dist st !! ue.1 with
  | Some u_dist =>
      if vu_dist <? u_dist then Raise ValueError
      else if vu_dist =? u_dist then pred_append ue.1 v st
      else Ok st
  | None =>
      match seen st !! ue.1 with
      | None => Ok (push ue.1 vu_dist v st)
      | Some su =>
          if vu_dist <? su then Ok (push ue.1 vu_dist v st)
          else if vu_dist =? su then pred_append ue.1 v st
          else Ok st
      end
  end.

(** [while fringe: (d, _, v) = pop(fringe) ...]; [target] is [None] here,
    so the whole component of the source is searched. *)
Fixpoint dijkstra_loop (fuel : nat) (G : Graph) (st : dijkstra_state)
  : result dijkstra_state :=
  match heappop (fringe st) with
  | None => Ok st
  | Some ((d, _, v), h) =>
      match fuel with
      | O => OutOfFuel
      | S fuel' =>
          let st := mkDS (dist st) (seen st) h (count st) (pred st) in
          match dist st !! v with
          | Some _ => dijkstra_loop fuel' G st
          | None =>
              let st := mkDS (<[v := d]> (dist st)) (seen st) (fringe st)
                             (count st) (pred st) in
              match adj G !! v with
              | None => Raise KeyError
              | Some nbrs =>
                  st' ← for_each (relax v d) st nbrs ;
                  dijkstra_loop fuel' G st'
              end
          end
      end
  end.

(** The fuel of the loop.  Every push but the first is made while scanning
    one adjacency entry of a node that is being finalised, and every node
    is finalised once: there are at most that many pops. *)
Definition degree_sum (a : gmap string (list (string * Z))) : nat :=
  map_fold (λ _ nbrs acc, (length nbrs + acc)%nat) 0%nat a.

Definition dijkstra_fuel (G : Graph) : nat := S (degree_sum (adj G)).

(** [seen[source] = 0]; [push(fringe, (0, next(c), source))];
    [pred = {source: []}] *)
Definition dijkstra_init (source : node) : dijkstra_state :=
  mkDS ∅ {[source := 0]} [(0, 0%nat, source)] 1 {[source := []]}.

Definition dijkstra_predecessor_and_distance (G : Graph) (source : node)
  : result (gmap string (list string) * gmap string Z) :=
  if has_node G source then
    st ← dijkstra_loop (dijkstra_fuel G) G (dijkstra_init source) ;
    Ok (pred st, dist st)
  else Raise NodeNotFound.

(** ** [_build_paths_from_predecessors]

    The generator walks the predecessor lists depth first from [target]
    with an explicit stack of (node, index) frames; [seen] is at all times
    the set of the nodes on the stack.  [build_from fuel trail n] is the
    list of the paths it yields between pushing the frame of [n] (above the
    frames [trail], nearest first) and popping it.  The generator tests
    [node in sources] every time a frame is on top of the stack: when it is
    pushed and again after each predecessor [next] has been dealt with
    (skipped when [next in seen], explored otherwise: [sub]). *)
Section build_paths.
Context (source : node) (pred : gmap string (list string)).

Fixpoint build_from (fuel : nat) (trail : list node) (n : node)
  : result (list (list node)) :=
  match fuel with
  | O => OutOfFuel
  | S fuel' =>
      match pred !! n with
      | None => Raise KeyError
      | Some ps =>
          let here := if decide (n = source) then [n :: trail] else [] in
          rest ←
            for_each (λ acc next,
                sub ← (if decide (next ∈ n :: trail) then Ok []
                       else build_from fuel' (n :: trail) next);
                Ok (acc ++ sub ++ here))
              [] ps;
          Ok (here ++ rest)
      end
  end.
End build_paths.

(** No path has more nodes than [pred] has keys. *)
Definition build_paths_from_predecessors (source target : node)
    (pred : gmap string (list string)) : result (list (list node)) :=
  match pred !! target with
  | None => Raise NetworkXNoPath
  | Some _ => build_from source pred (size pred) [] target
  end.

Definition all_shortest_paths (G : Graph) (source target : node)
  : result (list (list node)) :=
  pd ← dijkstra_predecessor_and_distance G source ;
  build_paths_from_predecessors source target pd.1.

End nx.

Import nx.

(** ** [list.sort(key=...)]: a stable sort on an integer key *)

Section sort.
Context {A : Type} (key : A → Z).

(** [x] goes before the elements of equal key that came after it. *)
Fixpoint insert_by (x : A) (l : list A) : list A :=
  match l with
  | [] => [x]
  | y :: l' => if key x <=? key y then x :: l else y :: insert_by x l'
  end.

Definition sort_by (l : list A) : list A := foldr insert_by [] l.
End sort.

(** ** [SDNController] *)

(** The dict built by [inject_traffic_flow] (lines 51–57). *)
Record Flow := mkFlow {
  src : string;
  dst : string;
  traffic_type : string;
  bandwidth : Z;
  flow_path : list string
}.

(** The attributes set by [__init__] (lines 9–12). *)
Record SDNController := mkSDN {
  topology : Graph;
  flows : list Flow;
  link_utilization : gmap (string * string) Z
}.

(** [SDNController()] *)
Definition init : SDNController := mkSDN empty_graph [] ∅.

(** What a command prints. *)
Inductive report :=
  | Silent
  | NodeAlreadyExists
  | NodeDoesNotExist
  | NodesDoNotExist
  | LinkDoesNotExist
  | EndpointDoesNotExist
  | NoAvailablePath
  | Injected (p : list string)
  | LinkFailed
  | Routing (p : option (list string)).

(** [SDNController.add_node] (lines 14–18) *)
Definition add_node (n : node) (c : SDNController) : report * SDNController :=
  if has_node (topology c) n then (NodeAlreadyExists, c)
  else (Silent, mkSDN (nx.add_node (topology c) n) (flows c) (link_utilization c)).

(** [SDNController.remove_node] (lines 20–24) *)
Definition remove_node (n : node) (c : SDNController) : report * SDNController :=
  if negb (has_node (topology c) n) then (NodeDoesNotExist, c)
  else (Silent, mkSDN (nx.remove_node (topology c) n) (flows c) (link_utilization c)).

(** [SDNController.add_link] (lines 26–32) *)
Definition add_link (u v : node) (weight : Z) (c : SDNController)
  : report * SDNController :=
  if negb (has_node (topology c) u) || negb (has_node (topology c) v)
  then (NodesDoNotExist, c)
  else (Silent,
        mkSDN (add_edge (topology c) u v weight) (flows c)
              (<[(v, u) := 0]> (<[(u, v) := 0]> (link_utilization c)))).

(** [SDNController.remove_link] (lines 34–40) *)
Definition remove_link (u v : node) (c : SDNController) : report * SDNController :=
  if negb (has_edge (topology c) u v) then (LinkDoesNotExist, c)
  else (Silent,
        mkSDN (remove_edge (topology c) u v) (flows c)
              (delete (v, u) (delete (u, v) (link_utilization c)))).

(** [(p[i], p[i+1]) for i in range(len(p)-1)] *)
Fixpoint hops (p : list node) : list (node * node) :=
  match p with
  | a :: (b :: _) as p' => (a, b) :: hops p'
  | _ => []
  end.

(** The sort key of [compute_path]. *)
Definition utilization (L : gmap (string * string) Z) (p : list node) : Z :=
  foldr (λ e acc, default 0 (L !! e) + acc) 0 (hops p).

(** [SDNController.compute_path] (lines 68–78).  It reads [self.topology]
    ([G]) and [self.link_utilization] ([L]); [traffic_type] is not used.
    Only [NetworkXNoPath] is caught. *)
Definition compute_path (G : Graph) (L : gmap (string * string) Z)
    (s d : node) (ty : string) : result (option (list node)) :=
  if negb (has_node G s) || negb (has_node G d)
  then Ok None
  else
    match all_shortest_paths G s d with
    | Ok paths =>
        match paths with
        | [] => Ok None                           (* if not paths *)
        | _ :: _ =>
            match sort_by (utilization L) paths with
            | p :: _ => Ok (Some p)               (* paths[0] *)
            | [] => Raise IndexError
            end
        end
    | Raise NetworkXNoPath => Ok None
    | Raise e => Raise e
    | OutOfFuel => OutOfFuel
    end.

(** [L[k] += delta], a [KeyError] when [k] is missing. *)
Definition incr (delta : Z) (L : gmap (string * string) Z) (k : node * node)
  : result (gmap (string * string) Z) :=
  match L !! k with
  | Some x => Ok (<[k := x + delta]> L)
  | None => Raise KeyError
  end.

(** The two unguarded updates of one hop, in the order of the source. *)
Definition reserve_hop (bw : Z) (L : gmap (string * string) Z) (e : node * node)
  : result (gmap (string * string) Z) :=
  L1 ← incr bw L (e.1, e.2) ; incr bw L1 (e.2, e.1).

(** The loop "Update link utilization" (lines 61–64 and 102–105). *)
Definition reserve (bw : Z) (L : gmap (string * string) Z) (p : list node)
  : result (gmap (string * string) Z) :=
  for_each (reserve_hop bw) L (hops p).

(** [SDNController.inject_traffic_flow] (lines 42–66).  The flow is
    appended before the ledger is updated; an exception ends the session,
    so the state it leaves behind is not kept. *)
Definition inject_traffic_flow (s d : node) (ty : string) (bw : Z)
    (c : SDNController) : result (report * SDNController) :=
  if negb (has_node (topology c) s) || negb (has_node (topology c) d)
  then Ok (EndpointDoesNotExist, c)
  else
    op ← compute_path (topology c) (link_utilization c) s d ty ;
    match op with
    | None | Some [] => Ok (NoAvailablePath, c)
    | Some p =>
        let flow := mkFlow s d ty bw p in
        L ← reserve bw (link_utilization c) p ;
        Ok (Injected p, mkSDN (topology c) (flows c ++ [flow]) L)
    end.

(** [if k in L: L[k] -= delta] *)
Definition decr_if_present (delta : Z) (L : gmap (string * string) Z)
    (k : node * node) : gmap (string * string) Z :=
  match L !! k with
  | Some x => <[k := x - delta]> L
  | None => L
  end.

(** The two guarded updates of one hop (lines 92–95). *)
Definition release_hop (bw : Z) (L : gmap (string * string) Z) (e : node * node)
  : gmap (string * string) Z :=
  decr_if_present bw (decr_if_present bw L (e.1, e.2)) (e.2, e.1).

(** The release of the old path (lines 90–95). *)
Definition release (bw : Z) (L : gmap (string * string) Z) (p : list node)
  : gmap (string * string) Z :=
  foldl (release_hop bw) L (hops p).

(** The body of [for flow in self.flows] (lines 88–107); the topology [G]
    is not written in the loop.  The state of the loop is the ledger
    together with the flows already visited, each flow object being
    updated in place in the list. *)
Definition reroute_flow (u v : node) (G : Graph)
    (st : list Flow * gmap (string * string) Z) (flow : Flow)
  : result (list Flow * gmap (string * string) Z) :=
  if bool_decide (u ∈ flow_path flow) && bool_decide (v ∈ flow_path flow) then
    let L := release (bandwidth flow) st.2 (flow_path flow) in
    op ← compute_path G L (src flow) (dst flow) (traffic_type flow) ;
    match op with
    | None | Some [] => Ok (st.1 ++ [flow], L)
    | Some p =>
        let flow' := mkFlow (src flow) (dst flow) (traffic_type flow)
                            (bandwidth flow) p in
        L' ← reserve (bandwidth flow) L p ;
        Ok (st.1 ++ [flow'], L')
    end
  else Ok (st.1 ++ [flow], st.2).

(** [SDNController.simulate_link_failure] (lines 80–107) *)
Definition simulate_link_failure (u v : node) (c : SDNController)
  : result (report * SDNController) :=
  if negb (has_edge (topology c) u v) then Ok (LinkDoesNotExist, c)
  else
    let c1 := (remove_link u v c).2 in
    st ← for_each (reroute_flow u v (topology c1))
           ([], link_utilization c1) (flows c1) ;
    Ok (LinkFailed, mkSDN (topology c1) st.1 st.2).

(** [SDNController.query_routing] (lines 109–114) *)
Definition query_routing (s d : node) (c : SDNController)
  : result (report * SDNController) :=
  if negb (has_node (topology c) s) || negb (has_node (topology c) d)
  then Ok (EndpointDoesNotExist, c)
  else p ← compute_path (topology c) (link_utilization c) s d "data" ;
       Ok (Routing p, c).

(** ** The command interface of [main] (lines 131–200)

    The commands as [main] passes them on, once parsed and lower-cased. *)

Inductive command :=
  | AddNode (n : string)
  | RemoveNode (n : string)
  | AddLink (u v : string) (weight : Z)
  | RemoveLink (u v : string)
  | InjectTraffic (s d ty : string) (bw : Z)
  | FailLink (u v : string)
  | QueryRouting (s d : string).

(** One command. *)
Definition exec (cmd : command) (c : SDNController) : result (report * SDNController) :=
  match cmd with
  | AddNode n => Ok (add_node n c)
  | RemoveNode n => Ok (remove_node n c)
  | AddLink u v w => Ok (add_link u v w c)
  | RemoveLink u v => Ok (remove_link u v c)
  | InjectTraffic s d ty bw => inject_traffic_flow s d ty bw c
  | FailLink u v => simulate_link_failure u v c
  | QueryRouting s d => query_routing s d c
  end.

(** A session: the commands run in order; an uncaught exception ends it. *)
Definition run (cmds : list command) (c : SDNController) : result SDNController :=
  for_each (λ c cmd, r ← exec cmd c ; Ok r.2) c cmds.

(** ... from [controller = SDNController()]. *)
Definition session (cmds : list command) : result SDNController := run cmds init.

(** ** Python's [str] methods and [int], as [main] uses them

    A [string] is a sequence of code points below 256 (Latin-1, with ASCII
    as a part); on these, [str.isspace], [str.lower] and [int] are as
    follows. *)

Module py.

(** [c.isspace()]: the whitespace of [strip()] and [split()]. *)
Definition isspace (a : ascii) : bool :=
  let n := nat_of_ascii a in
  ((9 <=? n) && (n <=? 13) || (28 <=? n) && (n <=? 32) ||
   (n =? 133) || (n =? 160))%nat.

Fixpoint lstrip (s : string) : string :=
  match s with
  | String a s' => if isspace a then lstrip s' else s
  | EmptyString => EmptyString
  end.

Fixpoint rstrip (s : string) : string :=
  match s with
  | String a s' =>
      match rstrip s' with
      | EmptyString => if isspace a then EmptyString else String a EmptyString
      | r => String a r
      end
  | EmptyString => EmptyString
  end.

(** [s.strip()] *)
Definition strip (s : string) : string := rstrip (lstrip s).

(** The words of [s] from the point where the characters [tok] (last one
    first) of the current word have been read. *)
Fixpoint split_from (tok : string) (s : string) : list string :=
  match s with
  | String a s' =>
      if isspace a then
        match tok with
        | EmptyString => split_from EmptyString s'
        | _ => String.rev tok :: split_from EmptyString s'
        end
      else split_from (String a tok) s'
  | EmptyString =>
      match tok with
      | EmptyString => []
      | _ => [String.rev tok]
      end
  end.

(** [s.split()]: the maximal runs of characters that are not whitespace. *)
Definition split (s : string) : list string := split_from EmptyString s.

(** [s.startswith(prefix)] *)
Fixpoint startswith (s prefix : string) {struct prefix} : bool :=
  match prefix, s with
  | EmptyString, _ => true
  | String a prefix', String b s' =>
      bool_decide (a = b) && startswith s' prefix'
  | String _ _, EmptyString => false
  end.

(** [c.lower()]: A–Z, À–Ö and Ø–Þ have a lower-case form, 32 further. *)
Definition lower_char (a : ascii) : ascii :=
  let n := nat_of_ascii a in
  if ((65 <=? n) && (n <=? 90) || (192 <=? n) && (n <=? 214) ||
      (216 <=? n) && (n <=? 222))%nat
  then ascii_of_nat (n + 32) else a.

(** [s.lower()] *)
Fixpoint lower (s : string) : string :=
  match s with
  | String a s' => String (lower_char a) (lower s')
  | EmptyString => EmptyString
  end.

(** The value of a decimal digit. *)
Definition digit (a : ascii) : option Z :=
  let n := nat_of_ascii a in
  if ((48 <=? n) && (n <=? 57))%nat then Some (Z.of_nat n - 48) else None.

(** The digits of an integer literal, with single underscores between
    digits: the value and the number of digits, [acc] and [n] being those
    of the digits read so far and [after_digit] telling whether the last
    character read was a digit. *)
Fixpoint int_digits (s : string) (acc : Z) (n : nat) (after_digit : bool)
  : option (Z * nat) :=
  match s with
  | String a s' =>
      match digit a with
      | Some d => int_digits s' (10 * acc + d) (S n) true
      | None =>
          if bool_decide (a = "_"%char) && after_digit
          then int_digits s' acc n false
          else None
      end
  | EmptyString => if after_digit then Some (acc, n) else None
  end.

(** [int(s)] for a word [s] of [split()] (no whitespace to strip): an
    optional sign and the digits; [ValueError] on anything else, and on
    more digits than [sys.get_int_max_str_digits()] ([max_str_digits],
    0 for no limit, as in the Pythons that have none). *)
Definition int (max_str_digits : nat) (s : string) : result Z :=
  let '(negative, body) :=
    match s with
    | String "+" r => (false, r)
    | String "-" r => (true, r)
    | _ => (false, s)
    end in
  match int_digits body 0 0 false with
  | Some (v, n) =>
      if ((0 <? max_str_digits) && (max_str_digits <? n))%nat
      then Raise ValueError
      else Ok (if negative then - v else v)
  | None => Raise ValueError
  end.

End py.

(** ** [main] (lines 131–200) *)

(** What one iteration of the loop prints or shows. *)
Inductive echo :=
  | Print (r : report)
  | Usage (text : string)
  | UnknownCommand
  | Figure.

(** How one iteration ends. *)
Inductive turn :=
  | Continue (out : echo) (c : SDNController)
  | Break
  | Uncaught (e : exn)
  | VisualizeRaised
  | TurnOutOfFuel.

(** The iteration goes on after a call of the controller that returns. *)
Definition after_call (r : result (report * SDNController)) : turn :=
  match r with
  | Ok (rep, c) => Continue (Print rep) c
  | Raise e => Uncaught e
  | OutOfFuel => TurnOutOfFuel
  end.

(** [parts[i]] *)
Definition item (parts : list string) (i : nat) : result string :=
  match parts !! i with
  | Some x => Ok x
  | None => Raise IndexError
  end.

Section main.
(** [int_max_str_digits]: the limit of [int()] in the running Python;
    [visualize_returns c]: whether [controller.visualize()], which draws
    with matplotlib and changes nothing, returns in the state [c]. *)
Context (int_max_str_digits : nat) (visualize_returns : SDNController → bool).

(** The body of [while True] for the line read by [input()]. *)
Definition loop_body (line : string) (c : SDNController) : turn :=
  let cmd := py.strip line in
  if py.startswith cmd "add node" then
    let parts := py.split cmd in
    if negb (length parts =? 3)%nat
    then Continue (Usage "Usage: add node <name>") c
    else after_call (
      node ← item parts 2;
      Ok (add_node (py.lower node) c))
  else if py.startswith cmd "remove node" then
    let parts := py.split cmd in
    if negb (length parts =? 3)%nat
    then Continue (Usage "Usage: remove node <name>") c
    else after_call (
      node ← item parts 2;
      Ok (remove_node (py.lower node) c))
  else if py.startswith cmd "add link" then
    let parts := py.split cmd in
    if (length parts <? 4)%nat
    then Continue (Usage "Usage: add link <node1> <node2> [weight]") c
    else after_call (
      u ← item parts 2;
      v ← item parts 3;
      weight ← (if (4 <? length parts)%nat
                then w ← item parts 4; py.int int_max_str_digits w
                else Ok 1);
      Ok (add_link (py.lower u) (py.lower v) weight c))
  else if py.startswith cmd "remove link" then
    let parts := py.split cmd in
    if negb (length parts =? 4)%nat
    then Continue (Usage "Usage: remove link <node1> <node2>") c
    else after_call (
      u ← item parts 2;
      v ← item parts 3;
      Ok (remove_link (py.lower u) (py.lower v) c))
  else if py.startswith cmd "inject traffic" then
    let parts := py.split cmd in
    if (length parts <? 6)%nat
    then Continue (Usage "Usage: inject traffic <src> <dst> <type> <bandwidth>") c
    else after_call (
      s ← item parts 2;
      d ← item parts 3;
      ttype ← item parts 4;
      b ← item parts 5;
      bw ← py.int int_max_str_digits b;
      inject_traffic_flow (py.lower s) (py.lower d) ttype bw c)
  else if py.startswith cmd "simulate link failure" then
    let parts := py.split cmd in
    if negb (length parts =? 5)%nat
    then Continue (Usage "Usage: simulate link failure <node1> <node2>") c
    else after_call (
      u ← item parts 3;
      v ← item parts 4;
      simulate_link_failure (py.lower u) (py.lower v) c)
  else if py.startswith cmd "query routing" then
    let parts := py.split cmd in
    if negb (length parts =? 4)%nat
    then Continue (Usage "Usage: query routing <src> <dst>") c
    else after_call (
      s ← item parts 2;
      d ← item parts 3;
      query_routing (py.lower s) (py.lower d) c)
  else if bool_decide (cmd = "visualize") then
    if visualize_returns c then Continue Figure c else VisualizeRaised
  else if bool_decide (cmd ∈ ["exit"; "quit"; "q"]) then Break
  else Continue UnknownCommand c.

(** How [main] ends: it returns after [break]; [input()] raises [EOFError]
    when there is no line left; an exception raised in an iteration is not
    caught. *)
Inductive ending :=
  | Returned (c : SDNController)
  | EOFError (c : SDNController)
  | Raised (e : exn)
  | RaisedByVisualize
  | MainOutOfFuel.

(** [while True] on the lines that [input()] has to give, from the
    controller state [c]: what is printed, and the end. *)
Fixpoint main_loop (lines : list string) (c : SDNController)
  : list echo * ending :=
  match lines with
  | [] => ([], EOFError c)
  | line :: lines' =>
      match loop_body line c with
      | Continue out c' =>
          let '(outs, e) := main_loop lines' c' in (out :: outs, e)
      | Break => ([], Returned c)
      | Uncaught e => ([], Raised e)
      | VisualizeRaised => ([], RaisedByVisualize)
      | TurnOutOfFuel => ([], MainOutOfFuel)
      end
  end.

(** [main()] *)
Definition main (lines : list string) : list echo * ending :=
  main_loop lines init.
End main.

(** ** [SDNController.visualize] (lines 116–127)

    The drawing is matplotlib's.  What the method computes itself is the
    label of every edge [(u, v)] of [self.topology.edges]: [str] of the
    ledger value at [(u, v)] or, when that key is missing, at [(v, u)],
    0 when both are.  [label_value] is the number that is printed. *)
Definition label_value (L : gmap (string * string) Z) (u v : node) : Z :=
  let key := if bool_decide (is_Some (L !! (u, v))) then (u, v) else (v, u) in
  default 0 (L !! key).

(** * Vocabulary of the properties *)

(** ** Outcomes *)

(** [post E T r Q]: [r] returns a value satisfying [Q], or raises an
    exception allowed by [E], or runs out of fuel provided [T]. *)
Definition post {A} (E : exn → Prop) (T : Prop) (r : result A) (Q : A → Prop) : Prop :=
  match r with
  | Ok a => Q a
  | Raise e => E e
  | OutOfFuel => T
  end.

(** ** Graphs *)

(** The adjacency entries of [x] (none when [x] is not a node). *)
Definition nbrs (G : Graph) (x : node) : list (node * Z) :=
  default [] (adj G !! x).

(** What the class [nx.Graph] maintains: the inner dicts have no repeated
    key and the adjacency is symmetric, with the same weight both ways. *)
Definition wf_graph (G : Graph) : Prop :=
  map_Forall (λ u l,
      NoDup (odict.keys l) ∧
      Forall (λ vw, edge_weight G vw.1 u = Some vw.2) l)
    (adj G).

#[global] Instance wf_graph_dec G : Decision (wf_graph G).
Proof. unfold wf_graph. apply _. Defined.

(** No link has a negative weight. *)
Definition nonneg_weights (G : Graph) : Prop :=
  map_Forall (λ _ l, Forall (λ vw : node * Z, 0 ≤ vw.2) l) (adj G).

#[global] Instance nonneg_weights_dec G : Decision (nonneg_weights G).
Proof. unfold nonneg_weights. apply _. Defined.

(** ** Paths *)

(** The sum of the weights of the hops [l] (a hop that is not a link counts
    for 0). *)
Definition hops_weight (G : Graph) (l : list (node * node)) : Z :=
  foldr (λ e acc, default 0 (edge_weight G e.1 e.2) + acc) 0 l.

(** The total weight of the links along [p]. *)
Definition path_weight (G : Graph) (p : list node) : Z := hops_weight G (hops p).

(** [p] is a path of [G] from [s] to [t]: it repeats no node and each of
    its hops is a link. *)
Definition is_path (G : Graph) (s t : node) (p : list node) : Prop :=
  head p = Some s ∧ last p = Some t ∧ NoDup p ∧ has_node G s = true ∧
  ∀ a b, (a, b) ∈ hops p → is_Some (edge_weight G a b).

(** The same without the condition on repeated nodes. *)
Definition is_walk (G : Graph) (s t : node) (p : list node) : Prop :=
  head p = Some s ∧ last p = Some t ∧ has_node G s = true ∧
  ∀ a b, (a, b) ∈ hops p → is_Some (edge_weight G a b).

(** ** The search for shortest paths *)

(** What the search maintains whatever the weights: the nodes it has seen
    are nodes of the graph and have a predecessor list, and every recorded
    predecessor is a neighbour that has been seen. *)
Record struct_inv (G : Graph) (st : dijkstra_state) : Prop := {
  si_adj : ∀ x, is_Some (seen st !! x) → is_Some (adj G !! x);
  si_fringe : ∀ e, e ∈ fringe st → is_Some (seen st !! e.2);
  si_dist : ∀ x, is_Some (dist st !! x) → is_Some (seen st !! x);
  si_pred : ∀ x, is_Some (seen st !! x) → is_Some (pred st !! x);
  si_edges : ∀ u ps v, pred st !! u = Some ps → v ∈ ps →
             is_Some (edge_weight G v u) ∧ is_Some (pred st !! v)
}.

(** [chain source pred n q]: [q] runs from [source] to [n] and each of its
    nodes is listed among the predecessors of the next one. *)
Inductive chain (source : node) (pred : gmap string (list string))
  : node → list node → Prop :=
  | chain_source : chain source pred source [source]
  | chain_step n m q ps :
      pred !! n = Some ps → m ∈ ps → chain source pred m q →
      chain source pred n (q ++ [n]).

(** [reach G s x d]: some walk of [G] from [s] to [x] has weight [d]. *)
Inductive reach (G : Graph) (s : node) : node → Z → Prop :=
  | reach_source : reach G s s 0
  | reach_step x y w d :
      reach G s x d → edge_weight G x y = Some w → reach G s y (d + w).

(** The node being scanned and the adjacency entries already relaxed. *)
Definition cursor : Type := option (node * list (node * Z)).

(** The link from [v] to [u] has been relaxed. *)
Definition relaxed (cur : cursor) (v u : node) (w : Z) : Prop :=
  match cur with
  | Some (v', done) => v = v' → (u, w) ∈ done
  | None => True
  end.

(** The invariant of the search on non-negative weights, between two pops
    ([cur = None]) and during the scan of an adjacency:
    - [mi_ds], [mi_src]: a final distance is the best distance seen, and
      the source has been seen at distance 0 at most;
    - [mi_f1], [mi_f2], [mi_f3]: the heap holds an entry at [seen[x]] for
      every node seen and not final, nothing below, and nothing below a
      final distance;
    - [mi_cur]: the node being scanned is final and no final distance
      exceeds its own;
    - [mi_cl]: a link that has been relaxed is not shortened by [seen];
    - [mi_w]: a distance seen is the weight of a walk;
    - [mi_p], [mi_pk]: [pred[u]] lists the final nodes with a relaxed link
      to [u] that reaches [u] at [seen[u]]. *)
Record metric_inv (G : Graph) (s : node) (cur : cursor)
    (st : dijkstra_state) : Prop := {
  mi_ds : ∀ x d, dist st !! x = Some d → seen st !! x = Some d;
  mi_src : ∃ d0, seen st !! s = Some d0 ∧ d0 ≤ 0;
  mi_f1 : ∀ d c x, (d, c, x) ∈ fringe st →
          ∃ sx, seen st !! x = Some sx ∧ sx ≤ d;
  mi_f2 : ∀ x sx, seen st !! x = Some sx → dist st !! x = None →
          ∃ c, (sx, c, x) ∈ fringe st;
  mi_f3 : ∀ x dx d c y, dist st !! x = Some dx → (d, c, y) ∈ fringe st →
          dx ≤ d;
  mi_cur : match cur with
           | Some (v, _) =>
               ∃ dv, dist st !! v = Some dv ∧
                     ∀ x dx, dist st !! x = Some dx → dx ≤ dv
           | None => True
           end;
  mi_cl : ∀ v dv u w, dist st !! v = Some dv → edge_weight G v u = Some w →
          relaxed cur v u w → ∃ su, seen st !! u = Some su ∧ su ≤ dv + w;
  mi_w : ∀ x sx, seen st !! x = Some sx → reach G s x sx;
  mi_p : ∀ u su, seen st !! u = Some su →
         ∃ ps, pred st !! u = Some ps ∧
           ∀ v, v ∈ ps ↔
             ∃ dv w, dist st !! v = Some dv ∧ edge_weight G v u = Some w ∧
                     relaxed cur v u w ∧ dv + w = su;
  mi_pk : ∀ u, is_Some (pred st !! u) → is_Some (seen st !! u)
}.

(** What the search has computed when it ends: [dist] gives the least
    weight of a walk to every node that has one, and [pred[u]] lists
    exactly the neighbours [v] with [dist[v] + weight(v, u) = dist[u]]. *)
Record search_result (G : Graph) (s : node) (st : dijkstra_state) : Prop := {
  sr_lower : ∀ x d, reach G s x d → ∃ dx, dist st !! x = Some dx ∧ dx ≤ d;
  sr_reach : ∀ x dx, dist st !! x = Some dx → reach G s x dx;
  sr_keys : ∀ u, is_Some (pred st !! u) ↔ is_Some (dist st !! u);
  sr_pred : ∀ u ps, pred st !! u = Some ps →
            ∀ v, v ∈ ps ↔
              ∃ dv w du, dist st !! v = Some dv ∧
                         edge_weight G v u = Some w ∧
                         dist st !! u = Some du ∧ dv + w = du
}.

(** The call returns a value: no exception, fuel left. *)
Abbreviation total_post := (post (λ _, False) False).

(** ** The ledger *)

(** How many of the updates made for the hops [l] hit the key [k]: each
    hop updates its own key and the reversed one. *)
Definition hits (l : list (node * node)) (k : node * node) : Z :=
  foldr (λ e acc,
      (if decide (k = (e.1, e.2)) then 1 else 0) +
      (if decide (k = (e.2, e.1)) then 1 else 0) + acc) 0 l.

(** ... for the hops of the path [p]. *)
Definition uses (p : list node) (k : node * node) : Z := hits (hops p) k.

(** Every link of the topology has its ledger entry (in both directions,
    the adjacency being symmetric). *)
Definition ledger_covers (G : Graph) (L : gmap (string * string) Z) : Prop :=
  ∀ u v, is_Some (edge_weight G u v) → is_Some (L !! (u, v)).

(** No ledger value is negative. *)
Definition ledger_nonneg (c : SDNController) : Prop :=
  ∀ k x, link_utilization c !! k = Some x → 0 ≤ x.

(** Both directional entries of u–v exist and hold 0. *)
Definition both_zero (u v : node) (c : SDNController) : Prop :=
  link_utilization c !! (u, v) = Some 0 ∧ link_utilization c !! (v, u) = Some 0.

(** ** Controller states *)

(** The stored path of every active flow repeats no node. *)
Definition flows_simple (fl : list Flow) : Prop :=
  ∀ f, f ∈ fl → NoDup (flow_path f).

(** The invariants kept by every command. *)
Record ctrl_inv (c : SDNController) : Prop := {
  ci_wf : wf_graph (topology c);
  ci_covers : ledger_covers (topology c) (link_utilization c);
  ci_simple : flows_simple (flows c)
}.

(** The states a session can end in, starting from [SDNController()]. *)
Definition reachable (c : SDNController) : Prop := ∃ cmds, session cmds = Ok c.

(** The call ends, and raises nothing but [ValueError]. *)
Abbreviation no_key_error := (post (λ e, e = ValueError) False).

(** The state a session ends in ([init] if it ends on an exception). *)
Definition state_after (cmds : list command) : SDNController :=
  match session cmds with
  | Ok c => c
  | _ => init
  end.

(** The flows and the ledger entries at the keys [ks] of a state. *)
Definition observe (ks : list (node * node)) (c : SDNController)
  : list Flow * list (option Z) :=
  (flows c, (λ k, link_utilization c !! k) <$> ks).

(** Commands that only add to the ledger: no link failure, no negative
    bandwidth. *)
Definition only_reserves (cmd : command) : bool :=
  match cmd with
  | FailLink _ _ => false
  | InjectTraffic _ _ _ bw => bool_decide (0 ≤ bw)
  | _ => true
  end.

(** ** The handling of a link failure, flow by flow *)

(** What the loop of [simulate_link_failure] does to one flow [f] with the
    ledger [L]: [f'] and [L'] are the flow and the ledger afterwards, [R]
    the ledger once the old path is released. *)
Definition reroute_step (u v : node) (G : Graph)
    (L : gmap (string * string) Z) (f f' : Flow)
    (L' : gmap (string * string) Z) : Prop :=
  (¬ (u ∈ flow_path f ∧ v ∈ flow_path f) → f' = f ∧ L' = L) ∧
  (u ∈ flow_path f ∧ v ∈ flow_path f →
   ∃ R : gmap (string * string) Z,
     (∀ a b, (a, b) ∈ hops (flow_path f) →
        R !! (a, b) = (λ x, x - bandwidth f) <$> L !! (a, b) ∧
        R !! (b, a) = (λ x, x - bandwidth f) <$> L !! (b, a)) ∧
     (∀ a b, (a, b) ∉ hops (flow_path f) → (b, a) ∉ hops (flow_path f) →
        R !! (a, b) = L !! (a, b)) ∧
     match compute_path G R (src f) (dst f) (traffic_type f) with
     | Ok (Some (a :: p)) =>
         f' = mkFlow (src f) (dst f) (traffic_type f) (bandwidth f) (a :: p) ∧
         reserve (bandwidth f) R (a :: p) = Ok L'
     | Ok _ => f' = f ∧ L' = R
     | _ => False
     end).

(** The flows are visited in order, the ledger being threaded through. *)
Inductive reroute_trace (u v : node) (G : Graph)
  : gmap (string * string) Z → list Flow → list Flow →
    gmap (string * string) Z → Prop :=
  | reroute_trace_nil L : reroute_trace u v G L [] [] L
  | reroute_trace_cons L f fl f' L1 fl' L' :
      reroute_step u v G L f f' L1 →
      reroute_trace u v G L1 fl fl' L' →
      reroute_trace u v G L (f :: fl) (f' :: fl') L'.

(** ** Scenarios *)

(** Nodes a, b, c with the links a–b (1), b–c (1) and a–c (5). *)
Definition abc_topology : list command :=
  [AddNode "a"; AddNode "b"; AddNode "c";
   AddLink "a" "b" 1; AddLink "b" "c" 1; AddLink "a" "c" 5].

(** ... and one flow of bandwidth 10 from a to c. *)
Definition abc_scenario : list command :=
  abc_topology ++ [InjectTraffic "a" "c" "data" 10].

(** A flow on [a; b; c] is rerouted by the failure of the link a–c, which
    is not on its path: both endpoints occur in the path. *)
Definition detour_scenario : list command :=
  abc_scenario ++ [AddNode "d"; AddLink "a" "d" 0; AddLink "d" "c" 1].

(** A line a–b–c–d carrying one flow of bandwidth 10; a–b fails, then b–c. *)
Definition double_failure : list command :=
  [AddNode "a"; AddNode "b"; AddNode "c"; AddNode "d";
   AddLink "a" "b" 1; AddLink "b" "c" 1; AddLink "c" "d" 1;
   InjectTraffic "a" "d" "data" 10;
   FailLink "a" "b"; FailLink "b" "c"].

(** A link a–b carrying a flow of bandwidth 10, then [remove node a]. *)
Definition stale_scenario : list command :=
  [AddNode "a"; AddNode "b"; AddLink "a" "b" 1;
   InjectTraffic "a" "b" "data" 10; RemoveNode "a"].

(** Two flows on [a; b; c], then a link c–d of weight -1. *)
Definition negative_failure_scenario : list command :=
  abc_scenario ++
  [InjectTraffic "a" "c" "voice" 5; AddNode "d"; AddLink "c" "d" (-1)].

(** The links a–b (1), a–c (2) and c–b (-5). *)
Definition negative_scenario : list command :=
  [AddNode "a"; AddNode "b"; AddNode "c";
   AddLink "a" "b" 1; AddLink "a" "c" 2; AddLink "c" "b" (-5)].

(** ** The lines of [main] as commands

    What the words of a line ask for: the command-level reading of
    [main], to be compared with [loop_body]. *)
Inductive request :=
  | Call (cmd : command)
  | ShowUsage (text : string)
  | Draw
  | Leave
  | Unknown.

Definition parse (int_max_str_digits : nat) (line : string) : result request :=
  let cmd := py.strip line in
  let words := py.split cmd in
  if py.startswith cmd "add node" then
    match words with
    | [_; _; n] => Ok (Call (AddNode (py.lower n)))
    | _ => Ok (ShowUsage "Usage: add node <name>")
    end
  else if py.startswith cmd "remove node" then
    match words with
    | [_; _; n] => Ok (Call (RemoveNode (py.lower n)))
    | _ => Ok (ShowUsage "Usage: remove node <name>")
    end
  else if py.startswith cmd "add link" then
    match words with
    | [_; _; u; v] => Ok (Call (AddLink (py.lower u) (py.lower v) 1))
    | _ :: _ :: u :: v :: w :: _ =>
        weight ← py.int int_max_str_digits w;
        Ok (Call (AddLink (py.lower u) (py.lower v) weight))
    | _ => Ok (ShowUsage "Usage: add link <node1> <node2> [weight]")
    end
  else if py.startswith cmd "remove link" then
    match words with
    | [_; _; u; v] => Ok (Call (RemoveLink (py.lower u) (py.lower v)))
    | _ => Ok (ShowUsage "Usage: remove link <node1> <node2>")
    end
  else if py.startswith cmd "inject traffic" then
    match words with
    | _ :: _ :: s :: d :: ty :: b :: _ =>
        bw ← py.int int_max_str_digits b;
        Ok (Call (InjectTraffic (py.lower s) (py.lower d) ty bw))
    | _ => Ok (ShowUsage "Usage: inject traffic <src> <dst> <type> <bandwidth>")
    end
  else if py.startswith cmd "simulate link failure" then
    match words with
    | [_; _; _; u; v] => Ok (Call (FailLink (py.lower u) (py.lower v)))
    | _ => Ok (ShowUsage "Usage: simulate link failure <node1> <node2>")
    end
  else if py.startswith cmd "query routing" then
    match words with
    | [_; _; s; d] => Ok (Call (QueryRouting (py.lower s) (py.lower d)))
    | _ => Ok (ShowUsage "Usage: query routing <src> <dst>")
    end
  else if bool_decide (cmd = "visualize") then Ok Draw
  else if bool_decide (cmd = "exit") || bool_decide (cmd = "quit") ||
          bool_decide (cmd = "q") then Ok Leave
  else Ok Unknown.

(** What [main] does for a request. *)
Definition perform (visualize_returns : SDNController → bool)
    (r : request) (c : SDNController) : turn :=
  match r with
  | Call cmd => after_call (exec cmd c)
  | ShowUsage text => Continue (Usage text) c
  | Draw => if visualize_returns c then Continue Figure c else VisualizeRaised
  | Leave => Break
  | Unknown => Continue UnknownCommand c
  end.

(** The node names of a command. *)
Definition names (cmd : command) : list string :=
  match cmd with
  | AddNode n | RemoveNode n => [n]
  | AddLink u v _ | RemoveLink u v | FailLink u v => [u; v]
  | InjectTraffic s d _ _ | QueryRouting s d => [s; d]
  end.

(** ** Vocabulary of the further properties *)

(** What identifies a flow: every field but its path. *)
Definition flow_id (f : Flow) : string * string * string * Z :=
  (src f, dst f, traffic_type f, bandwidth f).

(** The path of [f] crosses the link of the key [k], in either direction. *)
Definition crosses (k : node * node) (f : Flow) : bool :=
  bool_decide (k ∈ hops (flow_path f)) ||
  bool_decide ((k.2, k.1) ∈ hops (flow_path f)).

(** The total bandwidth of the flows that cross the link of [k]. *)
Definition load (fl : list Flow) (k : node * node) : Z :=
  foldr (λ f acc, (if crosses k f then bandwidth f else 0) + acc) 0 fl.

(** Every ledger value is the load of its link. *)
Definition ledger_accounts (c : SDNController) : Prop :=
  ∀ k x, link_utilization c !! k = Some x → x = load (flows c) k.

(** Both directions of every link hold the same value. *)
Definition ledger_symmetric (L : gmap (string * string) Z) : Prop :=
  ∀ a b, L !! (a, b) = L !! (b, a).

(** Every ledger entry is the entry of a link. *)
Definition ledger_within (G : Graph) (L : gmap (string * string) Z) : Prop :=
  ∀ a b, is_Some (L !! (a, b)) → is_Some (edge_weight G a b).

(** The stored path of [f] runs from its source to its destination and
    repeats no node. *)
Definition end_to_end (f : Flow) : Prop :=
  head (flow_path f) = Some (src f) ∧ last (flow_path f) = Some (dst f) ∧
  NoDup (flow_path f).

(** What the loop of [simulate_link_failure u v] makes of the flow [f]
    on the topology [G]: [f'] keeps the identity of [f]; when both [u] and
    [v] are on the path of [f], its path is the one [compute_path] finds
    (with the ledger [L] of that moment), if any; otherwise [f'] is [f]. *)
Definition rerouted (u v : node) (G : Graph) (f f' : Flow) : Prop :=
  flow_id f' = flow_id f ∧
  (u ∈ flow_path f ∧ v ∈ flow_path f →
   ∃ L, match compute_path G L (src f) (dst f) (traffic_type f) with
        | Ok (Some (a :: p)) => flow_path f' = a :: p
        | Ok _ => f' = f
        | _ => False
        end) ∧
  (¬ (u ∈ flow_path f ∧ v ∈ flow_path f) → f' = f).

(** Commands other than [remove node]. *)
Definition keeps_nodes (cmd : command) : bool :=
  match cmd with RemoveNode _ => false | _ => true end.

(** The commands of the topology store. *)
Definition is_topology_command (cmd : command) : bool :=
  match cmd with
  | AddNode _ | RemoveNode _ | AddLink _ _ _ | RemoveLink _ _ => true
  | _ => false
  end.

(** Commands that neither reset a ledger entry ([add link]) nor release
    bandwidth ([simulate link failure]). *)
Definition keeps_entries (cmd : command) : bool :=
  match cmd with AddLink _ _ _ | FailLink _ _ => false | _ => true end.

(** Commands that add no link of negative weight. *)
Definition nonneg_command (cmd : command) : bool :=
  match cmd with AddLink _ _ w => bool_decide (0 ≤ w) | _ => true end.

(** What the search maintains whatever the weights, as long as it has
    not raised:
    - [cl_ds], [cl_src]: a final distance is the best distance seen, and
      the source has been seen;
    - [cl_f1], [cl_f2]: the heap holds an entry at [seen[x]] for every
      node seen and not final, and nothing below;
    - [cl_cl]: a link that has been relaxed is not shortened by [seen]. *)
Record closing_inv (G : Graph) (s : node) (cur : cursor)
    (st : dijkstra_state) : Prop := {
  cl_ds : ∀ x d, dist st !! x = Some d → seen st !! x = Some d;
  cl_src : is_Some (seen st !! s);
  cl_f1 : ∀ d c x, (d, c, x) ∈ fringe st →
          ∃ sx, seen st !! x = Some sx ∧ sx ≤ d;
  cl_f2 : ∀ x sx, seen st !! x = Some sx → dist st !! x = None →
          ∃ c, (sx, c, x) ∈ fringe st;
  cl_cl : ∀ v dv u w, dist st !! v = Some dv → edge_weight G v u = Some w →
          relaxed cur v u w → ∃ su, seen st !! u = Some su ∧ su ≤ dv + w
}.

(** ** Words and lines *)

(** [n] is its own lower-case form. *)
Definition lower_case (n : string) : Prop := py.lower n = n.

Fixpoint no_space (s : string) : bool :=
  match s with
  | String a s' => negb (py.isspace a) && no_space s'
  | EmptyString => true
  end.

(** A word: not empty, no whitespace. *)
Definition word (w : string) : bool :=
  negb (bool_decide (w = EmptyString)) && no_space w.

(** The words separated by single spaces. *)
Fixpoint unwords (ws : list string) : string :=
  match ws with
  | [] => EmptyString
  | [w] => w
  | w :: ws' => w +:+ " " +:+ unwords ws'
  end.

(** ** More scenarios *)

(** Two paths of weight 2 from a to d, through b and through c, and one
    flow of bandwidth 10 from a to d. *)
Definition diamond_scenario : list command :=
  [AddNode "a"; AddNode "b"; AddNode "c"; AddNode "d";
   AddLink "a" "b" 1; AddLink "b" "d" 1; AddLink "a" "c" 1; AddLink "c" "d" 1;
   InjectTraffic "a" "d" "data" 10].

(** A session typed at the prompt of [main]. *)
Definition typed_session : list string :=
  ["add node A"; "add node b"; "add link a B 3"; "inject traffic a b data 7";
   "query routing A B"; "exit"; "add node z"].

(** * Properties *)

(** ** The result monad and [for_each] *)

Lemma bind_Ok {A B} (r : result A) (k : A → result B) b :
  (x ← r; k x) = Ok b ↔ ∃ a, r = Ok a ∧ k a = Ok b.
Proof.
  destruct r as [a|e|]; simpl; split.
  - intros Hk. by exists a.
  - by intros (a' & [= <-] & Hk).
  - done.
  - by intros (a' & [=] & _).
  - done.
  - by intros (a' & [=] & _).
Qed.

Lemma post_mono {A} E T (r : result A) (Q Q' : A → Prop) :
  post E T r Q → (∀ a, Q a → Q' a) → post E T r Q'.
Proof. destruct r; simpl; auto. Qed.

Lemma post_weaken {A} (E E' : exn → Prop) (T T' : Prop) (r : result A) Q :
  post E T r Q → (∀ e, E e → E' e) → (T → T') → post E' T' r Q.
Proof. destruct r; simpl; auto. Qed.

Lemma post_bind {A B} E T (r : result A) (k : A → result B) Q Q' :
  post E T r Q → (∀ a, Q a → post E T (k a) Q') → post E T (a ← r; k a) Q'.
Proof. destruct r; simpl; auto. Qed.

(** A loop invariant indexed by the items already visited. *)
Lemma post_for_each {A S} E T (I : list A → S → Prop) (f : S → A → result S) l :
  (∀ done x rest st, l = done ++ x :: rest → I done st →
     post E T (f st x) (I (done ++ [x]))) →
  ∀ st, I [] st → post E T (for_each f st l) (I l).
Proof.
  intros Hf.
  cut (∀ rest done st, l = done ++ rest → I done st →
         post E T (for_each f st rest) (I l)).
  { intros H st. by apply (H l []). }
  induction rest as [|x rest IH]; intros done st Hl HI; simpl.
  - by rewrite Hl, app_nil_r.
  - eapply post_bind; [by eapply Hf|].
    intros st' HI'. apply (IH (done ++ [x])); [|done].
    by rewrite <-(assoc_L (++)).
Qed.

(** ** Insertion-ordered dicts *)

Module odict_facts.
Import odict.
Section facts.
Context {V : Type}.
Implicit Types (d : list (node * V)) (k : node) (v : V).

Lemma get_set k k' v d :
  get k' (set k v d) = if decide (k = k') then Some v else get k' d.
Proof.
  induction d as [|[k0 v0] d IH]; simpl.
  - repeat case_decide; congruence.
  - destruct (decide (k0 = k)) as [->|]; simpl;
      repeat case_decide; try congruence.
Qed.

Lemma get_del k k' d :
  get k' (del k d) = if decide (k = k') then None else get k' d.
Proof.
  induction d as [|[k0 v0] d IH]; simpl.
  - by case_decide.
  - destruct (decide (k0 = k)) as [->|]; simpl;
      repeat case_decide; try congruence.
Qed.

Lemma get_Some_elem k v d : get k d = Some v → (k, v) ∈ d.
Proof.
  induction d as [|[k0 v0] d IH]; simpl; [done|].
  case_decide; intros; simplify_eq; [left | right; auto].
Qed.

Lemma get_None_keys k d : get k d = None ↔ k ∉ keys d.
Proof.
  unfold keys. induction d as [|[k0 v0] d IH]; simpl.
  - split; [intros _; apply not_elem_of_nil | done].
  - rewrite not_elem_of_cons. case_decide; naive_solver.
Qed.

Lemma get_is_Some_keys k d : is_Some (get k d) ↔ k ∈ keys d.
Proof.
  rewrite <-not_eq_None_Some, get_None_keys.
  destruct (decide (k ∈ keys d)); naive_solver.
Qed.

Lemma elem_get k v d : NoDup (keys d) → (k, v) ∈ d → get k d = Some v.
Proof.
  unfold keys. induction d as [|[k0 v0] d IH]; simpl; intros Hnd Hin.
  - by apply elem_of_nil in Hin.
  - apply NoDup_cons in Hnd as [Hk0 Hnd].
    apply elem_of_cons in Hin as [?|Hin]; simplify_eq.
    + by rewrite decide_True.
    + rewrite decide_False; [auto|].
      intros ->. apply Hk0. apply list_elem_of_fmap. by exists (k, v).
Qed.

Lemma elem_keys_del x k d : x ∈ keys (del k d) ↔ x ≠ k ∧ x ∈ keys d.
Proof.
  rewrite <-!get_is_Some_keys, get_del.
  case_decide; subst; split; naive_solver.
Qed.

Lemma elem_keys_set x k v d : x ∈ keys (set k v d) ↔ x = k ∨ x ∈ keys d.
Proof.
  rewrite <-!get_is_Some_keys, get_set.
  case_decide; subst; naive_solver.
Qed.

Lemma NoDup_keys_del k d : NoDup (keys d) → NoDup (keys (del k d)).
Proof.
  unfold keys. induction d as [|[k0 v0] d IH]; simpl; [done|].
  intros [Hk0 Hnd]%NoDup_cons. case_decide; [auto|].
  simpl. apply NoDup_cons. split; [|auto].
  intros Hin. apply Hk0. by apply (elem_keys_del k0 k d) in Hin as [_ ?].
Qed.

Lemma NoDup_keys_set k v d : NoDup (keys d) → NoDup (keys (set k v d)).
Proof.
  unfold keys. induction d as [|[k0 v0] d IH]; simpl.
  - intros _. apply NoDup_singleton.
  - intros [Hk0 Hnd]%NoDup_cons. case_decide; simpl; subst.
    + by apply NoDup_cons.
    + apply NoDup_cons. split; [|auto].
      intros Hin. apply (elem_keys_set k0 k v d) in Hin as [?|?]; done.
Qed.
End facts.
End odict_facts.

(** ** [nx.Graph]: what each mutator does to the adjacency of a node *)

Import odict_facts.

Lemma has_node_true G n : has_node G n = true ↔ is_Some (adj G !! n).
Proof. unfold has_node. by rewrite bool_decide_eq_true. Qed.

Lemma has_edge_true G u v : has_edge G u v = true ↔ is_Some (edge_weight G u v).
Proof.
  unfold has_edge, edge_weight. destruct (adj G !! u) as [l|]; simpl.
  - by rewrite bool_decide_eq_true.
  - split; [done | by intros [? ?]].
Qed.

Lemma edge_weight_nbrs G u v : edge_weight G u v = odict.get v (nbrs G u).
Proof. unfold edge_weight, nbrs. by destruct (adj G !! u). Qed.

Lemma edge_weight_has_node G u v w : edge_weight G u v = Some w → has_node G u = true.
Proof.
  unfold edge_weight. intros H. apply has_node_true.
  destruct (adj G !! u); [by eexists | done].
Qed.

Lemma lookup_add_node G n x :
  adj (nx.add_node G n) !! x
  = if decide (x = n) then Some (nbrs G n) else adj G !! x.
Proof.
  unfold nx.add_node, nbrs. destruct (adj G !! n) as [l|] eqn:E; simpl.
  - case_decide; by subst.
  - rewrite lookup_insert. repeat case_decide; by subst.
Qed.

Lemma lookup_add_edge G u v w x :
  adj (add_edge G u v w) !! x
  = if decide (x = u ∨ x = v)
    then Some ((if decide (x = v) then odict.set u w else id)
                 ((if decide (x = u) then odict.set v w else id) (nbrs G x)))
    else adj G !! x.
Proof.
  unfold add_edge; simpl.
  rewrite !lookup_alter, !lookup_add_node. unfold nbrs.
  rewrite !lookup_add_node. unfold nbrs.
  destruct (decide (x = u)) as [Hu|Hu], (decide (x = v)) as [Hv|Hv];
    subst; repeat (case_decide; simplify_eq; simpl; try tauto);
    try done; try (exfalso; tauto).
Qed.

Lemma lookup_remove_edge G u v x :
  adj (remove_edge G u v) !! x
  = (if decide (x = v) then odict.del u else id)
      <$> ((if decide (x = u) then odict.del v else id) <$> adj G !! x).
Proof.
  unfold remove_edge; simpl.
  destruct (decide (u = v)) as [->|Huv].
  - rewrite lookup_alter. case_decide as Hx; simplify_eq.
    + rewrite decide_True by done.
      destruct (adj G !! x) as [l|]; simpl; [|done].
      f_equal. induction l as [|[k y] l IH]; simpl; [done|].
      case_decide; simpl; [done|]. rewrite decide_False by done. by f_equal.
    + rewrite !decide_False by done. by destruct (adj G !! x).
  - rewrite !lookup_alter.
    destruct (decide (x = u)) as [Hu|Hu], (decide (x = v)) as [Hv|Hv];
      subst; repeat (case_decide; simplify_eq; simpl); try done;
      by destruct (adj G !! _).
Qed.

Lemma lookup_foldl_del n (ks : list node) (a : gmap string (list (string * Z))) x :
  foldl (λ a u, alter (odict.del n) u a) a ks !! x
  = (if decide (x ∈ ks) then odict.del n else id) <$> a !! x.
Proof.
  revert a. induction ks as [|k ks IH]; intros a; cbn [foldl].
  - rewrite decide_False by apply not_elem_of_nil. by destruct (a !! x).
  - rewrite IH, lookup_alter.
    destruct (decide (x = k)) as [->|Hk].
    + rewrite (decide_True (P := k = k)) by done.
      rewrite (decide_True (P := k ∈ k :: ks)) by left.
      destruct (a !! k) as [l|]; simpl; [|by case_decide].
      case_decide; simpl; [|done].
      f_equal. induction l as [|[k0 y] l IHl]; simpl; [done|].
      case_decide; simpl; [done|]. rewrite decide_False by done. by f_equal.
    + rewrite (decide_False (P := k = x)) by done.
      destruct (decide (x ∈ ks)).
      * by rewrite (decide_True (P := x ∈ k :: ks)) by by right.
      * rewrite (decide_False (P := x ∈ k :: ks)); [done|].
        by intros [?|?]%elem_of_cons.
Qed.

Lemma lookup_remove_node G n x :
  has_node G n = true →
  adj (nx.remove_node G n) !! x
  = if decide (x = n) then None
    else (if decide (x ∈ odict.keys (nbrs G n)) then odict.del n else id)
           <$> adj G !! x.
Proof.
  intros [l Hl]%has_node_true. unfold nx.remove_node, nbrs. rewrite Hl. simpl.
  rewrite lookup_delete. case_decide; simplify_eq.
  - by rewrite decide_True.
  - rewrite decide_False by done. apply lookup_foldl_del.
Qed.

Lemma nbrs_add_node G n x : nbrs (nx.add_node G n) x = nbrs G x.
Proof.
  unfold nbrs at 1. rewrite lookup_add_node. case_decide; by subst.
Qed.

Lemma nbrs_add_edge G u v w x :
  nbrs (add_edge G u v w) x
  = (if decide (x = v) then odict.set u w else id)
      ((if decide (x = u) then odict.set v w else id) (nbrs G x)).
Proof.
  unfold nbrs at 1. rewrite lookup_add_edge.
  destruct (decide (x = u ∨ x = v)) as [|Hn]; [done|].
  rewrite !decide_False by tauto. done.
Qed.

Lemma nbrs_remove_edge G u v x :
  nbrs (remove_edge G u v) x
  = (if decide (x = v) then odict.del u else id)
      ((if decide (x = u) then odict.del v else id) (nbrs G x)).
Proof.
  unfold nbrs. rewrite lookup_remove_edge.
  destruct (adj G !! x); simpl; [done|]. by repeat case_decide.
Qed.

Lemma nbrs_remove_node G n x :
  has_node G n = true →
  nbrs (nx.remove_node G n) x
  = if decide (x = n) then []
    else (if decide (x ∈ odict.keys (nbrs G n)) then odict.del n else id) (nbrs G x).
Proof.
  intros Hn. unfold nbrs at 1. rewrite lookup_remove_node by done.
  case_decide; [done|].
  assert (nbrs G x = default [] (adj G !! x)) as -> by done.
  destruct (adj G !! x); simpl; by case_decide.
Qed.

Lemma has_node_add_node G n x :
  has_node (nx.add_node G n) x = true ↔ x = n ∨ has_node G x = true.
Proof.
  rewrite !has_node_true, lookup_add_node. case_decide; subst; naive_solver.
Qed.

Lemma has_node_add_edge G u v w x :
  has_node (add_edge G u v w) x = true ↔ x = u ∨ x = v ∨ has_node G x = true.
Proof.
  rewrite !has_node_true, lookup_add_edge. case_decide; naive_solver.
Qed.

Lemma has_node_remove_edge G u v x :
  has_node (remove_edge G u v) x = has_node G x.
Proof.
  apply eq_true_iff_eq.
  rewrite !has_node_true, lookup_remove_edge, !fmap_is_Some. done.
Qed.

Lemma has_node_remove_node G n x :
  has_node G n = true →
  has_node (nx.remove_node G n) x = true ↔ x ≠ n ∧ has_node G x = true.
Proof.
  intros Hn. rewrite !has_node_true, lookup_remove_node by done.
  case_decide; subst.
  - split; [by intros [? ?] | by intros [? _]].
  - rewrite fmap_is_Some. naive_solver.
Qed.

(** ** Well-formed graphs *)

Lemma wf_graph_NoDup G u : wf_graph G → NoDup (odict.keys (nbrs G u)).
Proof.
  intros Hwf. unfold nbrs. destruct (adj G !! u) as [l|] eqn:E; simpl.
  - by apply (Hwf u l E).
  - apply NoDup_nil_2.
Qed.

Lemma wf_graph_sym G u v w :
  wf_graph G → edge_weight G u v = Some w → edge_weight G v u = Some w.
Proof.
  intros Hwf H. unfold edge_weight in H.
  destruct (adj G !! u) as [l|] eqn:E; simpl in H; [|done].
  destruct (Hwf u l E) as [_ Hall].
  rewrite Forall_forall in Hall.
  by apply (Hall (v, w)), get_Some_elem.
Qed.

Lemma wf_graph_intro G :
  (∀ u, NoDup (odict.keys (nbrs G u))) →
  (∀ u v w, edge_weight G u v = Some w → edge_weight G v u = Some w) →
  wf_graph G.
Proof.
  intros Hnd Hsym u l E. pose proof (Hnd u) as Hu.
  unfold nbrs in Hu. rewrite E in Hu. simpl in Hu. split; [done|].
  apply Forall_forall. intros [v w] Hin. simpl. apply Hsym.
  unfold edge_weight. rewrite E. simpl. by apply elem_get.
Qed.

Lemma edge_weight_elem G u v w :
  wf_graph G → (v, w) ∈ nbrs G u → edge_weight G u v = Some w.
Proof.
  intros Hwf Hin. rewrite edge_weight_nbrs.
  apply elem_get; [by apply wf_graph_NoDup | done].
Qed.

Lemma edge_weight_add_node G n u v :
  edge_weight (nx.add_node G n) u v = edge_weight G u v.
Proof. by rewrite !edge_weight_nbrs, nbrs_add_node. Qed.

Lemma edge_weight_add_edge G u v w a b :
  edge_weight (add_edge G u v w) a b
  = if decide ((a = u ∧ b = v) ∨ (a = v ∧ b = u)) then Some w
    else edge_weight G a b.
Proof.
  rewrite !edge_weight_nbrs, nbrs_add_edge.
  destruct (decide (a = v)) as [Hv|Hv], (decide (a = u)) as [Hu|Hu]; subst;
    simpl; rewrite ?get_set; repeat case_decide;
    first [done | exfalso; intuition congruence].
Qed.

Lemma edge_weight_remove_edge G u v a b :
  edge_weight (remove_edge G u v) a b
  = if decide ((a = u ∧ b = v) ∨ (a = v ∧ b = u)) then None
    else edge_weight G a b.
Proof.
  rewrite !edge_weight_nbrs, nbrs_remove_edge.
  destruct (decide (a = v)) as [Hv|Hv], (decide (a = u)) as [Hu|Hu]; subst;
    simpl; rewrite ?get_del; repeat case_decide;
    first [done | exfalso; intuition congruence].
Qed.

Lemma edge_weight_remove_node G n a b :
  wf_graph G → has_node G n = true →
  edge_weight (nx.remove_node G n) a b
  = if decide (a = n ∨ b = n) then None else edge_weight G a b.
Proof.
  intros Hwf Hn. rewrite !edge_weight_nbrs, nbrs_remove_node by done.
  destruct (decide (a = n)) as [->|Ha].
  { by rewrite (decide_True (P := n = n ∨ b = n)) by by left. }
  destruct (decide (b = n)) as [->|Hb].
  - rewrite (decide_True (P := a = n ∨ n = n)) by by right.
    case_decide as Hin; simpl.
    + rewrite get_del. by rewrite decide_True.
    + destruct (odict.get n (nbrs G a)) as [w|] eqn:E; [|done].
      exfalso. apply Hin. apply get_is_Some_keys.
      rewrite <-edge_weight_nbrs. rewrite <-edge_weight_nbrs in E.
      eexists. by apply wf_graph_sym.
  - rewrite (decide_False (P := a = n ∨ b = n)) by tauto.
    case_decide; simpl; [|done]. rewrite get_del. by rewrite decide_False.
Qed.

Lemma wf_add_node G n : wf_graph G → wf_graph (nx.add_node G n).
Proof.
  intros Hwf. apply wf_graph_intro.
  - intros u. rewrite nbrs_add_node. by apply wf_graph_NoDup.
  - intros u v w. rewrite !edge_weight_add_node. by apply wf_graph_sym.
Qed.

Lemma wf_add_edge G u v w : wf_graph G → wf_graph (add_edge G u v w).
Proof.
  intros Hwf. apply wf_graph_intro.
  - intros x. rewrite nbrs_add_edge.
    pose proof (wf_graph_NoDup G x Hwf).
    repeat case_decide; simpl; auto using NoDup_keys_set.
  - intros a b w'. rewrite !edge_weight_add_edge.
    repeat case_decide; try done; try (exfalso; intuition congruence).
    by apply wf_graph_sym.
Qed.

Lemma wf_remove_edge G u v : wf_graph G → wf_graph (remove_edge G u v).
Proof.
  intros Hwf. apply wf_graph_intro.
  - intros x. rewrite nbrs_remove_edge.
    pose proof (wf_graph_NoDup G x Hwf).
    repeat case_decide; simpl; auto using NoDup_keys_del.
  - intros a b w'. rewrite !edge_weight_remove_edge.
    repeat case_decide; try done; try (exfalso; intuition congruence).
    by apply wf_graph_sym.
Qed.

Lemma wf_remove_node G n :
  wf_graph G → has_node G n = true → wf_graph (nx.remove_node G n).
Proof.
  intros Hwf Hn. apply wf_graph_intro.
  - intros x. rewrite nbrs_remove_node by done.
    pose proof (wf_graph_NoDup G x Hwf).
    repeat case_decide; simpl; auto using NoDup_keys_del, NoDup_nil_2.
  - intros a b w'. rewrite !edge_weight_remove_node by done.
    repeat case_decide; try done; try (exfalso; intuition congruence).
    by apply wf_graph_sym.
Qed.

Lemma wf_empty_graph : wf_graph empty_graph.
Proof. intros u l. simpl. by rewrite lookup_empty. Qed.

(** ** [list.sort(key=...)] and [paths[0]] *)

Section sort_facts.
Context {A : Type} (key : A → Z).

Lemma insert_by_not_nil x l : insert_by key x l ≠ [].
Proof. destruct l; simpl; [done|]. by case_match. Qed.

Lemma sort_by_nil l : sort_by key l = [] → l = [].
Proof.
  destruct l as [|x l]; [done|]. simpl. intros H.
  by apply insert_by_not_nil in H.
Qed.

(** The first element of the sorted list is an element of least key. *)
Lemma sort_by_head l p r :
  sort_by key l = p :: r → p ∈ l ∧ ∀ q, q ∈ l → key p ≤ key q.
Proof.
  revert p r. induction l as [|x l IH]; intros p r; simpl; [done|].
  destruct (sort_by key l) as [|y r'] eqn:E.
  - apply sort_by_nil in E as ->. simpl. intros [= <- <-].
    split; [left|]. intros q [->|[]%elem_of_nil]%elem_of_cons. lia.
  - destruct (IH y r' eq_refl) as [Hy Hmin]. simpl.
    destruct (key x <=? key y) eqn:Hle.
    + apply Z.leb_le in Hle. intros [= <- <-]. split; [left|].
      intros q [->|Hq]%elem_of_cons; [lia|]. specialize (Hmin q Hq). lia.
    + apply Z.leb_gt in Hle. intros [= <- <-]. split; [by right|].
      intros q [->|Hq]%elem_of_cons; [lia|]. by apply Hmin.
Qed.
End sort_facts.

(** ** The paths enumerated from the predecessor lists *)

Lemma for_each_collect {A B} (f : A → result (list B)) (tl : list B)
    (Q : A → B → Prop) (l : list A) (acc : list B) :
  (∀ x, x ∈ l → ∃ out, f x = Ok out ∧ ∀ p, p ∈ out ↔ Q x p) →
  ∃ out, for_each (λ acc x, sub ← f x; Ok (acc ++ sub ++ tl)) acc l = Ok out ∧
         ∀ p, p ∈ out ↔ p ∈ acc ∨ (∃ x, x ∈ l ∧ (Q x p ∨ p ∈ tl)).
Proof.
  revert acc. induction l as [|x l IH]; intros acc Hf; simpl.
  - exists acc. split; [done|]. intros p. split; [by left|].
    intros [?|(x & []%elem_of_nil & _)]; done.
  - destruct (Hf x) as (sub & Hsub & Hq); [left|]. rewrite Hsub. simpl.
    destruct (IH (acc ++ sub ++ tl)) as (out & Hout & Hp).
    { intros y Hy. apply Hf. by right. }
    exists out. split; [done|]. intros p. rewrite Hp.
    rewrite !elem_of_app, Hq. split.
    + intros [[?|[?|?]]|(y & Hy & HQ)]; eauto.
      * right. exists x. split; [left|]. by left.
      * right. exists x. split; [left|]. by right.
      * right. exists y. split; [by right|done].
    + intros [?|(y & [->|Hy]%elem_of_cons & HQ)]; [by left;left|..].
      * left. right. tauto.
      * right. by exists y.
Qed.

Lemma NoDup_length_le_size {V} (m : gmap string V) (l : list string) :
  NoDup l → (∀ x, x ∈ l → is_Some (m !! x)) → (length l ≤ size m)%nat.
Proof.
  intros Hnd Hin. rewrite <-(size_dom (D := gset string)).
  change (length l ≤ length (elements (dom m : gset string)))%nat.
  apply submseteq_length, NoDup_submseteq; [done|].
  intros x Hx. apply elem_of_elements, elem_of_dom. by apply Hin.
Qed.

Section build_facts.
Context (source : node) (pred : gmap string (list string)).

Lemma chain_last n q : chain source pred n q → last q = Some n.
Proof. destruct 1; [done|]. by rewrite last_snoc. Qed.

Lemma chain_head n q : chain source pred n q → head q = Some source.
Proof.
  induction 1 as [|n m q ps _ _ Hc IH]; [done|].
  destruct q; [done|]. simpl in *. done.
Qed.

Hypothesis pred_closed :
  ∀ n ps m, pred !! n = Some ps → m ∈ ps → is_Some (pred !! m).

(** With the fuel given by [build_paths_from_predecessors] the
    enumeration ends, and yields exactly the chains that avoid the nodes
    already on the stack. *)
Lemma build_from_spec fuel trail n :
  is_Some (pred !! n) →
  NoDup (n :: trail) →
  (∀ x, x ∈ trail → is_Some (pred !! x)) →
  (size pred ≤ length trail + fuel)%nat →
  ∃ out, build_from source pred fuel trail n = Ok out ∧
    ∀ p, p ∈ out ↔ ∃ q, chain source pred n q ∧ NoDup (q ++ trail) ∧ p = q ++ trail.
Proof.
  revert trail n. induction fuel as [|fuel IH]; intros trail n Hn Hnd Hin Hsz.
  { exfalso.
    assert (length (n :: trail) ≤ size pred)%nat.
    { apply NoDup_length_le_size; [done|].
      intros x [->|?]%elem_of_cons; auto. }
    simpl in *. lia. }
  destruct Hn as [ps Hps]. simpl. rewrite Hps.
  set (here := if decide (n = source) then [n :: trail] else []).
  destruct (for_each_collect
    (λ next, if decide (next ∈ n :: trail) then Ok []
             else build_from source pred fuel (n :: trail) next)
    here
    (λ m p, m ∉ n :: trail ∧
            ∃ q, chain source pred m q ∧ NoDup (q ++ n :: trail) ∧ p = q ++ n :: trail)
    ps []) as (rest & Hrest & Hp).
  { intros m Hm. case_decide as Hseen.
    - exists []. split; [done|]. intros p. split; [by intros ?%elem_of_nil|].
      by intros [? _].
    - destruct (IH (n :: trail) m) as (out & Hout & Hq).
      + by eapply pred_closed.
      + by apply NoDup_cons.
      + intros x [->|?]%elem_of_cons; eauto.
      + simpl. lia.
      + exists out. split; [done|]. intros p. rewrite Hq. tauto. }
  rewrite Hrest. simpl. exists (here ++ rest). split; [done|].
  intros p. rewrite elem_of_app, Hp. split.
  - assert (p ∈ here → ∃ q, chain source pred n q ∧ NoDup (q ++ trail) ∧ p = q ++ trail)
      as Hhere.
    { unfold here. case_decide as Hs; [|by intros ?%elem_of_nil].
      intros ->%list_elem_of_singleton. subst n.
      exists [source]. split; [constructor|done]. }
    intros [?|[[]%elem_of_nil|(m & Hm & [(Hseen & q & Hc & Hq & ->)|?])]]; auto.
    exists (q ++ [n]). rewrite <-!(assoc_L (++)). simpl.
    split; [|done]. by eapply chain_step.
  - intros (q & Hc & Hq & ->). destruct Hc as [|n m q ps' Hps' Hm Hc].
    + left. unfold here. rewrite decide_True by done. by left.
    + right. right. rewrite Hps in Hps'. simplify_eq.
      exists m. split; [done|]. left.
      rewrite <-(assoc_L (++)) in Hq. simpl in Hq. split.
      * apply chain_last in Hc. apply last_Some in Hc as [q' ->].
        rewrite <-(assoc_L (++)) in Hq. simpl in Hq.
        apply NoDup_app in Hq as (_ & _ & Hq).
        by apply NoDup_cons in Hq as [? _].
      * exists q. by rewrite <-(assoc_L (++)).
Qed.
End build_facts.

(** ** Dijkstra: the heap *)

Lemma heappop_None h : heappop h = None ↔ h = [].
Proof.
  destruct h as [|x h]; simpl; [done|].
  destruct (heappop h) as [[m r]|]; [|done]. by case_match.
Qed.

Lemma heappop_Some h m r :
  heappop h = Some (m, r) →
  (∀ x, x ∈ h ↔ x = m ∨ x ∈ r) ∧
  (∀ x, x ∈ h → m.1.1 ≤ x.1.1) ∧
  length h = S (length r).
Proof.
  revert m r. induction h as [|x h IH]; intros m r; simpl; [done|].
  destruct (heappop h) as [[m' r']|] eqn:E.
  - destruct (IH m' r' eq_refl) as (Hin & Hmin & Hlen).
    unfold entry_lt. intros Hr.
    destruct (_ || _) eqn:Hlt; simplify_eq.
    + split_and!.
      * intros y. rewrite !elem_of_cons, Hin. tauto.
      * intros y [->|Hy]%elem_of_cons; [|by apply Hmin]. lia.
      * simpl. by rewrite Hlen.
    + split_and!.
      * intros y. by rewrite !elem_of_cons.
      * intros y [->|Hy]%elem_of_cons; [lia|].
        specialize (Hmin y Hy). lia.
      * done.
  - apply heappop_None in E as ->. intros [= <- <-]. split_and!; [|..|done].
    + intros y. rewrite elem_of_cons. done.
    + intros y [->|[]%elem_of_nil]%elem_of_cons. lia.
Qed.

(** ** Dijkstra: what holds for any weights

    The dict accesses of the search never miss, the search ends within
    [dijkstra_fuel], and every recorded predecessor is a neighbour. *)

Section dijkstra_struct.
Context (G : Graph) (Hwf : wf_graph G).

Lemma nbrs_elem_adj v u w : (u, w) ∈ nbrs G v → is_Some (adj G !! u).
Proof.
  intros Hin. apply (edge_weight_elem _ _ _ _ Hwf), (wf_graph_sym _ _ _ _ Hwf) in Hin.
  by apply edge_weight_has_node, has_node_true in Hin.
Qed.

Lemma push_struct st v u w d :
  struct_inv G st → is_Some (pred st !! v) → (u, w) ∈ nbrs G v →
  struct_inv G (push u d v st).
Proof.
  intros [Hadj Hfr Hdi Hpr Hed] Hv Hin. split; simpl.
  - intros x. rewrite lookup_insert_is_Some.
    intros [<-|[_ ?]]; [by eapply nbrs_elem_adj | auto].
  - intros e [->|He]%elem_of_cons; simpl.
    + rewrite lookup_insert_eq. by eexists.
    + rewrite lookup_insert_is_Some'. auto.
  - intros x Hx. rewrite lookup_insert_is_Some'. auto.
  - intros x. rewrite !lookup_insert_is_Some'. intros [?|?]; auto.
  - intros u' ps v'. rewrite lookup_insert_Some.
    intros [[<- <-]|[Hne Hps]] Hv'.
    + apply list_elem_of_singleton in Hv' as ->.
      rewrite lookup_insert_is_Some'. split; [|by right].
      eexists. by apply edge_weight_elem.
    + rewrite lookup_insert_is_Some'.
      destruct (Hed u' ps v' Hps Hv'). auto.
Qed.

Lemma pred_append_struct st v u w :
  struct_inv G st → is_Some (pred st !! v) → (u, w) ∈ nbrs G v →
  is_Some (seen st !! u) →
  ∃ st', pred_append u v st = Ok st' ∧ struct_inv G st' ∧
         fringe st' = fringe st ∧ dist st' = dist st ∧
         seen st' = seen st ∧ is_Some (pred st' !! v).
Proof.
  intros [Hadj Hfr Hdi Hpr Hed] Hv Hin Hu. unfold pred_append.
  destruct (Hpr u Hu) as [ps Hps]. rewrite Hps. eexists. split; [done|].
  split_and!; simpl; [|done|done|done|by rewrite lookup_insert_is_Some'; right].
  split; simpl; auto.
  - intros x Hx. rewrite lookup_insert_is_Some'. auto.
  - intros u' ps' v'. rewrite lookup_insert_Some, lookup_insert_is_Some'.
    intros [[<- <-]|[Hne Hps']] Hv'.
    + apply elem_of_app in Hv' as [Hv' | ->%list_elem_of_singleton].
      * destruct (Hed u ps v' Hps Hv'). auto.
      * split; [|by right]. eexists. by apply edge_weight_elem.
    + destruct (Hed u' ps' v' Hps' Hv'). auto.
Qed.

Lemma relax_struct st v d u w :
  struct_inv G st → is_Some (pred st !! v) → (u, w) ∈ nbrs G v →
  no_key_error (relax v d st (u, w)) (λ st',
    struct_inv G st' ∧ is_Some (pred st' !! v) ∧ dist st' = dist st ∧
    (length (fringe st') ≤ S (length (fringe st)))%nat ∧
    (∀ x, is_Some (seen st !! x) → is_Some (seen st' !! x))).
Proof.
  intros Hs Hv Hin. unfold relax. simpl.
  assert (is_Some (seen st !! u) →
          no_key_error (pred_append u v st) (λ st',
            struct_inv G st' ∧ is_Some (pred st' !! v) ∧ dist st' = dist st ∧
            (length (fringe st') ≤ S (length (fringe st)))%nat ∧
            (∀ x, is_Some (seen st !! x) → is_Some (seen st' !! x)))) as Happ.
  { intros Hu.
    destruct (pred_append_struct st v u w) as (st' & -> & ? & Hf & ? & Hsn & ?);
      auto. simpl. rewrite Hf, Hsn. split_and!; auto. }
  assert (no_key_error (Ok (push u (d + w) v st)) (λ st',
            struct_inv G st' ∧ is_Some (pred st' !! v) ∧ dist st' = dist st ∧
            (length (fringe st') ≤ S (length (fringe st)))%nat ∧
            (∀ x, is_Some (seen st !! x) → is_Some (seen st' !! x)))) as Hpush.
  { simpl. split_and!; [by eapply push_struct| |done|done|].
    - rewrite lookup_insert_is_Some'. by right.
    - intros x Hx. rewrite lookup_insert_is_Some'. by right. }
  destruct (dist st !! u) as [du|] eqn:Hdu.
  - destruct (_ <? _); [done|]. destruct (_ =? _).
    + apply Happ, (si_dist _ _ Hs). by eexists.
    + simpl. split_and!; auto.
  - destruct (seen st !! u) as [su|] eqn:Hsu; [|done].
    destruct (_ <? _); [done|]. destruct (_ =? _).
    + apply Happ. by eexists.
    + simpl. split_and!; auto.
Qed.

Lemma scan_struct v d l st :
  struct_inv G st → is_Some (pred st !! v) → (∀ e, e ∈ l → e ∈ nbrs G v) →
  no_key_error (for_each (relax v d) st l) (λ st',
    struct_inv G st' ∧ dist st' = dist st ∧
    (length (fringe st') ≤ length l + length (fringe st))%nat ∧
    (∀ x, is_Some (seen st !! x) → is_Some (seen st' !! x))).
Proof.
  intros Hs Hv Hl.
  eapply post_mono.
  - apply (post_for_each _ _ (λ done st',
      struct_inv G st' ∧ is_Some (pred st' !! v) ∧ dist st' = dist st ∧
      (length (fringe st') ≤ length done + length (fringe st))%nat ∧
      (∀ x, is_Some (seen st !! x) → is_Some (seen st' !! x)))).
    + intros done [u w] rest st1 -> (Hs1 & Hv1 & Hd1 & Hlen1 & Hseen1).
      eapply post_mono.
      * apply relax_struct; [done..|]. apply Hl.
        rewrite elem_of_app. right. left.
      * simpl. intros st2 (? & ? & ? & ? & ?).
        rewrite length_app. simpl. split_and!; [done..|congruence|lia|auto].
    + simpl. split_and!; auto.
  - simpl. tauto.
Qed.

Lemma degree_sum_delete (U : gmap string (list (string * Z))) v l :
  U !! v = Some l → degree_sum U = (length l + degree_sum (delete v U))%nat.
Proof.
  intros Hv. unfold degree_sum.
  apply (map_fold_delete_L (λ _ (nbrs : list (string * Z)) acc,
                              (length nbrs + acc)%nat)); [|done].
  intros. lia.
Qed.

(** [U] is the adjacency of the nodes that are not finalised yet. *)
Lemma dijkstra_loop_struct fuel st (U : gmap string (list (string * Z))) :
  struct_inv G st →
  (∀ x, dist st !! x = None → U !! x = adj G !! x) →
  (length (fringe st) + degree_sum U ≤ fuel)%nat →
  no_key_error (dijkstra_loop fuel G st) (λ st',
    struct_inv G st' ∧ fringe st' = [] ∧
    (∀ x, is_Some (seen st !! x) → is_Some (seen st' !! x))).
Proof.
  revert st U. induction fuel as [|fuel IH]; intros st U Hs HU Hfuel.
  - simpl. destruct (heappop (fringe st)) as [[[[d c] v] h]|] eqn:Hpop.
    + apply heappop_Some in Hpop as (_ & _ & Hlen). simpl. lia.
    + apply heappop_None in Hpop. done.
  - simpl. destruct (heappop (fringe st)) as [[[[d c] v] h]|] eqn:Hpop;
      [|by apply heappop_None in Hpop].
    apply heappop_Some in Hpop as (Hin & _ & Hlen).
    assert (is_Some (seen st !! v)) as Hv.
    { apply (si_fringe _ _ Hs (d, c, v)), Hin. by left. }
    assert (struct_inv G (mkDS (dist st) (seen st) h (count st) (pred st))) as Hs1.
    { destruct Hs; split; simpl; auto. intros e He. apply si_fringe0, Hin. by right. }
    destruct (dist st !! v) as [dv|] eqn:Hdv.
    + eapply post_mono; [apply (IH _ U); simpl; [done|done|lia]|].
      simpl. tauto.
    + destruct (si_adj _ _ Hs v Hv) as [l Hl]. rewrite Hl.
      set (st1 := mkDS (<[v:=d]> (dist st)) (seen st) h (count st) (pred st)).
      assert (struct_inv G st1) as Hs2.
      { destruct Hs1; split; simpl in *; auto.
        intros x [<-|?]%lookup_insert_is_Some'; auto. }
      eapply post_bind.
      { apply (scan_struct v d l st1 Hs2); [by apply (si_pred _ _ Hs)|].
        intros e He. unfold nbrs. by rewrite Hl. }
      simpl. intros st2 (Hs3 & Hd3 & Hlen3 & Hseen3).
      eapply post_mono; [apply (IH _ (delete v U)); [done|..]|].
      * intros x. rewrite Hd3. intros [? ?]%lookup_insert_None.
        rewrite lookup_delete_ne by done. auto.
      * rewrite (degree_sum_delete U v l) in Hfuel by (rewrite HU; done).
        lia.
      * simpl. intros st3 (? & ? & ?). auto.
Qed.

Lemma dijkstra_init_struct s :
  has_node G s = true → struct_inv G (dijkstra_init s).
Proof.
  intros Hs%has_node_true. split; simpl.
  - intros x [y [<- _]%lookup_singleton_Some]. done.
  - intros e ->%list_elem_of_singleton. simpl. rewrite lookup_singleton_eq. by eexists.
  - intros x [y Hy]. by rewrite lookup_empty in Hy.
  - intros x [y [<- _]%lookup_singleton_Some]. rewrite lookup_singleton_eq. by eexists.
  - intros u ps v [<- <-]%lookup_singleton_Some []%elem_of_nil.
Qed.

(** The search from an existing node ends, and can only raise the
    [ValueError] of the negative-weight check. *)
Lemma dijkstra_struct s :
  has_node G s = true →
  no_key_error (dijkstra_loop (dijkstra_fuel G) G (dijkstra_init s)) (λ st',
    struct_inv G st' ∧ fringe st' = [] ∧ is_Some (pred st' !! s)).
Proof.
  intros Hs. eapply post_mono.
  - apply (dijkstra_loop_struct _ _ (adj G) (dijkstra_init_struct s Hs)); [done|].
    simpl. unfold dijkstra_fuel. lia.
  - simpl. intros st' (Hs' & ? & Hseen). split_and!; [done..|].
    apply (si_pred _ _ Hs'), Hseen. rewrite lookup_singleton_eq. by eexists.
Qed.
End dijkstra_struct.

(** ** Hops of a path *)

Lemma hops_cons a b p : hops (a :: b :: p) = (a, b) :: hops (b :: p).
Proof. done. Qed.

Lemma hops_snoc q x n : last q = Some x → hops (q ++ [n]) = hops q ++ [(x, n)].
Proof.
  induction q as [|a q IH]; [done|]. destruct q as [|b q].
  - intros [= ->]. done.
  - intros Hl. change (last (b :: q) = Some x) in Hl.
    change (hops ((a :: b :: q) ++ [n])) with ((a, b) :: hops ((b :: q) ++ [n])).
    rewrite IH by done. done.
Qed.

Lemma hops_elem a b p : (a, b) ∈ hops p → a ∈ p ∧ b ∈ p.
Proof.
  induction p as [|x p IH]; [by intros ?%elem_of_nil|].
  destruct p as [|y p]; [by intros ?%elem_of_nil|].
  rewrite hops_cons. intros [[= -> ->]|Hin]%elem_of_cons.
  - split; [left | right; left].
  - destruct (IH Hin). split; by right.
Qed.

(** On a path without repeated node no hop is taken twice, in either
    direction, and no hop is a self-loop. *)
Lemma hops_NoDup p :
  NoDup p →
  NoDup (hops p) ∧ ∀ a b, (a, b) ∈ hops p → (b, a) ∉ hops p ∧ a ≠ b.
Proof.
  induction p as [|x p IH]; intros Hnd.
  { split; [constructor|]. intros a b Hin. by apply elem_of_nil in Hin. }
  apply NoDup_cons in Hnd as [Hx Hnd]. destruct (IH Hnd) as [IH1 IH2]. clear IH.
  destruct p as [|y p].
  { split; [constructor|]. intros a b Hin. by apply elem_of_nil in Hin. }
  rewrite hops_cons. split.
  - apply NoDup_cons. split; [|done].
    intros Hin. by apply hops_elem in Hin as [Hin _].
  - intros a b Hin. apply elem_of_cons in Hin as [Heq|Hin].
    + injection Heq as -> ->. split.
      * intros Hin. apply elem_of_cons in Hin as [Heq|Hin].
        -- injection Heq as -> _. apply Hx. left.
        -- by apply hops_elem in Hin as [_ Hin].
      * intros ->. apply Hx. left.
    + destruct (IH2 a b Hin) as [Hn Hne]. split; [|done].
      intros Hin'. apply elem_of_cons in Hin' as [Heq|Hin']; [|done].
      injection Heq as -> ->. by apply hops_elem in Hin as [_ Hin].
Qed.

(** ** The ledger updates of a path *)

Lemma hits_nonneg l k : 0 ≤ hits l k.
Proof. induction l as [|e l IH]; simpl; [lia|]. repeat case_decide; lia. Qed.

Lemma hits_zero l a b : (a, b) ∉ l → (b, a) ∉ l → hits l (a, b) = 0.
Proof.
  induction l as [|[x y] l IH]; [done|].
  intros [? ?]%not_elem_of_cons [? ?]%not_elem_of_cons. simpl.
  rewrite IH by done. repeat case_decide; simplify_eq; done.
Qed.

Lemma hits_once l a b :
  NoDup l → (∀ a b, (a, b) ∈ l → (b, a) ∉ l ∧ a ≠ b) → (a, b) ∈ l →
  hits l (a, b) = 1 ∧ hits l (b, a) = 1.
Proof.
  induction l as [|[x y] l IH]; [by intros _ _ ?%elem_of_nil|].
  intros [Hxy Hl]%NoDup_cons H2 Hin.
  destruct (H2 a b Hin) as [Hba Hne]. simpl.
  apply elem_of_cons in Hin as [Heq|Hin].
  - injection Heq as <- <-.
    rewrite !hits_zero; [| |done|done|].
    + repeat case_decide; simplify_eq; lia.
    + intros ?. apply Hba. by right.
    + intros ?. apply Hba. by right.
  - destruct IH as [-> ->]; [done| |done|].
    { intros a' b' Hin'. destruct (H2 a' b') as [Hn ?]; [by right|].
      split; [|done]. intros ?. apply Hn. by right. }
    assert ((a, b) ≠ (x, y)) by (intros [= -> ->]; done).
    assert ((b, a) ≠ (x, y)).
    { intros [= -> ->]. apply Hba. left. }
    assert ((a, b) ≠ (y, x)).
    { intros [= -> ->]. destruct (H2 x y) as [Hn _]; [left|]. apply Hn. by right. }
    assert ((b, a) ≠ (y, x)) by (intros [= -> ->]; done).
    repeat case_decide; simplify_eq; lia.
Qed.

Lemma uses_NoDup p a b :
  NoDup p → (a, b) ∈ hops p → uses p (a, b) = 1 ∧ uses p (b, a) = 1.
Proof.
  intros Hnd Hin. destruct (hops_NoDup p Hnd) as [H1 H2].
  by apply hits_once.
Qed.

Lemma incr_lookup delta L k L' k' :
  incr delta L k = Ok L' →
  L' !! k' = (λ x, x + (if decide (k' = k) then delta else 0)) <$> L !! k'.
Proof.
  unfold incr. destruct (L !! k) as [x|] eqn:E; [|done]. intros [= <-].
  rewrite lookup_insert. case_decide; subst.
  - rewrite decide_True by done. by rewrite E.
  - rewrite decide_False by done. destruct (L !! k'); simpl; f_equal; lia.
Qed.

Lemma reserve_lookup bw L p L' k :
  reserve bw L p = Ok L' → L' !! k = (λ x, x + bw * uses p k) <$> L !! k.
Proof.
  unfold reserve, uses, hits. revert L.
  induction (hops p) as [|e l IH]; intros L; simpl.
  - intros [= <-]. destruct (L !! k); simpl; f_equal; lia.
  - intros (L2 & Hhop & Hrest)%bind_Ok.
    unfold reserve_hop in Hhop. apply bind_Ok in Hhop as (L1 & H1 & H2).
    rewrite (IH _ Hrest), (incr_lookup _ _ _ _ k H2), (incr_lookup _ _ _ _ k H1).
    destruct (L !! k) as [x|]; simpl; [|done]. f_equal.
    repeat case_decide; lia.
Qed.

Lemma decr_lookup delta L k k' :
  decr_if_present delta L k !! k'
  = (λ x, x - (if decide (k' = k) then delta else 0)) <$> L !! k'.
Proof.
  unfold decr_if_present. destruct (L !! k) as [x|] eqn:E.
  - rewrite lookup_insert. case_decide; subst.
    + rewrite decide_True by done. by rewrite E.
    + rewrite decide_False by done. destruct (L !! k'); simpl; f_equal; lia.
  - case_decide; subst; [by rewrite E|].
    destruct (L !! k'); simpl; f_equal; lia.
Qed.

(** The release subtracts the bandwidth once per update that hits an
    existing entry; a missing entry stays missing. *)
Lemma release_lookup bw L p k :
  release bw L p !! k = (λ x, x - bw * uses p k) <$> L !! k.
Proof.
  unfold release, uses, hits. revert L.
  induction (hops p) as [|e l IH]; intros L; simpl.
  - destruct (L !! k); simpl; f_equal; lia.
  - rewrite IH. unfold release_hop. rewrite !decr_lookup.
    destruct (L !! k) as [x|]; simpl; [|done]. f_equal.
    repeat case_decide; lia.
Qed.

Lemma incr_total delta L k :
  is_Some (L !! k) →
  ∃ L', incr delta L k = Ok L' ∧ ∀ k', is_Some (L' !! k') ↔ is_Some (L !! k').
Proof.
  intros [x Hx]. unfold incr. rewrite Hx. eexists. split; [done|].
  intros k'. rewrite lookup_insert_is_Some'. split; [|by right].
  intros [<-|?]; [by eexists | done].
Qed.

(** The reservation succeeds when every hop has both entries. *)
Lemma reserve_total bw L p :
  (∀ a b, (a, b) ∈ hops p → is_Some (L !! (a, b)) ∧ is_Some (L !! (b, a))) →
  ∃ L', reserve bw L p = Ok L'.
Proof.
  unfold reserve. revert L.
  induction (hops p) as [|[a b] l IH]; intros L HL; [by eexists|].
  destruct (HL a b) as [Hx Hy]; [left|].
  destruct (incr_total bw L (a, b) Hx) as (L1 & H1 & Hd1).
  destruct (incr_total bw L1 (b, a)) as (L2 & H2 & Hd2); [by apply Hd1|].
  cbn [for_each]. unfold reserve_hop. cbn [fst snd]. rewrite H1. simpl.
  rewrite H2. simpl. apply IH. intros a' b' Hin.
  rewrite !Hd2, !Hd1. apply HL. by right.
Qed.

(** ** What [compute_path] returns, for any weights *)

#[local] Arguments dijkstra_fuel : simpl never.
#[local] Arguments dijkstra_init : simpl never.

Section chain_facts.
Context (source : node) (pred : gmap string (list string)).

Lemma chain_hops n q a b :
  chain source pred n q → (a, b) ∈ hops q →
  ∃ ps, pred !! b = Some ps ∧ a ∈ ps.
Proof.
  induction 1 as [|n m q ps Hps Hm Hc IH]; [by intros ?%elem_of_nil|].
  rewrite (hops_snoc q m n) by by eapply chain_last.
  intros [Hin|Hin%list_elem_of_singleton]%elem_of_app; [auto|].
  injection Hin as -> ->. eauto.
Qed.

(** Soundness of the enumeration alone: whatever the predecessor lists,
    a path that is yielded is a chain and repeats no node. *)
Lemma build_from_sound fuel trail n :
  NoDup (n :: trail) →
  post (λ _, True) True (build_from source pred fuel trail n) (λ out,
    ∀ p, p ∈ out →
      ∃ q, chain source pred n q ∧ NoDup (q ++ trail) ∧ p = q ++ trail).
Proof.
  revert trail n. induction fuel as [|fuel IH]; intros trail n Hnd; [done|].
  simpl. destruct (pred !! n) as [ps|] eqn:Hps; [|done].
  set (here := if decide (n = source) then [n :: trail] else []).
  set (P := λ p : list node,
         ∃ q, chain source pred n q ∧ NoDup (q ++ trail) ∧ p = q ++ trail).
  assert (∀ p, p ∈ here → P p) as Hhere.
  { unfold here. intros p. case_decide as Hs; [|by intros ?%elem_of_nil].
    intros ->%list_elem_of_singleton. subst n.
    exists [source]. split; [constructor|done]. }
  eapply post_bind.
  - apply (post_for_each _ _ (λ done acc, ∀ p, p ∈ acc → P p)).
    + intros done m rest acc Hl Hacc.
      eapply post_bind with (Q := λ sub, ∀ p, p ∈ sub → P p).
      * case_decide as Hseen; [by intros p ?%elem_of_nil|].
        eapply post_mono; [apply IH; by apply NoDup_cons|].
        simpl. intros out Hout p (q & Hc & Hq & ->)%Hout.
        exists (q ++ [n]). rewrite <-!(assoc_L (++)). split; [|done].
        eapply chain_step; [done| |done]. rewrite Hl.
        rewrite elem_of_app. right. left.
      * simpl. intros sub Hsub p. rewrite !elem_of_app. naive_solver.
    + by intros p ?%elem_of_nil.
  - simpl. intros rest Hrest p. rewrite elem_of_app. naive_solver.
Qed.
End chain_facts.

(** [paths[0]] after the sort: [None] for no path, else a path of least
    utilization; the index is never out of range. *)
Lemma paths_sort_head L (paths : list (list node)) :
  (paths = [] ∧
   match paths with
   | [] => Ok None
   | _ :: _ =>
       match sort_by (utilization L) paths with
       | p :: _ => Ok (Some p)
       | [] => Raise IndexError
       end
   end = Ok None) ∨
  (∃ p,
     match paths with
     | [] => Ok None
     | _ :: _ =>
         match sort_by (utilization L) paths with
         | p :: _ => Ok (Some p)
         | [] => Raise IndexError
         end
     end = Ok (Some p) ∧
     p ∈ paths ∧ ∀ q, q ∈ paths → utilization L p ≤ utilization L q).
Proof.
  destruct paths as [|x paths]; [by left|]. right.
  destruct (sort_by (utilization L) (x :: paths)) as [|p r] eqn:Hsort.
  - by apply sort_by_nil in Hsort.
  - exists p. split; [done|]. by apply sort_by_head in Hsort.
Qed.

(** The ingredients of a path returned by [compute_path]. *)
Lemma compute_path_Some G L s d ty p :
  compute_path G L s d ty = Ok (Some p) →
  has_node G s = true ∧ has_node G d = true ∧
  ∃ st paths,
    dijkstra_loop (dijkstra_fuel G) G (dijkstra_init s) = Ok st ∧
    is_Some (pred st !! d) ∧
    build_from s (pred st) (size (pred st)) [] d = Ok paths ∧
    p ∈ paths ∧
    ∀ q, q ∈ paths → utilization L p ≤ utilization L q.
Proof.
  unfold compute_path.
  destruct (has_node G s) eqn:Hs; [|done].
  destruct (has_node G d) eqn:Hd; [|done]. simpl.
  unfold all_shortest_paths, dijkstra_predecessor_and_distance. rewrite Hs.
  destruct (dijkstra_loop _ _ _) as [st| |] eqn:Hst; simpl; [|by destruct e|done].
  unfold build_paths_from_predecessors.
  destruct (pred st !! d) as [ps|] eqn:Hps; [|done].
  destruct (build_from _ _ _ _ _) as [paths|e|] eqn:Hb; [|by destruct e|done].
  destruct (paths_sort_head L paths) as [[_ ->]|(p' & -> & ? & ?)]; [done|].
  intros [= ->].
  split_and!; [done..|]. exists st, paths. split_and!; eauto.
Qed.

Lemma compute_path_NoDup G L s d ty p :
  compute_path G L s d ty = Ok (Some p) →
  NoDup p ∧ head p = Some s ∧ last p = Some d.
Proof.
  intros (Hs & Hd & st & paths & Hst & Hpd & Hb & Hp & _)%compute_path_Some.
  pose proof (build_from_sound s (pred st) (size (pred st)) [] d) as Hsound.
  rewrite Hb in Hsound. simpl in Hsound.
  destruct (Hsound (NoDup_singleton d) p Hp) as (q & Hc & Hq & ->).
  rewrite app_nil_r in *.
  split_and!; [done|by eapply chain_head|by eapply chain_last].
Qed.

(** On a well-formed graph the call can only raise [ValueError], and the
    hops of the returned path are links of the graph. *)
Lemma compute_path_struct G L s d ty :
  wf_graph G →
  post (λ e, e = ValueError) False (compute_path G L s d ty) (λ op,
    ∀ p, op = Some p →
      NoDup p ∧ head p = Some s ∧ last p = Some d ∧
      ∀ a b, (a, b) ∈ hops p → is_Some (edge_weight G a b)).
Proof.
  intros Hwf.
  destruct (compute_path G L s d ty) as [[p|]|e|] eqn:Hcp; simpl.
  - intros ? [= <-].
    destruct (compute_path_NoDup _ _ _ _ _ _ Hcp) as (? & ? & ?).
    split_and!; [done..|].
    apply compute_path_Some in Hcp
      as (Hs & Hd & st & paths & Hst & Hpd & Hb & Hp & _).
    pose proof (dijkstra_struct G Hwf s Hs) as Hds. rewrite Hst in Hds.
    destruct Hds as (Hsi & _ & _).
    pose proof (build_from_sound s (pred st) (size (pred st)) [] d) as Hsound.
    rewrite Hb in Hsound.
    destruct (Hsound (NoDup_singleton d) p Hp) as (q & Hc & Hq & ->).
    rewrite app_nil_r. intros a b Hab.
    destruct (chain_hops _ _ _ _ _ _ Hc Hab) as (ps & Hps & Ha).
    by destruct (si_edges _ _ Hsi b ps a Hps Ha).
  - done.
  - revert Hcp. unfold compute_path.
    destruct (has_node G s) eqn:Hs; [|done].
    destruct (has_node G d) eqn:Hd; [|done]. simpl.
    unfold all_shortest_paths, dijkstra_predecessor_and_distance. rewrite Hs.
    pose proof (dijkstra_struct G Hwf s Hs) as Hds.
    destruct (dijkstra_loop _ _ _) as [st|e'|]; simpl in *; [|by subst; intros [= <-]|done].
    destruct Hds as (Hsi & _ & _).
    unfold build_paths_from_predecessors.
    destruct (pred st !! d) as [ps|] eqn:Hps; [|done].
    destruct (build_from_spec s (pred st)) with (fuel := size (pred st))
      (trail := @nil string) (n := d) as (out & -> & _).
    + intros n ps' m Hn Hm. by destruct (si_edges _ _ Hsi n ps' m Hn Hm).
    + by eexists.
    + apply NoDup_singleton.
    + by intros x ?%elem_of_nil.
    + simpl. lia.
    + by destruct (paths_sort_head L out) as [[_ ->]|(p' & -> & _)].
  - revert Hcp. unfold compute_path.
    destruct (has_node G s) eqn:Hs; [|done].
    destruct (has_node G d) eqn:Hd; [|done]. simpl.
    unfold all_shortest_paths, dijkstra_predecessor_and_distance. rewrite Hs.
    pose proof (dijkstra_struct G Hwf s Hs) as Hds.
    destruct (dijkstra_loop _ _ _) as [st|e'|]; simpl in *; [|by subst|done].
    destruct Hds as (Hsi & _ & _).
    unfold build_paths_from_predecessors.
    destruct (pred st !! d) as [ps|] eqn:Hps; [|done].
    destruct (build_from_spec s (pred st)) with (fuel := size (pred st))
      (trail := @nil string) (n := d) as (out & -> & _).
    + intros n ps' m Hn Hm. by destruct (si_edges _ _ Hsi n ps' m Hn Hm).
    + by eexists.
    + apply NoDup_singleton.
    + by intros x ?%elem_of_nil.
    + simpl. lia.
    + by destruct (paths_sort_head L out) as [[_ ->]|(p' & -> & _)].
Qed.

(** ** Invariants of the controller *)

Lemma flows_simple_snoc fl f :
  flows_simple fl → NoDup (flow_path f) → flows_simple (fl ++ [f]).
Proof.
  intros Hfl Hf f' [? | ->%list_elem_of_singleton]%elem_of_app; auto.
Qed.

Lemma ledger_covers_dom G L L' :
  (∀ k, is_Some (L' !! k) ↔ is_Some (L !! k)) →
  ledger_covers G L → ledger_covers G L'.
Proof. intros Hdom Hc u v Huv. apply Hdom. by apply Hc. Qed.

Lemma reserve_dom bw L p L' k :
  reserve bw L p = Ok L' → is_Some (L' !! k) ↔ is_Some (L !! k).
Proof. intros H. by rewrite (reserve_lookup _ _ _ _ k H), fmap_is_Some. Qed.

Lemma release_dom bw L p k :
  is_Some (release bw L p !! k) ↔ is_Some (L !! k).
Proof. by rewrite release_lookup, fmap_is_Some. Qed.

(** Reserving along a path returned by [compute_path] never misses a key. *)
Lemma reserve_computed_path G L bw p :
  wf_graph G → ledger_covers G L →
  (∀ a b, (a, b) ∈ hops p → is_Some (edge_weight G a b)) →
  ∃ L', reserve bw L p = Ok L'.
Proof.
  intros Hwf Hc Hp. apply reserve_total. intros a b Hab.
  destruct (Hp a b Hab) as [w Hw].
  split; apply Hc; [by eexists|]. eexists. by apply wf_graph_sym.
Qed.

Lemma inject_post s d ty bw c :
  ctrl_inv c →
  no_key_error (inject_traffic_flow s d ty bw c) (λ rc, ctrl_inv rc.2).
Proof.
  intros [Hwf Hc Hfl]. unfold inject_traffic_flow.
  destruct (_ || _); [done|].
  eapply post_bind; [by apply compute_path_struct|].
  simpl. intros [[|a p]|] Hp; [done| |done].
  destruct (Hp (a :: p) eq_refl) as (Hnd & _ & _ & Hhops).
  destruct (reserve_computed_path _ _ bw (a :: p) Hwf Hc Hhops)
    as [L' HL'].
  rewrite HL'. simpl. split; simpl; [done| |by apply flows_simple_snoc].
  eapply ledger_covers_dom; [|done]. intros k. by eapply reserve_dom.
Qed.

Lemma reroute_flow_post u v G st flow :
  wf_graph G → ledger_covers G st.2 →
  flows_simple st.1 → NoDup (flow_path flow) →
  no_key_error (reroute_flow u v G st flow) (λ st',
    (∀ k, is_Some (st'.2 !! k) ↔ is_Some (st.2 !! k)) ∧ flows_simple st'.1).
Proof.
  intros Hwf Hc Hfl Hnd. unfold reroute_flow.
  destruct (_ && _); [|by split; [|apply flows_simple_snoc]].
  assert (ledger_covers G (release (bandwidth flow) st.2 (flow_path flow))) as Hc'.
  { eapply ledger_covers_dom; [|done]. intros k. apply release_dom. }
  eapply post_bind; [by apply compute_path_struct|].
  simpl. intros [[|a p]|] Hp; simpl;
    [split; [apply release_dom|by apply flows_simple_snoc]|
    |split; [apply release_dom|by apply flows_simple_snoc]].
  destruct (Hp (a :: p) eq_refl) as (Hnd' & _ & _ & Hhops).
  destruct (reserve_computed_path _ _ (bandwidth flow) (a :: p) Hwf Hc' Hhops)
    as [L' HL'].
  rewrite HL'. simpl. split; [|by apply flows_simple_snoc].
  intros k. by rewrite (reserve_dom _ _ _ _ k HL'), release_dom.
Qed.

Lemma remove_link_inv u v c : ctrl_inv c → ctrl_inv (remove_link u v c).2.
Proof.
  intros [Hwf Hc Hfl]. unfold remove_link.
  destruct (has_edge _ _ _); simpl; [|done].
  split; simpl; [by apply wf_remove_edge| |done].
  intros a b. rewrite edge_weight_remove_edge.
  case_decide as Hab; [by intros [? ?]|]. intros Hw.
  rewrite !lookup_delete_ne by (intros [= -> ->]; tauto). by apply Hc.
Qed.

Lemma failure_post u v c :
  ctrl_inv c →
  no_key_error (simulate_link_failure u v c) (λ rc, ctrl_inv rc.2).
Proof.
  intros Hi. unfold simulate_link_failure.
  destruct (negb _) eqn:He; [done|].
  destruct (remove_link_inv u v c Hi) as [Hwf1 Hc1 Hfl1].
  set (c1 := (remove_link u v c).2) in *.
  eapply post_bind.
  - apply (post_for_each _ _ (λ _ st,
      (∀ k, is_Some (st.2 !! k) ↔ is_Some (link_utilization c1 !! k)) ∧
      flows_simple st.1)).
    + intros done f rest st Hfl [Hst Hsimple].
      eapply post_mono.
      * apply reroute_flow_post; [done|by eapply ledger_covers_dom|done|].
        apply Hfl1. rewrite Hfl, elem_of_app. right. left.
      * simpl. intros st' [Hst' ?]. split; [|done].
        intros k. by rewrite Hst', Hst.
    + split; [done|]. by intros f ?%elem_of_nil.
  - simpl. intros st [Hst ?]. split; simpl; [done| |done].
    by eapply ledger_covers_dom.
Qed.

Lemma exec_post cmd c :
  ctrl_inv c → no_key_error (exec cmd c) (λ rc, ctrl_inv rc.2).
Proof.
  intros Hi. destruct cmd as [n|n|u v w|u v|s d ty bw|u v|s d]; simpl.
  - destruct Hi as [Hwf Hc Hfl]. unfold add_node.
    destruct (has_node _ _); [done|]. split; simpl; [by apply wf_add_node| |done].
    intros a b. rewrite edge_weight_add_node. apply Hc.
  - destruct Hi as [Hwf Hc Hfl]. unfold remove_node.
    destruct (has_node _ _) eqn:Hn; [|done]. simpl.
    split; simpl; [by apply wf_remove_node| |done].
    intros a b. rewrite edge_weight_remove_node by done.
    case_decide; [by intros [? ?]|]. apply Hc.
  - destruct Hi as [Hwf Hc Hfl]. unfold add_link.
    destruct (_ || _); [done|]. split; simpl; [by apply wf_add_edge| |done].
    intros a b. rewrite edge_weight_add_edge, !lookup_insert_is_Some'.
    case_decide as Hab.
    + intros _. destruct Hab as [[-> ->]|[-> ->]]; auto.
    + intros Hw. right. right. by apply Hc.
  - by apply remove_link_inv.
  - by apply inject_post.
  - by apply failure_post.
  - unfold query_routing. destruct (_ || _); [done|].
    eapply post_bind; [apply compute_path_struct, Hi|]. done.
Qed.

Lemma init_inv : ctrl_inv init.
Proof.
  split; [apply wf_empty_graph| |by intros f ?%elem_of_nil].
  intros u v [w Hw].
  unfold edge_weight in Hw. simpl in Hw. by rewrite lookup_empty in Hw.
Qed.

(** A session can only end on the [ValueError] of the shortest-path
    search; the states it goes through satisfy the invariants. *)
Lemma run_post cmds c :
  ctrl_inv c → no_key_error (run cmds c) ctrl_inv.
Proof.
  intros Hi. unfold run.
  apply (post_for_each _ _ (λ _ c, ctrl_inv c)); [|done].
  intros done cmd rest c' _ Hc'.
  eapply post_bind; [by apply exec_post|]. done.
Qed.

Lemma reachable_inv c : reachable c → ctrl_inv c.
Proof.
  intros [cmds Hc]. pose proof (run_post cmds init init_inv) as H.
  unfold session in Hc. by rewrite Hc in H.
Qed.

(** A reservation that succeeds found both entries of every hop. *)
Lemma reserve_Ok_keys bw L p L' a b :
  reserve bw L p = Ok L' → (a, b) ∈ hops p →
  is_Some (L !! (a, b)) ∧ is_Some (L !! (b, a)).
Proof.
  unfold reserve. revert L.
  induction (hops p) as [|e l IH]; intros L Hres Hin.
  { by apply elem_of_nil in Hin. }
  cbn [for_each] in Hres. apply bind_Ok in Hres as (L2 & Hhop & Hrest).
  unfold reserve_hop in Hhop. apply bind_Ok in Hhop as (L1 & Hi1 & Hi2).
  apply elem_of_cons in Hin as [Heq|Hin].
  - subst e. cbn [fst snd] in *. split.
    + unfold incr in Hi1.
      destruct (L !! (a, b)) eqn:E1; [by eexists | done].
    + pose proof (incr_lookup _ _ _ _ (b, a) Hi1) as E.
      unfold incr in Hi2.
      destruct (L1 !! (b, a)) eqn:E2; [|done].
      rewrite E in E2. destruct (L !! (b, a)); [by eexists | done].
  - destruct (IH L2 Hrest Hin) as [H1 H2].
    rewrite (incr_lookup _ _ _ _ _ Hi2), (incr_lookup _ _ _ _ _ Hi1),
      !fmap_is_Some in H1.
    rewrite (incr_lookup _ _ _ _ _ Hi2), (incr_lookup _ _ _ _ _ Hi1),
      !fmap_is_Some in H2.
    done.
Qed.

Lemma uses_nonneg_path p k : 0 ≤ uses p k.
Proof. apply hits_nonneg. Qed.

(** ** Paths and their weight *)

Lemma is_path_walk G s t p : is_path G s t p → is_walk G s t p.
Proof. intros (? & ? & _ & ? & ?). by split_and!. Qed.

Lemma nonneg_weights_edge G u v w :
  nonneg_weights G → edge_weight G u v = Some w → 0 ≤ w.
Proof.
  intros Hnn Hw. unfold edge_weight in Hw.
  destruct (adj G !! u) as [l|] eqn:E; [|done]. simpl in Hw.
  specialize (Hnn u l E). simpl in Hnn. rewrite Forall_forall in Hnn.
  by apply (Hnn (v, w)), get_Some_elem.
Qed.

Lemma hops_weight_app G l1 l2 :
  hops_weight G (l1 ++ l2) = hops_weight G l1 + hops_weight G l2.
Proof. induction l1 as [|e l1 IH]; simpl; [done|]. rewrite IH. lia. Qed.

Lemma hops_weight_nonneg G l : nonneg_weights G → 0 ≤ hops_weight G l.
Proof.
  intros Hnn. induction l as [|[a b] l IH]; simpl; [done|].
  destruct (edge_weight G a b) as [w|] eqn:E; simpl; [|lia].
  pose proof (nonneg_weights_edge _ _ _ _ Hnn E). lia.
Qed.

Lemma hops_app_prefix l1 l2 : ∃ r, hops (l1 ++ l2) = hops l1 ++ r.
Proof.
  induction l1 as [|a l1 IH]; [by eexists|].
  destruct l1 as [|b l1]; [by eexists|].
  destruct IH as [r Hr]. exists r.
  change (hops ((a :: b :: l1) ++ l2)) with ((a, b) :: hops ((b :: l1) ++ l2)).
  by rewrite Hr.
Qed.

Lemma path_weight_snoc G q x n w :
  last q = Some x → edge_weight G x n = Some w →
  path_weight G (q ++ [n]) = path_weight G q + w.
Proof.
  intros Hl Hw. unfold path_weight. rewrite (hops_snoc q x n Hl), hops_weight_app.
  simpl. rewrite Hw. simpl. lia.
Qed.

Lemma is_path_has_node G s t p :
  wf_graph G → is_path G s t p → has_node G t = true.
Proof.
  intros Hwf (Hh & Hl & _ & Hs & He).
  destruct p as [|n q _] using rev_ind; [done|].
  rewrite last_snoc in Hl. injection Hl as ->.
  destruct (last q) as [x|] eqn:Hx.
  - destruct (He x t) as [w Hw].
    { rewrite (hops_snoc q x t Hx), elem_of_app. right. left. }
    eapply edge_weight_has_node. by apply wf_graph_sym.
  - apply last_None in Hx as ->. simpl in Hh. by injection Hh as ->.
Qed.

(** A path from a node to itself is that node alone. *)
Lemma is_path_self G s p : is_path G s s p → p = [s].
Proof.
  intros (Hh & Hl & Hnd & _).
  destruct p as [|x q]; [done|]. simpl in Hh. injection Hh as ->.
  destruct q as [|y q]; [done|]. exfalso.
  apply NoDup_cons in Hnd as [Hx _]. apply Hx.
  change (last (y :: q) = Some s) in Hl.
  apply last_Some in Hl as [q' ->]. rewrite elem_of_app. right. left.
Qed.

Lemma is_path_single G s : has_node G s = true → is_path G s s [s].
Proof.
  intros Hs. split_and!; try done; [apply NoDup_singleton|].
  by intros a b ?%elem_of_nil.
Qed.

(** ** Dijkstra on non-negative weights *)

Section dijkstra_metric.
Context (G : Graph) (Hwf : wf_graph G) (Hnn : nonneg_weights G).
Context (s : node) (Hs : has_node G s = true).

Lemma reach_has_node x d : reach G s x d → has_node G x = true.
Proof.
  destruct 1 as [|x y w d _ Hw]; [done|].
  eapply edge_weight_has_node. by apply wf_graph_sym.
Qed.

Lemma relaxed_snoc v done u w v0 u0 w0 :
  relaxed (Some (v, done ++ [(u, w)])) v0 u0 w0
  ↔ relaxed (Some (v, done)) v0 u0 w0 ∨ (v0 = v ∧ u0 = u ∧ w0 = w).
Proof.
  simpl. split.
  - intros H. destruct (decide (v0 = v)) as [->|Hne]; [|by left].
    pose proof (H eq_refl) as Hin.
    apply elem_of_app in Hin as [?|Heq%list_elem_of_singleton]; [by left|].
    injection Heq as -> ->. by right.
  - intros [H|(-> & -> & ->)] Hv; rewrite elem_of_app; [left; auto|].
    right. by left.
Qed.

(** The entry relaxed does not improve on [seen[u]]: nothing changes. *)
Lemma metric_skip v done d u w su st :
  metric_inv G s (Some (v, done)) st →
  dist st !! v = Some d → edge_weight G v u = Some w →
  seen st !! u = Some su → su < d + w →
  metric_inv G s (Some (v, done ++ [(u, w)])) st.
Proof.
  intros [Hds Hsrc Hf1 Hf2 Hf3 Hcur Hcl Hw Hp Hpk] Hv Hvu Hu Hlt.
  split; try done.
  - intros v0 dv0 u0 w0 Hv0 He [Hr|(-> & -> & ->)]%relaxed_snoc; [eauto|].
    exists su. split; [done|]. simplify_eq. lia.
  - intros u0 su0 Hu0. destruct (Hp u0 su0 Hu0) as (ps & Hps & Hchar).
    exists ps. split; [done|]. intros v0. rewrite Hchar.
    split; intros (dv0 & w0 & Hv0 & He & Hr & Heq); exists dv0, w0;
      (split_and!; [done..| |done]).
    + apply relaxed_snoc. by left.
    + apply relaxed_snoc in Hr as [?|(-> & -> & ->)]; [done|].
      simplify_eq. lia.
Qed.

(** The entry relaxed ties with [seen[u]]: [v] joins [pred[u]]. *)
Lemma metric_append v done d u w st :
  metric_inv G s (Some (v, done)) st →
  dist st !! v = Some d → edge_weight G v u = Some w → u ∉ done.*1 →
  seen st !! u = Some (d + w) →
  ∃ st', pred_append u v st = Ok st' ∧ dist st' = dist st ∧
         metric_inv G s (Some (v, done ++ [(u, w)])) st'.
Proof.
  intros [Hds Hsrc Hf1 Hf2 Hf3 Hcur Hcl Hw Hp Hpk] Hv Hvu Hnd Hu.
  unfold pred_append.
  destruct (Hp u _ Hu) as (ps & Hps & Hchar). rewrite Hps.
  eexists. split; [done|]. split; [done|].
  split; simpl; try done.
  - intros v0 dv0 u0 w0 Hv0 He [Hr|(-> & -> & ->)]%relaxed_snoc; [eauto|].
    exists (d + w). split; [done|]. simplify_eq. lia.
  - intros u0 su0 Hu0. destruct (decide (u0 = u)) as [->|Hne].
    + rewrite lookup_insert_eq. eexists. split; [done|].
      simplify_eq. intros v0. rewrite elem_of_app, Hchar, list_elem_of_singleton.
      split.
      * intros [(dv0 & w0 & Hv0 & He & Hr & Heq)| ->].
        -- exists dv0, w0. split_and!; [done..| |done].
           apply relaxed_snoc. by left.
        -- exists d, w. split_and!; [done..| |done].
           apply relaxed_snoc. by right.
      * intros (dv0 & w0 & Hv0 & He & Hr & Heq).
        apply relaxed_snoc in Hr as [?|(-> & _ & ->)]; [|by right].
        left. by exists dv0, w0.
    + rewrite lookup_insert_ne by done.
      destruct (Hp u0 su0 Hu0) as (ps0 & Hps0 & Hchar0).
      exists ps0. split; [done|]. intros v0. rewrite Hchar0.
      split; intros (dv0 & w0 & Hv0 & He & Hr & Heq); exists dv0, w0;
        (split_and!; [done..| |done]).
      * apply relaxed_snoc. by left.
      * apply relaxed_snoc in Hr as [?|(-> & -> & ->)]; done.
  - intros u0. rewrite lookup_insert_is_Some'. intros [<-|?]; [by eexists|auto].
Qed.

(** The entry relaxed improves on [seen[u]] (or finds [u]): [u] is
    pushed with [v] as its only predecessor. *)
Lemma metric_push v done d u w st :
  metric_inv G s (Some (v, done)) st →
  dist st !! v = Some d → edge_weight G v u = Some w →
  dist st !! u = None → (∀ su, seen st !! u = Some su → d + w < su) →
  metric_inv G s (Some (v, done ++ [(u, w)])) (push u (d + w) v st).
Proof.
  intros [Hds Hsrc Hf1 Hf2 Hf3 Hcur Hcl Hw Hp Hpk] Hv Hvu Hdu Hlt.
  pose proof (nonneg_weights_edge _ _ _ _ Hnn Hvu) as Hw0.
  destruct Hcur as (dv & Hdv & Hmax). simplify_eq.
  split; simpl.
  - intros x dx Hx. rewrite lookup_insert_ne by congruence. auto.
  - destruct Hsrc as (d0 & Hd0 & Hle). destruct (decide (u = s)) as [->|Hne].
    + rewrite lookup_insert_eq. eexists. split; [done|].
      specialize (Hlt _ Hd0). lia.
    + rewrite lookup_insert_ne by done. eauto.
  - intros d' c x [Heq|Hin]%elem_of_cons.
    + injection Heq as -> -> ->. rewrite lookup_insert_eq. eexists. split; [done|lia].
    + destruct (Hf1 d' c x Hin) as (sx & Hsx & Hle).
      destruct (decide (x = u)) as [->|Hne].
      * rewrite lookup_insert_eq. eexists. split; [done|].
        specialize (Hlt _ Hsx). lia.
      * rewrite lookup_insert_ne by done. eauto.
  - intros x sx. destruct (decide (x = u)) as [->|Hne].
    + rewrite lookup_insert_eq. intros [= <-] _. eexists. left.
    + rewrite lookup_insert_ne by done. intros Hx Hdx.
      destruct (Hf2 x sx Hx Hdx) as [c Hc]. exists c. by right.
  - intros x dx d' c y Hx [Heq|Hin]%elem_of_cons.
    + injection Heq as -> -> ->. specialize (Hmax x dx Hx). lia.
    + eauto.
  - eauto.
  - intros v0 dv0 u0 w0 Hv0 He Hr. apply relaxed_snoc in Hr as [Hr|(-> & -> & ->)].
    + destruct (Hcl v0 dv0 u0 w0 Hv0 He Hr) as (su & Hsu & Hle).
      destruct (decide (u0 = u)) as [->|Hne].
      * rewrite lookup_insert_eq. eexists. split; [done|].
        specialize (Hlt _ Hsu). lia.
      * rewrite lookup_insert_ne by done. eauto.
    + rewrite lookup_insert_eq. eexists. split; [done|]. simplify_eq. lia.
  - intros x sx. destruct (decide (x = u)) as [->|Hne].
    + rewrite lookup_insert_eq. intros [= <-].
      eapply reach_step; [|done]. apply Hw. by apply Hds.
    + rewrite lookup_insert_ne by done. auto.
  - intros u0 su0. destruct (decide (u0 = u)) as [->|Hne].
    + rewrite !lookup_insert_eq. intros [= <-]. eexists. split; [done|].
      intros v0. rewrite list_elem_of_singleton. split.
      * intros ->. exists dv, w. split_and!; [done..| |done].
        apply relaxed_snoc. by right.
      * intros (dv0 & w0 & Hv0 & He & Hr & Heq).
        apply relaxed_snoc in Hr as [Hr|(-> & _ & _)]; [|done].
        destruct (Hcl v0 dv0 u w0 Hv0 He Hr) as (su & Hsu & Hle).
        specialize (Hlt _ Hsu). lia.
    + rewrite !lookup_insert_ne by done. intros Hu0.
      destruct (Hp u0 su0 Hu0) as (ps0 & Hps0 & Hchar0).
      exists ps0. split; [done|]. intros v0. rewrite Hchar0.
      split; intros (dv0 & w0 & Hv0 & He & Hr & Heq); exists dv0, w0;
        (split_and!; [done..| |done]).
      * apply relaxed_snoc. by left.
      * apply relaxed_snoc in Hr as [?|(-> & -> & ->)]; done.
  - intros u0. rewrite !lookup_insert_is_Some'. intros [?|?]; auto.
Qed.

(** One iteration of the scan of the adjacency of [v]. *)
Lemma relax_metric v done d u w st :
  metric_inv G s (Some (v, done)) st →
  dist st !! v = Some d → edge_weight G v u = Some w → u ∉ done.*1 →
  total_post (relax v d st (u, w)) (λ st',
    metric_inv G s (Some (v, done ++ [(u, w)])) st' ∧ dist st' = dist st).
Proof.
  intros Hi Hv Hvu Hnd.
  pose proof (nonneg_weights_edge _ _ _ _ Hnn Hvu) as Hw0.
  unfold relax. simpl.
  destruct (dist st !! u) as [du|] eqn:Hdu.
  - pose proof (mi_ds _ _ _ _ Hi u du Hdu) as Hsu.
    destruct (mi_cur _ _ _ _ Hi) as (dv & Hdv & Hmax). simplify_eq.
    pose proof (Hmax u du Hdu).
    destruct (Z.ltb_spec (d + w) du); [lia|].
    destruct (Z.eqb_spec (d + w) du) as [Heq|Hne].
    + destruct (metric_append v done d u w st) as (st' & -> & ? & ?);
        [done..|by rewrite Heq|]. done.
    + simpl. split; [|done]. eapply metric_skip; [done..|lia].
  - destruct (seen st !! u) as [su|] eqn:Hsu.
    + destruct (Z.ltb_spec (d + w) su).
      * simpl. split; [|done]. apply metric_push; [done..|].
        intros ? ?. by simplify_eq.
      * destruct (Z.eqb_spec (d + w) su) as [Heq|Hne].
        -- destruct (metric_append v done d u w st) as (st' & -> & ? & ?);
             [done..|by rewrite Heq|]. done.
        -- simpl. split; [|done]. eapply metric_skip; [done..|lia].
    + simpl. split; [|done]. apply metric_push; [done..|].
      intros ? ?. congruence.
Qed.

(** The scan of the whole adjacency of [v]. *)
Lemma scan_metric v d l st :
  metric_inv G s (Some (v, [])) st → dist st !! v = Some d → nbrs G v = l →
  total_post (for_each (relax v d) st l) (λ st',
    metric_inv G s (Some (v, l)) st' ∧ dist st' = dist st).
Proof.
  intros Hi Hv Hl.
  apply (post_for_each _ _ (λ done st',
    metric_inv G s (Some (v, done)) st' ∧ dist st' = dist st)); [|done].
  intros done [u w] rest st1 Heq [Hi1 Hd1].
  eapply post_mono.
  - apply relax_metric; [done|by rewrite Hd1| |].
    + apply edge_weight_elem; [done|]. rewrite Hl, Heq.
      rewrite elem_of_app. right. left.
    + pose proof (wf_graph_NoDup G v Hwf) as Hnd.
      rewrite Hl, Heq in Hnd. unfold odict.keys in Hnd.
      rewrite fmap_app in Hnd. apply NoDup_app in Hnd as (_ & Hnd & _).
      intros Hin. apply (Hnd u Hin). left.
  - simpl. intros st2 [? ?]. split; [done|congruence].
Qed.

(** Once the adjacency of [v] is scanned, [v] is an ordinary finalised
    node. *)
Lemma metric_close v st :
  metric_inv G s (Some (v, nbrs G v)) st → metric_inv G s None st.
Proof.
  intros [Hds Hsrc Hf1 Hf2 Hf3 Hcur Hcl Hw Hp Hpk].
  assert (∀ v0 u0 w0, edge_weight G v0 u0 = Some w0 →
            relaxed (Some (v, nbrs G v)) v0 u0 w0) as Hall.
  { intros v0 u0 w0 He ->. rewrite edge_weight_nbrs in He.
    by apply get_Some_elem. }
  split; try done.
  - intros v0 dv0 u0 w0 Hv0 He _. eauto.
  - intros u0 su0 Hu0. destruct (Hp u0 su0 Hu0) as (ps & Hps & Hchar).
    exists ps. split; [done|]. intros v0. rewrite Hchar.
    split; intros (dv0 & w0 & Hv0 & He & Hr & Heq); exists dv0, w0;
      split_and!; auto. done.
Qed.

(** Popping an entry of a node that is already finalised. *)
Lemma metric_pop_stale d c v h st dv :
  metric_inv G s None st →
  (∀ x, x ∈ fringe st ↔ x = (d, c, v) ∨ x ∈ h) →
  dist st !! v = Some dv →
  metric_inv G s None (mkDS (dist st) (seen st) h (count st) (pred st)).
Proof.
  intros [Hds Hsrc Hf1 Hf2 Hf3 Hcur Hcl Hw Hp Hpk] Hin Hv.
  split; simpl; try done.
  - intros d' c' x Hx. apply (Hf1 d' c' x), Hin. by right.
  - intros x sx Hx Hdx. destruct (Hf2 x sx Hx Hdx) as [c' Hc'].
    exists c'. apply Hin in Hc' as [Heq|?]; [|done]. congruence.
  - intros x dx d' c' y Hx Hy. apply (Hf3 x dx d' c' y Hx), Hin. by right.
Qed.

(** Popping the entry that finalises [v]. *)
Lemma metric_pop_fresh d c v h st :
  metric_inv G s None st →
  (∀ x, x ∈ fringe st ↔ x = (d, c, v) ∨ x ∈ h) →
  (∀ x, x ∈ fringe st → d ≤ x.1.1) →
  dist st !! v = None →
  metric_inv G s (Some (v, []))
    (mkDS (<[v := d]> (dist st)) (seen st) h (count st) (pred st)) ∧
  is_Some (adj G !! v).
Proof.
  intros [Hds Hsrc Hf1 Hf2 Hf3 Hcur Hcl Hw Hp Hpk] Hin Hmin Hv.
  destruct (Hf1 d c v) as (sv & Hsv & Hle); [apply Hin; by left|].
  destruct (Hf2 v sv Hsv Hv) as [c' Hc'].
  pose proof (Hmin _ Hc') as Hge. simpl in Hge.
  assert (sv = d) as -> by lia.
  split; [|by eapply has_node_true, reach_has_node, Hw].
  split; simpl.
  - intros x dx. rewrite lookup_insert_Some. intros [[<- <-]|[_ ?]]; auto.
  - done.
  - intros d' c'' x Hx. apply (Hf1 d' c'' x), Hin. by right.
  - intros x sx Hx [Hdx Hne]%lookup_insert_None.
    destruct (Hf2 x sx Hx Hdx) as [c'' Hc''].
    exists c''. apply Hin in Hc'' as [Heq|?]; [|done]. congruence.
  - intros x dx d' c'' y. rewrite lookup_insert_Some.
    intros [[<- <-]|[_ Hx]] Hy.
    + apply (Hmin (d', c'', y)), Hin. by right.
    + apply (Hf3 x dx d' c'' y Hx), Hin. by right.
  - exists d. rewrite lookup_insert_eq. split; [done|].
    intros x dx. rewrite lookup_insert_Some. intros [[_ <-]|[_ Hx]]; [lia|].
    apply (Hf3 x dx d c v Hx), Hin. by left.
  - intros v0 dv0 u0 w0. rewrite lookup_insert_Some.
    intros [[<- <-]|[Hne Hv0]] He Hr.
    + specialize (Hr eq_refl). by apply elem_of_nil in Hr.
    + eauto.
  - done.
  - intros u0 su0 Hu0. destruct (Hp u0 su0 Hu0) as (ps & Hps & Hchar).
    exists ps. split; [done|]. intros v0. rewrite Hchar.
    split; intros (dv0 & w0 & Hv0 & He & Hr & Heq); exists dv0, w0.
    + split_and!; [|done| |done].
      * rewrite lookup_insert_ne by congruence. done.
      * intros ->. congruence.
    + apply lookup_insert_Some in Hv0 as [[<- <-]|[Hne Hv0]].
      * exfalso. specialize (Hr eq_refl). by apply elem_of_nil in Hr.
      * done.
  - done.
Qed.

Lemma dijkstra_loop_metric fuel st :
  metric_inv G s None st →
  post (λ _, False) True (dijkstra_loop fuel G st) (λ st',
    metric_inv G s None st' ∧ fringe st' = []).
Proof.
  revert st. induction fuel as [|fuel IH]; intros st Hi.
  - simpl. destruct (heappop (fringe st)) as [[[[d c] v] h]|] eqn:Hpop; [done|].
    by apply heappop_None in Hpop.
  - simpl. destruct (heappop (fringe st)) as [[[[d c] v] h]|] eqn:Hpop;
      [|by apply heappop_None in Hpop].
    apply heappop_Some in Hpop as (Hin & Hmin & Hlen).
    destruct (dist st !! v) as [dv|] eqn:Hdv.
    + apply IH. by eapply metric_pop_stale.
    + destruct (metric_pop_fresh d c v h st Hi Hin Hmin Hdv) as [Hi1 [l Hl]].
      rewrite Hl. eapply post_bind.
      * eapply post_weaken with (E := λ _, False) (T := False); [|done..].
        apply (scan_metric v d l); [done|apply lookup_insert_eq|].
        unfold nbrs. by rewrite Hl.
      * simpl. intros st2 [Hi2 _]. apply IH. apply (metric_close v).
        unfold nbrs. by rewrite Hl.
Qed.

Lemma dijkstra_init_metric : metric_inv G s None (dijkstra_init s).
Proof.
  unfold dijkstra_init. split; simpl.
  - intros x d. by rewrite lookup_empty.
  - exists 0. by rewrite lookup_singleton_eq.
  - intros d c x [= -> -> ->]%list_elem_of_singleton.
    exists 0. by rewrite lookup_singleton_eq.
  - intros x sx [<- <-]%lookup_singleton_Some _. exists 0%nat. left.
  - intros x dx d c y. by rewrite lookup_empty.
  - done.
  - intros v dv u w. by rewrite lookup_empty.
  - intros x sx [<- <-]%lookup_singleton_Some. constructor.
  - intros u su [<- <-]%lookup_singleton_Some. exists [].
    rewrite lookup_singleton_eq. split; [done|]. intros v. split.
    + by intros ?%elem_of_nil.
    + intros (dv & w & Hv & _). by rewrite lookup_empty in Hv.
  - intros u [ps [<- _]%lookup_singleton_Some]. rewrite lookup_singleton_eq.
    by eexists.
Qed.

Lemma metric_final st :
  metric_inv G s None st → fringe st = [] → search_result G s st.
Proof.
  intros [Hds Hsrc Hf1 Hf2 Hf3 Hcur Hcl Hw Hp Hpk] Hfr.
  assert (∀ x sx, seen st !! x = Some sx → dist st !! x = Some sx) as Hsd.
  { intros x sx Hx. destruct (dist st !! x) as [dx|] eqn:Hdx.
    - apply Hds in Hdx. congruence.
    - destruct (Hf2 x sx Hx Hdx) as [c Hc]. rewrite Hfr in Hc.
      by apply elem_of_nil in Hc. }
  split.
  - induction 1 as [|x y w d Hr IH He].
    + destruct Hsrc as (d0 & Hd0 & Hle). exists d0. auto.
    + destruct IH as (dx & Hdx & Hle).
      destruct (Hcl x dx y w Hdx He I) as (su & Hsu & Hle').
      exists su. split; [auto|lia].
  - intros x dx Hx. apply Hw. auto.
  - intros u. split.
    + intros [su Hsu]%Hpk. eexists. by apply Hsd.
    + intros [du Hdu]. destruct (Hp u du) as (ps & Hps & _); [auto|].
      by eexists.
  - intros u ps Hps v.
    destruct (Hpk u) as [su Hsu]; [by eexists|].
    destruct (Hp u su Hsu) as (ps' & Hps' & Hchar). simplify_eq.
    rewrite Hchar. split.
    + intros (dv & w & Hv & He & _ & Heq). exists dv, w, su. auto.
    + intros (dv & w & du & Hv & He & Hu & Heq). exists dv, w.
      apply Hds in Hu. simplify_eq. auto.
Qed.

(** On non-negative weights the search from an existing node ends
    without exception, within its fuel. *)
Lemma dijkstra_total :
  ∃ st, dijkstra_loop (dijkstra_fuel G) G (dijkstra_init s) = Ok st ∧
        search_result G s st ∧ struct_inv G st.
Proof.
  pose proof (dijkstra_struct G Hwf s Hs) as H1.
  pose proof (dijkstra_loop_metric (dijkstra_fuel G) _ dijkstra_init_metric) as H2.
  destruct (dijkstra_loop _ _ _) as [st| |]; simpl in *; [|done..].
  exists st. destruct H1 as (? & ? & ?), H2 as (? & ?).
  split_and!; [done| |done]. by apply metric_final.
Qed.
End dijkstra_metric.

(** ** Shortest paths and the predecessor lists *)

Section shortest_paths.
Context (G : Graph) (Hwf : wf_graph G) (Hnn : nonneg_weights G).
Context (s : node) (Hs : has_node G s = true).
Context (st : dijkstra_state) (Hres : search_result G s st).

Lemma reach_nonneg x d : reach G s x d → 0 ≤ d.
Proof.
  induction 1 as [|x y w d _ IH He]; [done|].
  pose proof (nonneg_weights_edge _ _ _ _ Hnn He). lia.
Qed.

(** A walk along links, as a list of nodes, witnesses [reach]. *)
Lemma walk_reach p t :
  head p = Some s → last p = Some t →
  (∀ a b, (a, b) ∈ hops p → is_Some (edge_weight G a b)) →
  reach G s t (path_weight G p).
Proof.
  revert t. induction p as [|n q IH] using rev_ind; intros t Hh Hl He; [done|].
  rewrite last_snoc in Hl. injection Hl as ->.
  destruct (last q) as [x|] eqn:Hx.
  - destruct (He x t) as [w Hw].
    { rewrite (hops_snoc q x t Hx), elem_of_app. right. left. }
    rewrite (path_weight_snoc G q x t w Hx Hw).
    eapply reach_step; [|done]. apply IH; [|done|].
    + destruct q; [done|]. done.
    + intros a b Hab. apply He.
      rewrite (hops_snoc q x t Hx), elem_of_app. by left.
  - apply last_None in Hx as ->. simpl in Hh. injection Hh as ->.
    constructor.
Qed.

Lemma is_walk_reach t p : is_walk G s t p → reach G s t (path_weight G p).
Proof. intros (? & ? & _ & ?). by apply walk_reach. Qed.

(** Cutting the cycles of a walk: a path that is no heavier. *)
Lemma reach_path t d :
  reach G s t d → ∃ p, is_path G s t p ∧ path_weight G p ≤ d.
Proof.
  induction 1 as [|x y w d Hr (p & (Hh & Hl & Hnd & _ & He) & Hle) Hw].
  { exists [s]. split; [|done]. split_and!; try done.
    - apply NoDup_singleton.
    - by intros a b ?%elem_of_nil. }
  pose proof (nonneg_weights_edge _ _ _ _ Hnn Hw) as Hw0.
  destruct (decide (y ∈ p)) as [Hin|Hnin].
  - apply list_elem_of_split in Hin as (p1 & p2 & ->).
    exists (p1 ++ [y]).
    destruct (hops_app_prefix (p1 ++ [y]) p2) as [r Hr'].
    rewrite <-(assoc_L (++)) in Hr'. simpl in Hr'.
    split; [split_and!|].
    + destruct p1; done.
    + by rewrite last_snoc.
    + rewrite cons_middle, (assoc_L (++)) in Hnd.
      by apply NoDup_app in Hnd as (? & _).
    + done.
    + intros a b Hab. apply He. rewrite Hr', elem_of_app. by left.
    + unfold path_weight in *. rewrite Hr', hops_weight_app in Hle.
      pose proof (hops_weight_nonneg G r Hnn). lia.
  - exists (p ++ [y]). split; [split_and!|].
    + destruct p; done.
    + by rewrite last_snoc.
    + apply NoDup_app. split_and!; [done| |apply NoDup_singleton].
      intros z Hz ->%list_elem_of_singleton. done.
    + done.
    + intros a b. rewrite (hops_snoc p x y Hl), elem_of_app.
      intros [?|Heq%list_elem_of_singleton]; [auto|].
      injection Heq as -> ->. by eexists.
    + rewrite (path_weight_snoc G p x y w Hl Hw). lia.
Qed.

(** The distance bounds every walk, hence every path, from below. *)
Lemma dist_lower_walk t p :
  is_walk G s t p → ∃ dt, dist st !! t = Some dt ∧ dt ≤ path_weight G p.
Proof. intros Hp%is_walk_reach. by apply (sr_lower _ _ _ Hres). Qed.

Lemma dist_lower t p :
  is_path G s t p → ∃ dt, dist st !! t = Some dt ∧ dt ≤ path_weight G p.
Proof. intros ?%is_path_walk. by apply dist_lower_walk. Qed.

(** A path whose weight is the distance follows the predecessor lists. *)
Lemma tight_chain p t dt :
  is_path G s t p → dist st !! t = Some dt → path_weight G p = dt →
  chain s (pred st) t p.
Proof.
  revert t dt. induction p as [|n q IH] using rev_ind;
    intros t dt (Hh & Hl & Hnd & _ & He) Ht Hwt; [done|].
  rewrite last_snoc in Hl. injection Hl as ->.
  destruct (last q) as [x|] eqn:Hx.
  - destruct (He x t) as [w Hw].
    { rewrite (hops_snoc q x t Hx), elem_of_app. right. left. }
    rewrite (path_weight_snoc G q x t w Hx Hw) in Hwt.
    assert (is_path G s x q) as Hq.
    { split_and!; [by destruct q|done|by apply NoDup_app in Hnd as (? & _)|done|].
      intros a b Hab. apply He.
      rewrite (hops_snoc q x t Hx), elem_of_app. by left. }
    destruct (dist_lower x q Hq) as (dx & Hdx & Hle).
    destruct (sr_lower _ _ _ Hres t (dx + w)) as (dt' & Hdt' & Hle').
    { eapply reach_step; [|done]. by apply (sr_reach _ _ _ Hres). }
    simplify_eq.
    destruct (proj2 (sr_keys _ _ _ Hres t)) as [ps Hps]; [by eexists|].
    eapply chain_step; [done| |apply (IH x dx); [done..|lia]].
    apply (sr_pred _ _ _ Hres t ps Hps). eexists dx, w, _.
    split_and!; [done..|lia].
  - apply last_None in Hx as ->. simpl in Hh. injection Hh as ->.
    constructor.
Qed.

(** A chain of the predecessor lists runs along links and weighs the
    distance of its end. *)
Lemma chain_tight t q :
  chain s (pred st) t q →
  ∃ dt, dist st !! t = Some dt ∧ path_weight G q = dt ∧
        ∀ a b, (a, b) ∈ hops q → is_Some (edge_weight G a b).
Proof.
  induction 1 as [|n m q ps Hps Hm Hc (dm & Hdm & Hwq & He)].
  - destruct (sr_lower _ _ _ Hres s 0) as (ds & Hds & Hle); [constructor|].
    pose proof (reach_nonneg _ _ (sr_reach _ _ _ Hres s ds Hds)).
    exists ds. split; [done|]. split; [unfold path_weight; simpl; lia|].
    by intros a b ?%elem_of_nil.
  - apply (sr_pred _ _ _ Hres n ps Hps) in Hm as (dv & w & du & Hv & Hw & Hu & Heq).
    assert (dv = dm) as -> by congruence.
    pose proof (chain_last _ _ _ _ Hc) as Hl.
    exists du. split; [done|]. split.
    + rewrite (path_weight_snoc G q m n w Hl Hw). lia.
    + intros a b. rewrite (hops_snoc q m n Hl), elem_of_app.
      intros [?|Hab%list_elem_of_singleton]; [auto|].
      injection Hab as -> ->. by eexists.
Qed.
End shortest_paths.

(** On a well-formed graph with non-negative weights, [compute_path]
    returns a path of least weight and, among those, of least utilization;
    it returns [None] when an endpoint is missing or no path exists. *)
Lemma compute_path_optimal G L s d ty :
  wf_graph G → nonneg_weights G →
  (∃ p, compute_path G L s d ty = Ok (Some p) ∧
        is_path G s d p ∧
        (∀ q, is_walk G s d q → path_weight G p ≤ path_weight G q) ∧
        (∀ q, is_path G s d q → path_weight G q = path_weight G p →
              utilization L p ≤ utilization L q)) ∨
  (compute_path G L s d ty = Ok None ∧
   (has_node G s = false ∨ has_node G d = false ∨ ∀ q, ¬ is_path G s d q)).
Proof.
  intros Hwf Hnn. unfold compute_path.
  destruct (has_node G s) eqn:Hs; [|right; auto].
  destruct (has_node G d) eqn:Hd; [|right; auto]. simpl.
  destruct (dijkstra_total G Hwf Hnn s Hs) as (st & Hst & Hres & Hsi).
  unfold all_shortest_paths, dijkstra_predecessor_and_distance.
  rewrite Hs, Hst. simpl. unfold build_paths_from_predecessors.
  destruct (pred st !! d) as [ps|] eqn:Hps.
  - destruct (build_from_spec s (pred st)) with (fuel := size (pred st))
      (trail := @nil string) (n := d) as (out & -> & Hout).
    { intros n ps' m Hn Hm. by destruct (si_edges _ _ Hsi n ps' m Hn Hm). }
    { by eexists. }
    { apply NoDup_singleton. }
    { by intros x ?%elem_of_nil. }
    { simpl. lia. }
    assert (∀ p, p ∈ out ↔ chain s (pred st) d p ∧ NoDup p) as Hout'.
    { intros p. rewrite Hout. split.
      - intros (q & Hc & Hq & ->). by rewrite app_nil_r in *.
      - intros [? ?]. exists p. by rewrite app_nil_r. }
    destruct (proj1 (sr_keys _ _ _ Hres d)) as [dt Hdt]; [by eexists|].
    assert (∀ q, is_path G s d q → path_weight G q = dt → q ∈ out) as Htight.
    { intros q Hq Hwq. apply Hout'. split; [|by destruct Hq as (_ & _ & ? & _)].
      by eapply tight_chain. }
    assert (∀ q, is_walk G s d q → dt ≤ path_weight G q) as Hlow.
    { intros q Hq. destruct (dist_lower_walk G s st Hres d q Hq) as (dt' & ? & ?).
      by simplify_eq. }
    destruct (paths_sort_head L out) as [[-> _]|(p & -> & Hp & Hmin)].
    + exfalso.
      destruct (reach_path G Hnn s Hs d dt) as (q & Hq & Hle).
      { by apply (sr_reach _ _ _ Hres). }
      eapply elem_of_nil, (Htight q Hq).
      specialize (Hlow q (is_path_walk _ _ _ _ Hq)). lia.
    + left. exists p. split; [done|].
      apply Hout' in Hp as [Hc Hnd].
      destruct (chain_tight G Hnn s st Hres d p Hc) as (dt' & Hdt' & Hwp & He).
      simplify_eq. split_and!.
      * split_and!; [by eapply chain_head|by eapply chain_last|done..].
      * done.
      * intros q Hq Hwq. by apply Hmin, Htight.
  - right. split; [done|]. right. right. intros q Hq.
    destruct (dist_lower G s st Hres d q Hq) as (dt & Hdt & _).
    destruct (proj2 (sr_keys _ _ _ Hres d)) as [? ?]; [by eexists|]. congruence.
Qed.

(** ** Commands return when no weight is negative *)

Lemma nonneg_weights_intro G :
  wf_graph G → (∀ u v w, edge_weight G u v = Some w → 0 ≤ w) →
  nonneg_weights G.
Proof.
  intros Hwf He u l Hl. apply Forall_forall. intros [v w] Hvw.
  apply (He u v w). apply edge_weight_elem; [done|].
  unfold nbrs. by rewrite Hl.
Qed.

Lemma exec_nonneg cmd c r c' :
  nonneg_command cmd = true → wf_graph (topology c) →
  nonneg_weights (topology c) → exec cmd c = Ok (r, c') →
  nonneg_weights (topology c').
Proof.
  intros Hk Hwf Hnn.
  pose proof (λ u v w, nonneg_weights_edge (topology c) u v w Hnn) as He.
  destruct cmd as [n|n|u v w|u v|s d ty bw|u v|s d]; simpl.
  - unfold add_node. destruct (has_node _ _); intros [= _ <-]; [done|]. simpl.
    apply nonneg_weights_intro; [by apply wf_add_node|].
    intros a b x. rewrite edge_weight_add_node. apply He.
  - unfold remove_node. destruct (has_node _ _) eqn:Hn; intros [= _ <-]; [|done].
    simpl. apply nonneg_weights_intro; [by apply wf_remove_node|].
    intros a b x. rewrite edge_weight_remove_node by done.
    case_decide; [done|]. apply He.
  - unfold add_link. destruct (_ || _); intros [= _ <-]; [done|]. simpl.
    apply nonneg_weights_intro; [by apply wf_add_edge|].
    intros a b x. rewrite edge_weight_add_edge.
    case_decide; [|apply He]. intros [= <-]. simpl in Hk.
    by apply bool_decide_eq_true in Hk.
  - unfold remove_link. destruct (negb _); intros [= _ <-]; [done|]. simpl.
    apply nonneg_weights_intro; [by apply wf_remove_edge|].
    intros a b x. rewrite edge_weight_remove_edge.
    case_decide; [done|]. apply He.
  - unfold inject_traffic_flow. destruct (_ || _); [by intros [= _ <-]|].
    intros (op & Hop & Hrest)%bind_Ok.
    destruct op as [[|y p]|]; [by injection Hrest as _ <-| |by injection Hrest as _ <-].
    by apply bind_Ok in Hrest as (L' & Hres & [= _ <-]).
  - unfold simulate_link_failure.
    destruct (negb _) eqn:He'; [by intros [= _ <-]|].
    intros (st & Hst & [= _ <-])%bind_Ok. simpl.
    unfold remove_link. rewrite He'. simpl.
    apply nonneg_weights_intro; [by apply wf_remove_edge|].
    intros a b x. rewrite edge_weight_remove_edge.
    case_decide; [done|]. apply He.
  - unfold query_routing. destruct (_ || _); [by intros [= _ <-]|].
    by intros (op & Hop & [= _ <-])%bind_Ok.
Qed.

Lemma compute_path_total G L s d ty :
  wf_graph G → nonneg_weights G →
  ∃ op, compute_path G L s d ty = Ok op ∧
        ∀ p, op = Some p →
          NoDup p ∧ ∀ a b, (a, b) ∈ hops p → is_Some (edge_weight G a b).
Proof.
  intros Hwf Hnn.
  destruct (compute_path_optimal G L s d ty Hwf Hnn)
    as [(p & -> & (_ & _ & ? & _ & ?) & _)|[-> _]].
  - eexists. split; [done|]. by intros ? [= <-].
  - eexists. split; [done|]. done.
Qed.

Lemma reroute_flow_total u v G st f :
  wf_graph G → nonneg_weights G → ledger_covers G st.2 →
  ∃ st', reroute_flow u v G st f = Ok st' ∧
         ∀ k, is_Some (st'.2 !! k) ↔ is_Some (st.2 !! k).
Proof.
  intros Hwf Hnn Hcov. unfold reroute_flow.
  destruct (_ && _); [|by eexists].
  set (L := release _ _ _).
  assert (ledger_covers G L) as Hcov'.
  { eapply ledger_covers_dom; [|done]. intros k. apply release_dom. }
  destruct (compute_path_total G L (src f) (dst f) (traffic_type f) Hwf Hnn)
    as (op & -> & Hop). simpl.
  destruct op as [[|y p]|];
    [eexists; split; [done|intros k; apply release_dom]|
    |eexists; split; [done|intros k; apply release_dom]].
  destruct (Hop _ eq_refl) as [_ Hhops].
  destruct (reserve_computed_path _ _ (bandwidth f) (y :: p) Hwf Hcov' Hhops)
    as [L' HL'].
  rewrite HL'. simpl. eexists. split; [done|]. simpl. intros k.
  rewrite (reserve_dom _ _ _ _ k HL'). apply release_dom.
Qed.

Lemma exec_total cmd c :
  ctrl_inv c → nonneg_weights (topology c) → ∃ rc, exec cmd c = Ok rc.
Proof.
  intros Hi Hnn. destruct cmd as [n|n|u v w|u v|s d ty bw|u v|s d]; simpl;
    try by eexists.
  - destruct Hi as [Hwf Hcov _]. unfold inject_traffic_flow.
    destruct (_ || _); [by eexists|].
    destruct (compute_path_total (topology c) (link_utilization c) s d ty Hwf Hnn)
      as (op & -> & Hop). simpl.
    destruct op as [[|y p]|]; [by eexists| |by eexists].
    destruct (Hop _ eq_refl) as [_ Hhops].
    destruct (reserve_computed_path _ _ bw (y :: p) Hwf Hcov Hhops) as [L' ->].
    by eexists.
  - unfold simulate_link_failure. destruct (negb _) eqn:He; [by eexists|].
    destruct (remove_link_inv u v c Hi) as [Hwf1 Hcov1 _].
    assert (nonneg_weights (topology (remove_link u v c).2)) as Hnn1.
    { eapply (exec_nonneg (RemoveLink u v) c (remove_link u v c).1);
        [done|apply Hi|done|].
      simpl. by destruct (remove_link u v c). }
    set (c1 := (remove_link u v c).2) in *.
    assert (∀ fl st, ledger_covers (topology c1) st.2 →
              ∃ st', for_each (reroute_flow u v (topology c1)) st fl = Ok st')
      as Hloop.
    { induction fl as [|f fl IH]; intros st Hst; simpl; [by eexists|].
      destruct (reroute_flow_total u v (topology c1) st f Hwf1 Hnn1 Hst)
        as (st1 & -> & Hdom). simpl. apply IH.
      by eapply ledger_covers_dom. }
    destruct (Hloop (flows c1) ([], link_utilization c1) Hcov1) as [st' ->].
    by eexists.
  - destruct Hi as [Hwf Hcov _]. unfold query_routing.
    destruct (_ || _); [by eexists|].
    destruct (compute_path_total (topology c) (link_utilization c) s d "data" Hwf Hnn)
      as (op & -> & Hop). by eexists.
Qed.


(** * The claims *)

(** ** C1: the path selector *)

(** C1 (fails on the code): with a negative weight the search raises the
    [ValueError] of networkx ("Contradictory paths found: negative
    weights?"), which [compute_path] does not catch: it returns neither a
    path nor [None], although b is reachable from a. *)
Lemma compute_path_negative_weight :
  compute_path (topology (state_after negative_scenario))
    (link_utilization (state_after negative_scenario)) "a" "b" "data"
  = Raise ValueError ∧
  edge_weight (topology (state_after negative_scenario)) "a" "b" = Some 1.
Proof. split; vm_compute; reflexivity. Qed.

(** C1, amended: on a topology whose weights are all non-negative,
    [compute_path] returns; a path it returns is a path from [s] to [d]
    whose total weight is least among all walks (hence all paths) from [s]
    to [d] and whose utilization (the sum of the ledger values of its hops)
    is least among the paths of that least weight; it returns [None]
    exactly when [s] or [d] is not a node or no path leads from [s] to
    [d]. *)
Theorem compute_path_least_weight_then_least_utilization G L s d ty :
  wf_graph G → nonneg_weights G →
  (∃ op, compute_path G L s d ty = Ok op) ∧
  (∀ p, compute_path G L s d ty = Ok (Some p) →
     is_path G s d p ∧
     (∀ q, is_walk G s d q → path_weight G p ≤ path_weight G q) ∧
     (∀ q, is_path G s d q → path_weight G q = path_weight G p →
           utilization L p ≤ utilization L q)) ∧
  (compute_path G L s d ty = Ok None ↔
     has_node G s = false ∨ has_node G d = false ∨ ∀ q, ¬ is_path G s d q).
Proof.
  intros Hwf Hnn.
  destruct (compute_path_optimal G L s d ty Hwf Hnn)
    as [(p & Hp & Hpath & Hw & Hu)|[Hnone Hwhy]].
  - rewrite Hp. split_and!.
    + by eexists.
    + by intros ? [= <-].
    + split; [done|]. intros [Hs|[Hd|Hno]].
      * destruct Hpath as (_ & _ & _ & ? & _). congruence.
      * pose proof (is_path_has_node _ _ _ _ Hwf Hpath). congruence.
      * by apply Hno in Hpath.
  - rewrite Hnone. split_and!; [by eexists|done|done].
Qed.

Lemma compute_path_least_weight_then_least_utilization_witness :
  wf_graph (topology (state_after abc_topology)) ∧
  nonneg_weights (topology (state_after abc_topology)) ∧
  compute_path (topology (state_after abc_topology))
    (link_utilization (state_after abc_topology)) "a" "c" "data"
  = Ok (Some ["a"; "b"; "c"]) ∧
  is_path (topology (state_after abc_topology)) "a" "c" ["a"; "b"; "c"].
Proof.
  assert (wf_graph (topology (state_after abc_topology))) as Hwf.
  { apply (bool_decide_unpack _). vm_compute. exact I. }
  assert (nonneg_weights (topology (state_after abc_topology))) as Hnn.
  { apply (bool_decide_unpack _). vm_compute. exact I. }
  assert (compute_path (topology (state_after abc_topology))
            (link_utilization (state_after abc_topology)) "a" "c" "data"
          = Ok (Some ["a"; "b"; "c"])) as Hcp.
  { vm_compute. reflexivity. }
  split; [exact Hwf|]. split; [exact Hnn|]. split; [exact Hcp|].
  exact (proj1 (proj1 (proj2
    (compute_path_least_weight_then_least_utilization _
       (link_utilization (state_after abc_topology)) "a" "c" "data" Hwf Hnn))
    _ Hcp)).
Defined.

(** ** C2: ledger entries and links *)

(** C2 (fails on the code): a ledger entry exists iff its link exists, and
    removing a node removes the entries of its links.  [remove_node] only
    updates the topology: after [add node a; add node b; add link a b;
    remove node a] the link a–b is gone from the topology and both of its
    ledger entries are still there. *)
Theorem remove_node_keeps_ledger_entries :
  (c ← session [AddNode "a"; AddNode "b"; AddLink "a" "b" 1; RemoveNode "a"];
   Ok (has_edge (topology c) "a" "b", has_edge (topology c) "b" "a",
       link_utilization c !! ("a", "b"), link_utilization c !! ("b", "a")))
  = Ok (false, false, Some 0, Some 0).
Proof. vm_compute. reflexivity. Qed.

(** ** C3: a successful admission *)

(** C3: when [inject_traffic_flow] admits a flow on the path [p], the flow
    record with that path is appended to the active flows, and for every
    consecutive pair (a, b) of [p] the ledger entries (a, b) and (b, a)
    both exist and both grow by exactly the bandwidth. *)
Theorem inject_reserves_bandwidth s d ty bw c p c' :
  inject_traffic_flow s d ty bw c = Ok (Injected p, c') →
  compute_path (topology c) (link_utilization c) s d ty = Ok (Some p) ∧
  topology c' = topology c ∧
  flows c' = flows c ++ [mkFlow s d ty bw p] ∧
  ∀ a b, (a, b) ∈ hops p →
    ∃ x y,
      link_utilization c !! (a, b) = Some x ∧
      link_utilization c' !! (a, b) = Some (x + bw) ∧
      link_utilization c !! (b, a) = Some y ∧
      link_utilization c' !! (b, a) = Some (y + bw).
Proof.
  unfold inject_traffic_flow. destruct (_ || _); [done|].
  destruct (compute_path _ _ _ _ _) as [[[|n q]|]| |] eqn:Hcp; simpl; try done.
  destruct (reserve _ _ _) as [L'| |] eqn:Hres; simpl; [|done..].
  intros [= <- <-]. simpl. split_and!; [done..|].
  intros a b Hab.
  destruct (compute_path_NoDup _ _ _ _ _ _ Hcp) as (Hnd & _ & _).
  destruct (uses_NoDup _ a b Hnd Hab) as [Hu1 Hu2].
  pose proof (reserve_lookup _ _ _ _ (a, b) Hres) as H1.
  pose proof (reserve_lookup _ _ _ _ (b, a) Hres) as H2.
  rewrite Hu1 in H1. rewrite Hu2 in H2.
  destruct (reserve_Ok_keys _ _ _ _ a b Hres Hab) as [[x Hx] [y Hy]].
  exists x, y. rewrite H1, H2, Hx, Hy. simpl.
  split_and!; [done| |done|]; f_equal; lia.
Qed.

Lemma inject_reserves_bandwidth_witness :
  inject_traffic_flow "a" "c" "data" 10 (state_after abc_topology)
  = Ok (Injected ["a"; "b"; "c"], state_after abc_scenario) ∧
  flows (state_after abc_scenario)
  = flows (state_after abc_topology) ++ [mkFlow "a" "c" "data" 10 ["a"; "b"; "c"]].
Proof.
  assert (inject_traffic_flow "a" "c" "data" 10 (state_after abc_topology)
          = Ok (Injected ["a"; "b"; "c"], state_after abc_scenario)) as H.
  { vm_compute. reflexivity. }
  split; [exact H|].
  exact (proj1 (proj2 (proj2 (inject_reserves_bandwidth _ _ _ _ _ _ _ H)))).
Defined.

(** ** C4: which flows a link failure reroutes *)

Lemma release_simple bw L p :
  NoDup p →
  (∀ a b, (a, b) ∈ hops p →
     release bw L p !! (a, b) = (λ x, x - bw) <$> L !! (a, b) ∧
     release bw L p !! (b, a) = (λ x, x - bw) <$> L !! (b, a)) ∧
  (∀ a b, (a, b) ∉ hops p → (b, a) ∉ hops p →
     release bw L p !! (a, b) = L !! (a, b)).
Proof.
  intros Hnd. split.
  - intros a b Hab. rewrite !release_lookup.
    destruct (uses_NoDup p a b Hnd Hab) as [-> ->].
    split; (destruct (L !! _); simpl; f_equal; lia).
  - intros a b H1 H2. rewrite release_lookup. unfold uses.
    rewrite hits_zero by done.
    destruct (L !! _); simpl; f_equal; lia.
Qed.

Lemma reroute_flow_step u v G visited L f st' :
  NoDup (flow_path f) →
  reroute_flow u v G (visited, L) f = Ok st' →
  ∃ f', st'.1 = visited ++ [f'] ∧ reroute_step u v G L f f' st'.2.
Proof.
  intros Hnd. unfold reroute_flow. simpl.
  destruct (bool_decide (u ∈ flow_path f)) eqn:Hu;
    [apply bool_decide_eq_true in Hu | apply bool_decide_eq_false in Hu];
  (destruct (bool_decide (v ∈ flow_path f)) eqn:Hv;
    [apply bool_decide_eq_true in Hv | apply bool_decide_eq_false in Hv]);
  simpl; try (intros [= <-]; exists f; split; [done|]; split; [done|tauto]).
  intros Hr. apply bind_Ok in Hr as (op & Hcp & Hr).
  destruct (release_simple (bandwidth f) L (flow_path f) Hnd) as [Hon Hoff].
  assert (∀ f',
     match compute_path G (release (bandwidth f) L (flow_path f))
             (src f) (dst f) (traffic_type f) with
     | Ok (Some (a :: p)) =>
         f' = mkFlow (src f) (dst f) (traffic_type f) (bandwidth f) (a :: p) ∧
         reserve (bandwidth f) (release (bandwidth f) L (flow_path f)) (a :: p)
         = Ok st'.2
     | Ok _ => f' = f ∧ st'.2 = release (bandwidth f) L (flow_path f)
     | _ => False
     end → reroute_step u v G L f f' st'.2) as Hstep.
  { intros f' HR. split; [tauto|]. intros _. eexists. by split_and!. }
  destruct op as [[|a p]|].
  - injection Hr as <-. exists f. split; [done|]. apply Hstep. by rewrite Hcp.
  - apply bind_Ok in Hr as (L' & Hres & [= <-]). eexists. split; [done|].
    apply Hstep. by rewrite Hcp.
  - injection Hr as <-. exists f. split; [done|]. apply Hstep. by rewrite Hcp.
Qed.

Lemma reroute_all_trace u v G fl visited L st' :
  flows_simple fl →
  for_each (reroute_flow u v G) (visited, L) fl = Ok st' →
  ∃ fl', st'.1 = visited ++ fl' ∧ reroute_trace u v G L fl fl' st'.2.
Proof.
  revert visited L. induction fl as [|f fl IH]; intros visited L Hfl; simpl.
  - intros [= <-]. exists []. split; [by rewrite app_nil_r | constructor].
  - intros ([visited1 L1] & Hstep & Hrest)%bind_Ok.
    apply reroute_flow_step in Hstep as (f' & Hv1 & Hs); [|apply Hfl; left].
    simpl in *. subst.
    apply IH in Hrest as (fl' & -> & Ht); [|intros ? ?; apply Hfl; by right].
    exists (f' :: fl'). split; [by rewrite <-(assoc_L (++))|].
    by econstructor.
Qed.

(** What [simulate_link_failure] has done whenever it returns. *)
Lemma simulate_link_failure_trace u v c r c' :
  reachable c →
  has_edge (topology c) u v = true →
  simulate_link_failure u v c = Ok (r, c') →
  r = LinkFailed ∧
  topology c' = remove_edge (topology c) u v ∧
  reroute_trace u v (topology c')
    (delete (v, u) (delete (u, v) (link_utilization c)))
    (flows c) (flows c') (link_utilization c').
Proof.
  intros [_ _ Hfl]%reachable_inv He.
  unfold simulate_link_failure, remove_link. rewrite He. simpl.
  intros (st & Hloop & [= <- <-])%bind_Ok. simpl.
  split_and!; [done..|].
  apply reroute_all_trace in Hloop as (fl' & Hfl' & Ht); [|done].
  simpl in Hfl'. by rewrite Hfl'.
Qed.

(** C4 (fails on the code): two flows run on [a; b; c] and the link c–d
    has the weight -1 when the link a–b fails.  Both flows have a and b in
    their path, so both are to be processed.  The first one is released
    and its new path is searched: the search raises [ValueError], which
    [simulate_link_failure] does not catch.  The call ends there: the
    second flow is never visited and its bandwidth is not released. *)
Lemma failure_raises_at_first_flow :
  session negative_failure_scenario = Ok (state_after negative_failure_scenario) ∧
  has_edge (topology (state_after negative_failure_scenario)) "a" "b" = true ∧
  flows (state_after negative_failure_scenario)
  = [mkFlow "a" "c" "data" 10 ["a"; "b"; "c"];
     mkFlow "a" "c" "voice" 5 ["a"; "b"; "c"]] ∧
  reroute_flow "a" "b"
    (topology (remove_link "a" "b" (state_after negative_failure_scenario)).2)
    ([], link_utilization
           (remove_link "a" "b" (state_after negative_failure_scenario)).2)
    (mkFlow "a" "c" "data" 10 ["a"; "b"; "c"])
  = Raise ValueError ∧
  simulate_link_failure "a" "b" (state_after negative_failure_scenario)
  = Raise ValueError.
Proof. split_and!; vm_compute; reflexivity. Qed.

(** C4, amended: in a state reached by a session where the link u–v
    exists, [simulate_link_failure u v] returns whenever no link weight is
    negative, and whenever it returns it has removed the link (with its
    two ledger entries) and then visited the active flows in order.  A
    flow is touched exactly when [u] and [v] both occur somewhere in its
    stored path, adjacent or not: then, for every hop (a, b) of that path,
    the entries (a, b) and (b, a) that still exist are decreased by the
    bandwidth of the flow, missing entries stay missing, no other entry
    changes, and the flow is admitted again on the ledger so released; any
    other flow, and the ledger while it is visited, are left as they
    are. *)
Theorem failure_reroutes_flows_through_both_endpoints u v c :
  reachable c →
  has_edge (topology c) u v = true →
  (nonneg_weights (topology c) →
   ∃ c', simulate_link_failure u v c = Ok (LinkFailed, c')) ∧
  (∀ r c', simulate_link_failure u v c = Ok (r, c') →
     r = LinkFailed ∧
     topology c' = remove_edge (topology c) u v ∧
     reroute_trace u v (topology c')
       (delete (v, u) (delete (u, v) (link_utilization c)))
       (flows c) (flows c') (link_utilization c')).
Proof.
  intros Hr He. split.
  - intros Hnn.
    destruct (exec_total (FailLink u v) c (reachable_inv c Hr) Hnn)
      as [[r c'] Hex].
    simpl in Hex. exists c'.
    by destruct (simulate_link_failure_trace u v c r c' Hr He Hex) as [-> _].
  - intros r c'. by apply simulate_link_failure_trace.
Qed.

Lemma failure_reroutes_flows_through_both_endpoints_witness :
  reachable (state_after detour_scenario) ∧
  nonneg_weights (topology (state_after detour_scenario)) ∧
  has_edge (topology (state_after detour_scenario)) "a" "c" = true ∧
  simulate_link_failure "a" "c" (state_after detour_scenario)
  = Ok (LinkFailed, state_after (detour_scenario ++ [FailLink "a" "c"])) ∧
  flows (state_after detour_scenario) = [mkFlow "a" "c" "data" 10 ["a"; "b"; "c"]] ∧
  flows (state_after (detour_scenario ++ [FailLink "a" "c"]))
  = [mkFlow "a" "c" "data" 10 ["a"; "d"; "c"]] ∧
  (∃ c', simulate_link_failure "a" "c" (state_after detour_scenario)
         = Ok (LinkFailed, c')) ∧
  reroute_trace "a" "c" (topology (state_after (detour_scenario ++ [FailLink "a" "c"])))
    (delete ("c", "a") (delete ("a", "c")
       (link_utilization (state_after detour_scenario))))
    (flows (state_after detour_scenario))
    (flows (state_after (detour_scenario ++ [FailLink "a" "c"])))
    (link_utilization (state_after (detour_scenario ++ [FailLink "a" "c"]))).
Proof.
  assert (reachable (state_after detour_scenario)) as Hr.
  { exists detour_scenario. vm_compute. reflexivity. }
  assert (nonneg_weights (topology (state_after detour_scenario))) as Hnn.
  { apply (bool_decide_unpack _). vm_compute. exact I. }
  assert (has_edge (topology (state_after detour_scenario)) "a" "c" = true) as He.
  { vm_compute. reflexivity. }
  assert (simulate_link_failure "a" "c" (state_after detour_scenario)
          = Ok (LinkFailed, state_after (detour_scenario ++ [FailLink "a" "c"])))
    as Hf.
  { vm_compute. reflexivity. }
  split; [exact Hr|]. split; [exact Hnn|]. split; [exact He|]. split; [exact Hf|].
  split; [vm_compute; reflexivity|]. split; [vm_compute; reflexivity|].
  split.
  - exact (proj1
      (failure_reroutes_flows_through_both_endpoints "a" "c" _ Hr He) Hnn).
  - exact (proj2 (proj2 (proj2
      (failure_reroutes_flows_through_both_endpoints "a" "c" _ Hr He) _ _ Hf))).
Defined.

(** ** C5: a failed admission *)

(** C5: when an endpoint is absent, or both exist and the path selector
    finds no route, [inject_traffic_flow] reports the failure and returns
    the controller unchanged: same topology, same flows, same ledger. *)
Theorem inject_failure_leaves_state s d ty bw c :
  has_node (topology c) s = false ∨ has_node (topology c) d = false ∨
  compute_path (topology c) (link_utilization c) s d ty = Ok None →
  ∃ r, inject_traffic_flow s d ty bw c = Ok (r, c) ∧
       (r = EndpointDoesNotExist ∨ r = NoAvailablePath).
Proof.
  intros H. unfold inject_traffic_flow.
  destruct (has_node (topology c) s) eqn:Hs; simpl.
  - destruct (has_node (topology c) d) eqn:Hd; simpl.
    + destruct H as [?|[?|Hcp]]; [done..|]. rewrite Hcp. simpl. eauto.
    + eauto.
  - eauto.
Qed.

Lemma inject_failure_leaves_state_witness :
  compute_path (topology (state_after [AddNode "a"; AddNode "b"]))
    (link_utilization (state_after [AddNode "a"; AddNode "b"])) "a" "b" "data"
  = Ok None ∧
  ∃ r, inject_traffic_flow "a" "b" "data" 10 (state_after [AddNode "a"; AddNode "b"])
       = Ok (r, state_after [AddNode "a"; AddNode "b"]) ∧
       (r = EndpointDoesNotExist ∨ r = NoAvailablePath).
Proof.
  assert (compute_path (topology (state_after [AddNode "a"; AddNode "b"]))
            (link_utilization (state_after [AddNode "a"; AddNode "b"]))
            "a" "b" "data" = Ok None) as H.
  { vm_compute. reflexivity. }
  split; [exact H|].
  apply inject_failure_leaves_state. right. right. exact H.
Defined.

(** ** C6: failure and reroute on the a–b–c scenario *)

(** C6: with the flow of bandwidth 10 admitted on [a; b; c], the failure of
    the link a–b reroutes it on [a; c]; afterwards the entries (a, b) and
    (b, a) are gone, (a, c) and (c, a) hold 10, and (b, c) and (c, b) are
    back to 0. *)
Theorem failure_reroutes_abc :
  observe [("a", "b"); ("b", "a"); ("a", "c"); ("c", "a"); ("b", "c"); ("c", "b")]
    <$> session abc_scenario
  = Ok ([mkFlow "a" "c" "data" 10 ["a"; "b"; "c"]],
        [Some 10; Some 10; Some 0; Some 0; Some 10; Some 10]) ∧
  (c ← session abc_scenario;
   rc ← simulate_link_failure "a" "b" c;
   Ok (rc.1, observe [("a", "b"); ("b", "a"); ("a", "c"); ("c", "a");
                      ("b", "c"); ("c", "b")] rc.2))
  = Ok (LinkFailed,
        ([mkFlow "a" "c" "data" 10 ["a"; "c"]],
         [None; None; Some 10; Some 10; Some 0; Some 0])).
Proof. split; vm_compute; reflexivity. Qed.

(** ** C7: sign of the ledger values *)

(** C7 (fails on the code): the flow that cannot be rerouted keeps its
    stale path, and the second failure releases its bandwidth again: the
    entries of c–d end at -10. *)
Lemma ledger_negative_after_failures :
  observe [("c", "d"); ("d", "c")] <$> session double_failure
  = Ok ([mkFlow "a" "d" "data" 10 ["a"; "b"; "c"; "d"]], [Some (-10); Some (-10)]).
Proof. vm_compute. reflexivity. Qed.

Lemma exec_ledger_nonneg cmd c r c' :
  only_reserves cmd = true → ledger_nonneg c → exec cmd c = Ok (r, c') →
  ledger_nonneg c'.
Proof.
  intros Hcmd Hc.
  destruct cmd as [n|n|u v w|u v|s d ty bw|u v|s d]; simpl in *; [..|done|].
  - unfold add_node. destruct (has_node _ _); by intros [= <- <-].
  - unfold remove_node. destruct (negb _); by intros [= <- <-].
  - unfold add_link. destruct (_ || _); intros [= <- <-]; [done|].
    intros k x. simpl. rewrite !lookup_insert_Some.
    intros [[_ <-]|[_ [[_ <-]|[_ ?]]]]; [lia..|]. by eapply Hc.
  - unfold remove_link. destruct (negb _); intros [= <- <-]; [done|].
    intros k x. simpl. rewrite !lookup_delete_Some.
    intros [_ [_ ?]]. by eapply Hc.
  - apply bool_decide_eq_true in Hcmd. unfold inject_traffic_flow.
    destruct (_ || _); [by intros [= <- <-]|].
    destruct (compute_path _ _ _ _ _) as [[[|n q]|]| |]; simpl;
      try done; try by intros [= <- <-].
    destruct (reserve _ _ _) as [L'| |] eqn:Hres; simpl; [|done..].
    intros [= <- <-] k x. simpl. rewrite (reserve_lookup _ _ _ _ k Hres).
    destruct (link_utilization c !! k) as [y|] eqn:Hy; simpl; [|done].
    intros [= <-]. pose proof (Hc k y Hy). pose proof (uses_nonneg_path (n :: q) k).
    nia.
  - unfold query_routing. destruct (_ || _); [by intros [= <- <-]|].
    destruct (compute_path _ _ _ _ _); simpl; [|done..]. by intros [= <- <-].
Qed.

(** C7, amended: starting from the empty controller, after any sequence of
    addNode, removeNode, addLink, removeLink, query and inject_traffic_flow
    with a non-negative bandwidth, every ledger value is non-negative. *)
Theorem ledger_nonneg_without_failures cmds c :
  forallb only_reserves cmds = true → session cmds = Ok c → ledger_nonneg c.
Proof.
  intros Hcmds Hrun. unfold session, run in Hrun.
  assert (ledger_nonneg init) as Hinit.
  { intros k x. simpl. by rewrite lookup_empty. }
  revert Hinit Hrun. generalize init.
  induction cmds as [|cmd cmds IH]; intros c0 Hc0; simpl.
  - by intros [= <-].
  - simpl in Hcmds. apply andb_true_iff in Hcmds as [Hcmd Hcmds].
    intros (c1 & Hstep & Hrest)%bind_Ok.
    apply bind_Ok in Hstep as ([r c1'] & Hex & [= <-]).
    eapply (IH Hcmds c1'); [|done]. by eapply exec_ledger_nonneg.
Qed.

Lemma ledger_nonneg_without_failures_witness :
  forallb only_reserves abc_scenario = true ∧
  session abc_scenario = Ok (state_after abc_scenario) ∧
  ledger_nonneg (state_after abc_scenario).
Proof.
  assert (forallb only_reserves abc_scenario = true) as H1 by reflexivity.
  assert (session abc_scenario = Ok (state_after abc_scenario)) as H2.
  { vm_compute. reflexivity. }
  split; [exact H1|]. split; [exact H2|].
  exact (ledger_nonneg_without_failures _ _ H1 H2).
Defined.

(** ** C8: (re)creating a link resets its ledger entries *)

Lemma has_edge_has_nodes G u v :
  wf_graph G → has_edge G u v = true →
  has_node G u = true ∧ has_node G v = true.
Proof.
  intros Hwf [w Hw]%has_edge_true. split.
  - by eapply edge_weight_has_node.
  - eapply edge_weight_has_node. by eapply wf_graph_sym.
Qed.

(** When [u] and [v] are nodes of the topology (as they are whenever the
    link u–v exists), [add_link u v w] alone, and [remove_link u v]
    followed by [add_link u v w], both leave the ledger entries (u, v) and
    (v, u) equal to 0, whatever they held before. *)
Lemma add_link_resets_ledger u v w c :
  (has_node (topology c) u = true ∧ has_node (topology c) v = true) ∨
  (wf_graph (topology c) ∧ has_edge (topology c) u v = true) →
  both_zero u v (add_link u v w c).2 ∧
  both_zero u v (add_link u v w (remove_link u v c).2).2.
Proof.
  intros H.
  assert (has_node (topology c) u = true ∧ has_node (topology c) v = true)
    as [Hu Hv].
  { destruct H as [?|[? ?]]; [done|]. by apply has_edge_has_nodes. }
  assert (∀ c0, has_node (topology c0) u = true → has_node (topology c0) v = true →
                both_zero u v (add_link u v w c0).2) as Hadd.
  { intros c0 Hu0 Hv0. unfold add_link. rewrite Hu0, Hv0. simpl.
    split; simpl.
    - rewrite lookup_insert. case_decide; [done|]. by rewrite lookup_insert_eq.
    - by rewrite lookup_insert_eq. }
  split; [by apply Hadd|]. apply Hadd.
  - unfold remove_link. destruct (negb _); simpl; [done|].
    by rewrite has_node_remove_edge.
  - unfold remove_link. destruct (negb _); simpl; [done|].
    by rewrite has_node_remove_edge.
Qed.

(** C8 (fails on the code): after [remove node a] the entries (a, b) and
    (b, a) of the removed link a–b are still in the ledger, holding the
    10 of the flow (the defect of C2: [remove_node] does not pop them as
    [remove_link] does).  [remove_link a b] then finds no link and
    [add_link a b] no node a, so the round trip leaves the two entries at
    10 where they are to read 0. *)
Theorem round_trip_on_missing_node :
  session stale_scenario = Ok (state_after stale_scenario) ∧
  (remove_link "a" "b" (state_after stale_scenario)).1 = LinkDoesNotExist ∧
  (add_link "a" "b" 1 (remove_link "a" "b" (state_after stale_scenario)).2).1
  = NodesDoNotExist ∧
  (observe [("a", "b"); ("b", "a")]
     (add_link "a" "b" 1 (remove_link "a" "b" (state_after stale_scenario)).2).2).2
  = [Some 10; Some 10].
Proof. split_and!; vm_compute; reflexivity. Qed.

(** ** C9: every link has its two ledger entries *)

(** C9: in every state reached by a session, each link of the topology has
    both directional ledger entries; hence neither an admission nor the
    handling of a link failure ever raises [KeyError]: the unguarded
    updates of the ledger always find their key. *)
Theorem links_have_ledger_entries c :
  reachable c →
  (∀ u v, has_edge (topology c) u v = true →
     is_Some (link_utilization c !! (u, v)) ∧
     is_Some (link_utilization c !! (v, u))) ∧
  (∀ s d ty bw, inject_traffic_flow s d ty bw c ≠ Raise KeyError) ∧
  (∀ u v, simulate_link_failure u v c ≠ Raise KeyError).
Proof.
  intros Hc%reachable_inv. split_and!.
  - intros u v [w Hw]%has_edge_true. destruct Hc as [Hwf Hcov _].
    split; apply Hcov; [by eexists|]. eexists. by apply wf_graph_sym.
  - intros s d ty bw Heq. pose proof (inject_post s d ty bw c Hc) as H.
    rewrite Heq in H. done.
  - intros u v Heq. pose proof (failure_post u v c Hc) as H.
    rewrite Heq in H. done.
Qed.

Lemma links_have_ledger_entries_witness :
  reachable (state_after abc_scenario) ∧
  (∀ s d ty bw,
     inject_traffic_flow s d ty bw (state_after abc_scenario) ≠ Raise KeyError).
Proof.
  assert (reachable (state_after abc_scenario)) as H.
  { exists abc_scenario. vm_compute. reflexivity. }
  split; [exact H|].
  exact (proj1 (proj2 (links_have_ledger_entries _ H))).
Defined.

(** ** C10: a flow from a node to itself *)

(** C10 (fails on the code): the search from [s] scans the whole component
    of [s] even when the destination is [s] itself; a negative weight there
    makes the admission end on [ValueError]. *)
Lemma inject_self_negative_weight :
  inject_traffic_flow "s" "s" "data" 5
    (state_after [AddNode "s"; AddNode "t"; AddLink "s" "t" (-1)])
  = Raise ValueError.
Proof. vm_compute. reflexivity. Qed.

(** C10, amended: in a state whose weights are all non-negative, for every
    node [s] of the topology, [inject_traffic_flow s s] succeeds: it
    appends a flow whose path is [[s]] and leaves the topology and every
    ledger entry as they were. *)
Theorem inject_self_flow s ty bw c :
  wf_graph (topology c) → nonneg_weights (topology c) →
  has_node (topology c) s = true →
  inject_traffic_flow s s ty bw c
  = Ok (Injected [s],
        mkSDN (topology c) (flows c ++ [mkFlow s s ty bw [s]])
              (link_utilization c)).
Proof.
  intros Hwf Hnn Hs. unfold inject_traffic_flow. rewrite Hs. simpl.
  destruct (compute_path_optimal (topology c) (link_utilization c) s s ty Hwf Hnn)
    as [(p & -> & Hpath & _)|[_ [?|[?|Hno]]]]; [|congruence..|].
  - apply is_path_self in Hpath as ->. done.
  - exfalso. by eapply Hno, is_path_single.
Qed.

Lemma inject_self_flow_witness :
  wf_graph (topology (state_after abc_scenario)) ∧
  nonneg_weights (topology (state_after abc_scenario)) ∧
  has_node (topology (state_after abc_scenario)) "b" = true ∧
  inject_traffic_flow "b" "b" "voice" 3 (state_after abc_scenario)
  = Ok (Injected ["b"],
        mkSDN (topology (state_after abc_scenario))
              (flows (state_after abc_scenario)
                 ++ [mkFlow "b" "b" "voice" 3 ["b"]])
              (link_utilization (state_after abc_scenario))).
Proof.
  assert (wf_graph (topology (state_after abc_scenario))) as Hwf.
  { apply (bool_decide_unpack _). vm_compute. exact I. }
  assert (nonneg_weights (topology (state_after abc_scenario))) as Hnn.
  { apply (bool_decide_unpack _). vm_compute. exact I. }
  assert (has_node (topology (state_after abc_scenario)) "b" = true) as Hb.
  { vm_compute. reflexivity. }
  split; [exact Hwf|]. split; [exact Hnn|]. split; [exact Hb|].
  exact (inject_self_flow "b" "voice" 3 _ Hwf Hnn Hb).
Defined.

(** * Further properties

    Properties of the controller, of the search it relies on, of [main]
    and of [visualize] that the claims leave out: X1, X2, ... *)

(** ** Loops and sessions *)

Lemma for_each_app {A S} (f : S → A → result S) l1 l2 st st' :
  for_each f st (l1 ++ l2) = Ok st' ↔
  ∃ st1, for_each f st l1 = Ok st1 ∧ for_each f st1 l2 = Ok st'.
Proof.
  revert st. induction l1 as [|x l1 IH]; intros st; simpl.
  - split; [eauto|]. by intros (? & [= <-] & ?).
  - rewrite bind_Ok. split.
    + intros (a & Ha & (st1 & ? & ?)%IH). exists st1. rewrite bind_Ok. eauto.
    + intros (st1 & (a & ? & ?)%bind_Ok & ?). exists a. split; [done|].
      apply IH. eauto.
Qed.

Lemma for_each_invariant {A S} (I : S → Prop) (f : S → A → result S) l st st' :
  (∀ st x st', x ∈ l → I st → f st x = Ok st' → I st') →
  I st → for_each f st l = Ok st' → I st'.
Proof.
  revert st. induction l as [|x l IH]; intros st Hf Hst; simpl.
  - by intros [= <-].
  - intros (st1 & H1 & H2)%bind_Ok. eapply IH; [| |done].
    + intros ????. apply Hf. by right.
    + eapply Hf; [left|done..].
Qed.

Lemma for_each_ext {A S} (f g : S → A → result S) l st :
  (∀ st x, f st x = g st x) → for_each f st l = for_each g st l.
Proof.
  intros Hfg. revert st. induction l as [|x l IH]; intros st; simpl; [done|].
  rewrite Hfg. destruct (g st x); simpl; auto.
Qed.

Lemma run_invariant (ok : command → bool) (I : SDNController → Prop) :
  (∀ cmd c r c', ok cmd = true → I c → exec cmd c = Ok (r, c') → I c') →
  ∀ cmds c c', forallb ok cmds = true → I c → run cmds c = Ok c' → I c'.
Proof.
  intros Hstep cmds. induction cmds as [|cmd cmds IH]; intros c c'; simpl.
  - by intros _ ? [= <-].
  - intros [Hok Hoks]%andb_prop Hc. unfold run. simpl.
    intros (c1 & ([r c1'] & Hex & [= <-])%bind_Ok & Hrun)%bind_Ok.
    eapply IH; [done| |exact Hrun]. eauto.
Qed.

Lemma run_invariant_all (I : SDNController → Prop) :
  (∀ cmd c r c', I c → exec cmd c = Ok (r, c') → I c') →
  ∀ cmds c c', I c → run cmds c = Ok c' → I c'.
Proof.
  intros Hstep cmds c c'.
  apply (run_invariant (λ _, true) I); [by eauto|].
  by induction cmds.
Qed.

Lemma run_Ok_inv cmds c c' : ctrl_inv c → run cmds c = Ok c' → ctrl_inv c'.
Proof. intros Hi Hr. pose proof (run_post cmds c Hi) as H. by rewrite Hr in H. Qed.

Lemma exec_Ok_inv cmd c r c' : ctrl_inv c → exec cmd c = Ok (r, c') → ctrl_inv c'.
Proof. intros Hi Hr. pose proof (exec_post cmd c Hi) as H. by rewrite Hr in H. Qed.

Lemma run_snoc cmds cmd c c1 r c2 :
  run cmds c = Ok c1 → exec cmd c1 = Ok (r, c2) → run (cmds ++ [cmd]) c = Ok c2.
Proof.
  intros H1 H2. unfold run. apply for_each_app. exists c1. split; [done|].
  simpl. by rewrite H2.
Qed.

(** ** The topology store *)

(** X1: [add_node] on a node that exists reports it and changes nothing
    (its links stay); on a new node it adds that node and nothing else:
    the other nodes, every link with its weight, the flows and the ledger
    are as they were. *)
Theorem add_node_keeps_links n c :
  (∀ x, has_node (topology (add_node n c).2) x = true
        ↔ x = n ∨ has_node (topology c) x = true) ∧
  (∀ a b, edge_weight (topology (add_node n c).2) a b
          = edge_weight (topology c) a b) ∧
  flows (add_node n c).2 = flows c ∧
  link_utilization (add_node n c).2 = link_utilization c ∧
  ((add_node n c).1 = NodeAlreadyExists ↔ has_node (topology c) n = true) ∧
  (has_node (topology c) n = true → (add_node n c).2 = c).
Proof.
  unfold add_node. destruct (has_node (topology c) n) eqn:Hn; simpl.
  - split_and!; try done. intros x. split; [auto|]. by intros [->|?].
  - split_and!; try done.
    + intros x. apply has_node_add_node.
    + intros a b. apply edge_weight_add_node.
Qed.

(** X2: on a well-formed topology, [remove_node] of an existing node
    removes the node and exactly the links that end at it, in both
    directions; every other link keeps its weight, the topology stays
    well-formed, and neither the flows nor the ledger are touched. *)
Theorem remove_node_removes_incident_links n c :
  wf_graph (topology c) → has_node (topology c) n = true →
  (remove_node n c).1 = Silent ∧
  (∀ x, has_node (topology (remove_node n c).2) x = true
        ↔ x ≠ n ∧ has_node (topology c) x = true) ∧
  (∀ a b, edge_weight (topology (remove_node n c).2) a b
          = if decide (a = n ∨ b = n) then None
            else edge_weight (topology c) a b) ∧
  wf_graph (topology (remove_node n c).2) ∧
  flows (remove_node n c).2 = flows c ∧
  link_utilization (remove_node n c).2 = link_utilization c.
Proof.
  intros Hwf Hn. unfold remove_node. rewrite Hn. simpl.
  split_and!; try done.
  - intros x. by apply has_node_remove_node.
  - intros a b. by apply edge_weight_remove_node.
  - by apply wf_remove_node.
Qed.

Lemma remove_node_removes_incident_links_witness :
  wf_graph (topology (state_after abc_scenario)) ∧
  has_node (topology (state_after abc_scenario)) "b" = true ∧
  has_edge (topology (state_after abc_scenario)) "a" "b" = true ∧
  edge_weight (topology (remove_node "b" (state_after abc_scenario)).2) "a" "b"
  = None ∧
  link_utilization (remove_node "b" (state_after abc_scenario)).2
  = link_utilization (state_after abc_scenario).
Proof.
  assert (wf_graph (topology (state_after abc_scenario))) as Hwf.
  { apply (bool_decide_unpack _). vm_compute. exact I. }
  assert (has_node (topology (state_after abc_scenario)) "b" = true) as Hn.
  { vm_compute. reflexivity. }
  split; [exact Hwf|]. split; [exact Hn|]. split; [vm_compute; reflexivity|].
  split.
  - exact (proj1 (proj2 (proj2
      (remove_node_removes_incident_links "b" _ Hwf Hn))) "a" "b").
  - exact (proj2 (proj2 (proj2 (proj2 (proj2
      (remove_node_removes_incident_links "b" _ Hwf Hn)))))).
Defined.

(** X3: [add_link u v w] between existing nodes sets the weight of u–v
    to [w] in both directions, overwriting a former weight; it keeps every
    other link and the nodes, sets the two ledger entries of the link to 0
    without touching another entry, and keeps the flows. *)
Theorem add_link_sets_weight_both_ways u v w c :
  has_node (topology c) u = true → has_node (topology c) v = true →
  (add_link u v w c).1 = Silent ∧
  (∀ a b, edge_weight (topology (add_link u v w c).2) a b
          = if decide ((a = u ∧ b = v) ∨ (a = v ∧ b = u)) then Some w
            else edge_weight (topology c) a b) ∧
  (∀ x, has_node (topology (add_link u v w c).2) x = has_node (topology c) x) ∧
  (∀ a b, link_utilization (add_link u v w c).2 !! (a, b)
          = if decide ((a = u ∧ b = v) ∨ (a = v ∧ b = u)) then Some 0
            else link_utilization c !! (a, b)) ∧
  flows (add_link u v w c).2 = flows c.
Proof.
  intros Hu Hv. unfold add_link. rewrite Hu, Hv. simpl.
  split_and!; try done.
  - intros a b. apply edge_weight_add_edge.
  - intros x. apply eq_true_iff_eq. rewrite has_node_add_edge.
    split; [|auto]. by intros [->|[->|?]].
  - intros a b. case_decide as Hab.
    + destruct (decide ((v, u) = (a, b))) as [->|Hne].
      * by rewrite lookup_insert_eq.
      * rewrite lookup_insert_ne by done.
        destruct Hab as [[-> ->]|[-> ->]]; [|done]. by rewrite lookup_insert_eq.
    + rewrite !lookup_insert_ne; [done|intros [= -> ->]; tauto..].
Qed.

Lemma add_link_sets_weight_both_ways_witness :
  has_node (topology (state_after abc_scenario)) "a" = true ∧
  has_node (topology (state_after abc_scenario)) "b" = true ∧
  edge_weight (topology (state_after abc_scenario)) "b" "a" = Some 1 ∧
  edge_weight (topology (add_link "a" "b" 7 (state_after abc_scenario)).2) "b" "a"
  = Some 7 ∧
  flows (add_link "a" "b" 7 (state_after abc_scenario)).2
  = flows (state_after abc_scenario).
Proof.
  assert (has_node (topology (state_after abc_scenario)) "a" = true) as Ha.
  { vm_compute. reflexivity. }
  assert (has_node (topology (state_after abc_scenario)) "b" = true) as Hb.
  { vm_compute. reflexivity. }
  split; [exact Ha|]. split; [exact Hb|]. split; [vm_compute; reflexivity|].
  split.
  - exact (proj1 (proj2
      (add_link_sets_weight_both_ways "a" "b" 7 _ Ha Hb)) "b" "a").
  - exact (proj2 (proj2 (proj2 (proj2
      (add_link_sets_weight_both_ways "a" "b" 7 _ Ha Hb))))).
Defined.

(** X4: [remove_link u v] on an existing link removes the link in
    both directions, with its two ledger entries; the other links, the
    nodes, the other ledger entries and the flows are as before. *)
Theorem remove_link_removes_both_directions u v c :
  has_edge (topology c) u v = true →
  (remove_link u v c).1 = Silent ∧
  (∀ a b, edge_weight (topology (remove_link u v c).2) a b
          = if decide ((a = u ∧ b = v) ∨ (a = v ∧ b = u)) then None
            else edge_weight (topology c) a b) ∧
  (∀ x, has_node (topology (remove_link u v c).2) x = has_node (topology c) x) ∧
  (∀ a b, link_utilization (remove_link u v c).2 !! (a, b)
          = if decide ((a = u ∧ b = v) ∨ (a = v ∧ b = u)) then None
            else link_utilization c !! (a, b)) ∧
  flows (remove_link u v c).2 = flows c.
Proof.
  intros He. unfold remove_link. rewrite He. simpl.
  split_and!; try done.
  - intros a b. apply edge_weight_remove_edge.
  - intros x. apply has_node_remove_edge.
  - intros a b. case_decide as Hab.
    + destruct (decide ((v, u) = (a, b))) as [->|Hne].
      * by rewrite lookup_delete_eq.
      * rewrite lookup_delete_ne by done.
        destruct Hab as [[-> ->]|[-> ->]]; [|done]. by rewrite lookup_delete_eq.
    + rewrite !lookup_delete_ne; [done|intros [= -> ->]; tauto..].
Qed.

Lemma remove_link_removes_both_directions_witness :
  has_edge (topology (state_after abc_scenario)) "a" "b" = true ∧
  edge_weight (topology (remove_link "a" "b" (state_after abc_scenario)).2) "b" "a"
  = None ∧
  link_utilization (remove_link "a" "b" (state_after abc_scenario)).2 !! ("b", "a")
  = None.
Proof.
  assert (has_edge (topology (state_after abc_scenario)) "a" "b" = true) as He.
  { vm_compute. reflexivity. }
  split; [exact He|]. split.
  - exact (proj1 (proj2
      (remove_link_removes_both_directions "a" "b" _ He)) "b" "a").
  - exact (proj1 (proj2 (proj2 (proj2
      (remove_link_removes_both_directions "a" "b" _ He)))) "b" "a").
Defined.

Lemma Graph_eq G1 G2 : (∀ x, adj G1 !! x = adj G2 !! x) → G1 = G2.
Proof. destruct G1, G2. simpl. intros H. f_equal. by apply map_eq. Qed.

Lemma add_edge_sym G u v w : add_edge G u v w = add_edge G v u w.
Proof.
  apply Graph_eq. intros x. rewrite !lookup_add_edge.
  repeat case_decide; subst; try tauto; try done.
Qed.

Lemma remove_edge_sym G u v : remove_edge G u v = remove_edge G v u.
Proof.
  apply Graph_eq. intros x. rewrite !lookup_remove_edge.
  destruct (adj G !! x) as [l|]; [|done]. simpl.
  repeat case_decide; subst; done.
Qed.

Lemma has_edge_sym G u v : wf_graph G → has_edge G u v = has_edge G v u.
Proof.
  intros Hwf. apply eq_true_iff_eq. rewrite !has_edge_true.
  split; intros [w Hw]; exists w; by apply wf_graph_sym.
Qed.

(** X5: links are undirected: on a well-formed topology [add_link],
    [remove_link] and [simulate_link_failure] leave the same state and
    print the same kind of message whichever endpoint is named first (the
    message names the endpoints in the order given). *)
Theorem links_are_undirected u v w c :
  wf_graph (topology c) →
  add_link u v w c = add_link v u w c ∧
  remove_link u v c = remove_link v u c ∧
  simulate_link_failure u v c = simulate_link_failure v u c.
Proof.
  intros Hwf.
  assert (remove_link u v c = remove_link v u c) as Hrm.
  { unfold remove_link. rewrite (has_edge_sym _ v u Hwf).
    destruct (has_edge _ _ _); simpl; [|done].
    by rewrite remove_edge_sym, delete_delete. }
  split_and!; [|done|].
  - unfold add_link. rewrite (orb_comm (negb (has_node _ v))).
    destruct (_ || _); [done|]. rewrite add_edge_sym. do 2 f_equal.
    destruct (decide ((u, v) = (v, u))) as [[= ->]|?]; [done|].
    by apply insert_insert_ne.
  - unfold simulate_link_failure. rewrite (has_edge_sym _ v u Hwf), Hrm.
    destruct (has_edge _ _ _); simpl; [|done].
    erewrite for_each_ext; [done|].
    intros st f. unfold reroute_flow. by rewrite andb_comm.
Qed.

Lemma links_are_undirected_witness :
  wf_graph (topology (state_after abc_scenario)) ∧
  simulate_link_failure "a" "b" (state_after abc_scenario)
  = simulate_link_failure "b" "a" (state_after abc_scenario).
Proof.
  assert (wf_graph (topology (state_after abc_scenario))) as Hwf.
  { apply (bool_decide_unpack _). vm_compute. exact I. }
  split; [exact Hwf|].
  exact (proj2 (proj2 (links_are_undirected "a" "b" 0 _ Hwf))).
Defined.

(** X6: in every state a session can reach the topology is an
    undirected graph without dangling links: a link has the same weight
    in both directions, and both of its ends are nodes (so [remove_node]
    has taken the links of a removed node out of the adjacency of its
    neighbours). *)
Theorem topology_stays_an_undirected_graph c u v :
  reachable c →
  edge_weight (topology c) u v = edge_weight (topology c) v u ∧
  (has_edge (topology c) u v = true →
   has_node (topology c) u = true ∧ has_node (topology c) v = true).
Proof.
  intros [Hwf _ _]%reachable_inv.
  assert (∀ a b w, edge_weight (topology c) a b = Some w →
            edge_weight (topology c) b a = Some w) as Hsym.
  { intros a b w. by apply wf_graph_sym. }
  split.
  - destruct (edge_weight (topology c) u v) as [w|] eqn:Huv.
    + symmetry. by apply Hsym.
    + destruct (edge_weight (topology c) v u) as [w|] eqn:Hvu; [|done].
      apply Hsym in Hvu. congruence.
  - intros [w Hw]%has_edge_true. split.
    + by eapply edge_weight_has_node.
    + eapply edge_weight_has_node. by apply Hsym.
Qed.

Lemma topology_stays_an_undirected_graph_witness :
  reachable (state_after stale_scenario) ∧
  has_node (topology (state_after stale_scenario)) "a" = false ∧
  edge_weight (topology (state_after stale_scenario)) "b" "a"
  = edge_weight (topology (state_after stale_scenario)) "a" "b".
Proof.
  assert (reachable (state_after stale_scenario)) as Hr.
  { exists stale_scenario. vm_compute. reflexivity. }
  split; [exact Hr|]. split; [vm_compute; reflexivity|].
  exact (proj1 (topology_stays_an_undirected_graph _ "b" "a" Hr)).
Defined.

(** ** The ledger *)

Lemma hits_sym l a b : hits l (a, b) = hits l (b, a).
Proof.
  induction l as [|[x y] l IH]; simpl; [done|]. rewrite IH.
  repeat case_decide; simplify_eq; lia.
Qed.

Lemma uses_sym p a b : uses p (a, b) = uses p (b, a).
Proof. apply hits_sym. Qed.

Lemma reserve_symmetric bw L p L' :
  ledger_symmetric L → reserve bw L p = Ok L' → ledger_symmetric L'.
Proof.
  intros Hs Hr a b.
  by rewrite !(reserve_lookup _ _ _ _ _ Hr), Hs, uses_sym.
Qed.

Lemma release_symmetric bw L p :
  ledger_symmetric L → ledger_symmetric (release bw L p).
Proof. intros Hs a b. by rewrite !release_lookup, Hs, uses_sym. Qed.

Lemma reroute_flow_symmetric u v G st f st' :
  ledger_symmetric st.2 → reroute_flow u v G st f = Ok st' →
  ledger_symmetric st'.2.
Proof.
  intros Hs. unfold reroute_flow. destruct (_ && _); [|by intros [= <-]].
  intros (op & Hop & Hrest)%bind_Ok.
  pose proof (release_symmetric (bandwidth f) _ (flow_path f) Hs) as Hs'.
  destruct op as [[|x p]|]; [by injection Hrest as <-| |by injection Hrest as <-].
  apply bind_Ok in Hrest as (L' & Hres & [= <-]). simpl.
  by eapply reserve_symmetric.
Qed.

Lemma remove_link_symmetric u v c :
  ledger_symmetric (link_utilization c) →
  ledger_symmetric (link_utilization (remove_link u v c).2).
Proof.
  intros Hs. unfold remove_link. destruct (negb _); [done|]. simpl.
  intros a b. rewrite !lookup_delete.
  repeat case_decide; simplify_eq; try done; try apply Hs.
Qed.

Lemma exec_symmetric cmd c r c' :
  ledger_symmetric (link_utilization c) → exec cmd c = Ok (r, c') →
  ledger_symmetric (link_utilization c').
Proof.
  intros Hs. destruct cmd as [n|n|u v w|u v|s d ty bw|u v|s d]; simpl.
  - unfold add_node. by destruct (has_node _ _); intros [= _ <-].
  - unfold remove_node. by destruct (negb _); intros [= _ <-].
  - unfold add_link. destruct (_ || _); intros [= _ <-]; [done|]. simpl.
    intros a b. rewrite !lookup_insert.
    repeat case_decide; simplify_eq; try done; try apply Hs.
  - intros [= Heq]. pose proof (remove_link_symmetric u v c Hs) as H.
    by rewrite Heq in H.
  - unfold inject_traffic_flow. destruct (_ || _); [by intros [= _ <-]|].
    intros (op & Hop & Hrest)%bind_Ok.
    destruct op as [[|x p]|]; [by injection Hrest as _ <-| |by injection Hrest as _ <-].
    apply bind_Ok in Hrest as (L' & Hres & [= _ <-]). simpl.
    by eapply reserve_symmetric.
  - unfold simulate_link_failure. destruct (negb _); [by intros [= _ <-]|].
    intros (st & Hst & [= _ <-])%bind_Ok. simpl.
    eapply (for_each_invariant (λ st, ledger_symmetric st.2)); [| |exact Hst].
    + intros ??? _. apply reroute_flow_symmetric.
    + by apply remove_link_symmetric.
  - unfold query_routing. destruct (_ || _); [by intros [= _ <-]|].
    by intros (op & Hop & [= _ <-])%bind_Ok.
Qed.

Lemma init_symmetric : ledger_symmetric (link_utilization init).
Proof. intros a b. unfold init. simpl. by rewrite !lookup_empty. Qed.

(** The same, on the states of a session. *)
Lemma reachable_symmetric c :
  reachable c → ledger_symmetric (link_utilization c).
Proof.
  intros [cmds Hc].
  apply (run_invariant_all (λ c, ledger_symmetric (link_utilization c))
           exec_symmetric cmds init c init_symmetric Hc).
Qed.

(** X7: in every state a session can reach, the two directions of a
    link have the same ledger entry: the same value, or no entry in either
    direction. *)
Theorem ledger_is_symmetric c a b :
  reachable c → link_utilization c !! (a, b) = link_utilization c !! (b, a).
Proof.
  intros [cmds Hc]. revert a b.
  change (ledger_symmetric (link_utilization c)). revert c Hc.
  induction cmds as [|cmd cmds IH] using rev_ind; intros c.
  - intros [= <-]. apply init_symmetric.
  - intros (c1 & Hc1 & Hlast)%for_each_app. simpl in Hlast.
    apply bind_Ok in Hlast as (c2 & Hstep & [= <-]).
    apply bind_Ok in Hstep as ([r c3] & Hex & [= <-]).
    eapply exec_symmetric; [|exact Hex]. by apply IH.
Qed.

Lemma ledger_is_symmetric_witness :
  reachable (state_after abc_scenario) ∧
  link_utilization (state_after abc_scenario) !! ("a", "b") = Some 10 ∧
  link_utilization (state_after abc_scenario) !! ("a", "b")
  = link_utilization (state_after abc_scenario) !! ("b", "a").
Proof.
  assert (reachable (state_after abc_scenario)) as Hr.
  { exists abc_scenario. vm_compute. reflexivity. }
  split; [exact Hr|]. split; [vm_compute; reflexivity|].
  exact (ledger_is_symmetric _ "a" "b" Hr).
Defined.

Lemma reroute_flow_dom u v G st f st' k :
  reroute_flow u v G st f = Ok st' →
  is_Some (st'.2 !! k) ↔ is_Some (st.2 !! k).
Proof.
  unfold reroute_flow. destruct (_ && _); [|by intros [= <-]].
  intros (op & Hop & Hrest)%bind_Ok.
  destruct op as [[|x p]|];
    [injection Hrest as <-; apply release_dom|
    |injection Hrest as <-; apply release_dom].
  apply bind_Ok in Hrest as (L' & Hres & [= <-]). simpl.
  by rewrite (reserve_dom _ _ _ _ k Hres), release_dom.
Qed.

Lemma exec_ledger_within cmd c r c' :
  keeps_nodes cmd = true →
  ledger_within (topology c) (link_utilization c) → exec cmd c = Ok (r, c') →
  ledger_within (topology c') (link_utilization c').
Proof.
  intros Hk Hin. destruct cmd as [n|n|u v w|u v|s d ty bw|u v|s d]; simpl.
  - unfold add_node. destruct (has_node _ _); intros [= _ <-]; [done|]. simpl.
    intros a b. rewrite edge_weight_add_node. apply Hin.
  - done.
  - unfold add_link. destruct (_ || _); intros [= _ <-]; [done|]. simpl.
    intros a b. rewrite edge_weight_add_edge, !lookup_insert_is_Some'.
    case_decide as Hab; [by eexists|].
    intros [[= <- <-]|[[= <- <-]|?]]; [tauto..|]. by apply Hin.
  - unfold remove_link. destruct (negb _); intros [= _ <-]; [done|]. simpl.
    intros a b. rewrite edge_weight_remove_edge, !lookup_delete_is_Some.
    intros (? & ? & ?). rewrite decide_False; [by apply Hin|].
    intros [[-> ->]|[-> ->]]; done.
  - unfold inject_traffic_flow. destruct (_ || _); [by intros [= _ <-]|].
    intros (op & Hop & Hrest)%bind_Ok.
    destruct op as [[|x p]|]; [by injection Hrest as _ <-| |by injection Hrest as _ <-].
    apply bind_Ok in Hrest as (L' & Hres & [= _ <-]). simpl.
    intros a b. rewrite (reserve_dom _ _ _ _ _ Hres). apply Hin.
  - unfold simulate_link_failure.
    destruct (negb _) eqn:He; [by intros [= _ <-]|].
    intros (st & Hst & [= _ <-])%bind_Ok. simpl.
    assert (ledger_within (topology (remove_link u v c).2)
              (link_utilization (remove_link u v c).2)) as Hin1.
    { unfold remove_link. rewrite He. simpl.
      intros a b. rewrite edge_weight_remove_edge, !lookup_delete_is_Some.
      intros (? & ? & ?). rewrite decide_False; [by apply Hin|].
      intros [[-> ->]|[-> ->]]; done. }
    revert Hst.
    apply (for_each_invariant
             (λ st, ledger_within (topology (remove_link u v c).2) st.2));
      [|done].
    intros st0 f st1 _ Hst0 Hf a b.
    rewrite (reroute_flow_dom _ _ _ _ _ _ _ Hf). apply Hst0.
  - unfold query_routing. destruct (_ || _); [by intros [= _ <-]|].
    by intros (op & Hop & [= _ <-])%bind_Ok.
Qed.

(** X8: as long as no [remove node] is run, the ledger has an entry
    for (a, b) exactly when the topology has the link a–b. *)
Theorem ledger_keys_are_links cmds c a b :
  forallb keeps_nodes cmds = true → session cmds = Ok c →
  is_Some (link_utilization c !! (a, b)) ↔ has_edge (topology c) a b = true.
Proof.
  intros Hok Hc. rewrite has_edge_true. split.
  - revert a b.
    refine (run_invariant keeps_nodes
              (λ c, ledger_within (topology c) (link_utilization c))
              _ cmds init c Hok _ Hc).
    + intros cmd c0 r c1. apply exec_ledger_within.
    + intros a b. unfold init. simpl. rewrite lookup_empty. by intros [? ?].
  - apply reachable_inv. by exists cmds.
Qed.

Lemma ledger_keys_are_links_witness :
  forallb keeps_nodes abc_scenario = true ∧
  session abc_scenario = Ok (state_after abc_scenario) ∧
  (is_Some (link_utilization (state_after abc_scenario) !! ("a", "d"))
   ↔ has_edge (topology (state_after abc_scenario)) "a" "d" = true).
Proof.
  assert (forallb keeps_nodes abc_scenario = true) as Hk by (vm_compute; reflexivity).
  assert (session abc_scenario = Ok (state_after abc_scenario)) as Hs
    by (vm_compute; reflexivity).
  split; [exact Hk|]. split; [exact Hs|].
  exact (ledger_keys_are_links abc_scenario _ "a" "d" Hk Hs).
Defined.

Lemma load_snoc fl f k :
  load (fl ++ [f]) k = load fl k + (if crosses k f then bandwidth f else 0).
Proof.
  unfold load. induction fl as [|g fl IH]; simpl; [lia|]. rewrite IH. lia.
Qed.

Lemma uses_crosses f a b :
  NoDup (flow_path f) →
  uses (flow_path f) (a, b) = if crosses (a, b) f then 1 else 0.
Proof.
  intros Hnd. unfold crosses. simpl.
  destruct (bool_decide_reflect ((a, b) ∈ hops (flow_path f))) as [Hab|Hab]; simpl.
  { by destruct (uses_NoDup _ _ _ Hnd Hab). }
  destruct (bool_decide_reflect ((b, a) ∈ hops (flow_path f))) as [Hba|Hba]; simpl.
  { by destruct (uses_NoDup _ _ _ Hnd Hba). }
  by apply hits_zero.
Qed.

Lemma exec_accounts cmd c r c' :
  keeps_entries cmd = true → ledger_accounts c → exec cmd c = Ok (r, c') →
  ledger_accounts c'.
Proof.
  intros Hk Hacc. destruct cmd as [n|n|u v w|u v|s d ty bw|u v|s d]; simpl;
    try done.
  - unfold add_node. by destruct (has_node _ _); intros [= _ <-].
  - unfold remove_node. by destruct (negb _); intros [= _ <-].
  - unfold remove_link. destruct (negb _); intros [= _ <-]; [done|].
    intros k x. simpl. rewrite !lookup_delete_Some. intros (_ & _ & ?).
    by apply Hacc.
  - unfold inject_traffic_flow. destruct (_ || _); [by intros [= _ <-]|].
    intros (op & Hop & Hrest)%bind_Ok.
    destruct op as [[|y p]|]; [by injection Hrest as _ <-| |by injection Hrest as _ <-].
    apply bind_Ok in Hrest as (L' & Hres & [= _ <-]).
    intros [a b] x. simpl. rewrite (reserve_lookup _ _ _ _ _ Hres), load_snoc.
    destruct (link_utilization c !! (a, b)) as [x0|] eqn:Hx0; [|done].
    simpl. intros [= <-]. rewrite (Hacc _ _ Hx0).
    apply compute_path_NoDup in Hop as (Hnd & _).
    pose proof (uses_crosses (mkFlow s d ty bw (y :: p)) a b Hnd) as Hu.
    simpl in Hu. rewrite Hu. by destruct (crosses _ _); lia.
  - unfold query_routing. destruct (_ || _); [by intros [= _ <-]|].
    by intros (op & Hop & [= _ <-])%bind_Ok.
Qed.

Lemma exec_idle cmd c r c' :
  is_topology_command cmd = true →
  flows c = [] ∧ (∀ k x, link_utilization c !! k = Some x → x = 0) →
  exec cmd c = Ok (r, c') →
  flows c' = [] ∧ (∀ k x, link_utilization c' !! k = Some x → x = 0).
Proof.
  intros Hk [Hfl Hz]. destruct cmd as [n|n|u v w|u v|s d ty bw|u v|s d]; simpl;
    try done.
  - unfold add_node. by destruct (has_node _ _); intros [= _ <-].
  - unfold remove_node. by destruct (negb _); intros [= _ <-].
  - unfold add_link. destruct (_ || _); intros [= _ <-]; [done|].
    split; [done|]. intros k x. simpl. rewrite !lookup_insert_Some.
    intros [[_ <-]|[_ [[_ <-]|[_ ?]]]]; [done..|]. by eapply Hz.
  - unfold remove_link. destruct (negb _); intros [= _ <-]; [done|].
    split; [done|]. intros k x. simpl. rewrite !lookup_delete_Some.
    intros (_ & _ & ?). by eapply Hz.
Qed.

(** X9: when the topology is built first and the commands that follow
    neither add a link nor fail one (they inject flows, query routes,
    add or remove nodes, remove links), every ledger value is the total
    bandwidth of the flows whose path crosses that link. *)
Theorem ledger_is_the_sum_of_the_flows build rest c k x :
  forallb is_topology_command build = true →
  forallb keeps_entries rest = true →
  session (build ++ rest) = Ok c →
  link_utilization c !! k = Some x → x = load (flows c) k.
Proof.
  intros Hb Hr (c0 & Hc0 & Hc)%for_each_app. revert k x.
  refine (run_invariant keeps_entries ledger_accounts _ rest c0 c Hr _ Hc).
  - intros cmd c1 r c2. apply exec_accounts.
  - assert (flows c0 = [] ∧ ∀ k x, link_utilization c0 !! k = Some x → x = 0)
      as [Hfl Hz].
    { refine (run_invariant is_topology_command
                (λ c, flows c = [] ∧ ∀ k x, link_utilization c !! k = Some x → x = 0)
                _ build init c0 Hb _ Hc0).
      - intros cmd c1 r c2. apply exec_idle.
      - split; [done|]. intros k x. unfold init. simpl.
        by rewrite lookup_empty. }
    intros k x Hx. rewrite Hfl. simpl. by eapply Hz.
Qed.

Lemma ledger_is_the_sum_of_the_flows_witness :
  forallb is_topology_command abc_topology = true ∧
  forallb keeps_entries [InjectTraffic "a" "c" "data" 10] = true ∧
  session (abc_topology ++ [InjectTraffic "a" "c" "data" 10])
  = Ok (state_after abc_scenario) ∧
  link_utilization (state_after abc_scenario) !! ("b", "a") = Some 10 ∧
  10 = load (flows (state_after abc_scenario)) ("b", "a").
Proof.
  assert (forallb is_topology_command abc_topology = true) as Hb
    by (vm_compute; reflexivity).
  assert (forallb keeps_entries [InjectTraffic "a" "c" "data" 10] = true) as Hr
    by (vm_compute; reflexivity).
  assert (session (abc_topology ++ [InjectTraffic "a" "c" "data" 10])
          = Ok (state_after abc_scenario)) as Hs by (vm_compute; reflexivity).
  assert (link_utilization (state_after abc_scenario) !! ("b", "a") = Some 10)
    as Hx by (vm_compute; reflexivity).
  split; [exact Hb|]. split; [exact Hr|]. split; [exact Hs|]. split; [exact Hx|].
  exact (ledger_is_the_sum_of_the_flows _ _ _ ("b", "a") 10 Hb Hr Hs Hx).
Defined.

(** X10: a successful [inject_traffic_flow] changes no ledger entry
    but those of the hops of the path it reports. *)
Theorem inject_touches_only_its_path s d ty bw c p c' a b :
  inject_traffic_flow s d ty bw c = Ok (Injected p, c') →
  (a, b) ∉ hops p → (b, a) ∉ hops p →
  link_utilization c' !! (a, b) = link_utilization c !! (a, b).
Proof.
  unfold inject_traffic_flow. destruct (_ || _); [done|].
  intros (op & Hop & Hrest)%bind_Ok.
  destruct op as [[|x q]|]; [done| |done].
  apply bind_Ok in Hrest as (L' & Hres & [= <- <-]). simpl.
  intros Hab Hba. rewrite (reserve_lookup _ _ _ _ _ Hres).
  unfold uses. rewrite hits_zero by done.
  destruct (link_utilization c !! (a, b)); simpl; [f_equal; lia|done].
Qed.

Lemma inject_touches_only_its_path_witness :
  inject_traffic_flow "a" "c" "data" 10 (state_after abc_topology)
  = Ok (Injected ["a"; "b"; "c"], state_after abc_scenario) ∧
  ("a", "c") ∉ hops ["a"; "b"; "c"] ∧ ("c", "a") ∉ hops ["a"; "b"; "c"] ∧
  link_utilization (state_after abc_scenario) !! ("a", "c")
  = link_utilization (state_after abc_topology) !! ("a", "c").
Proof.
  assert (inject_traffic_flow "a" "c" "data" 10 (state_after abc_topology)
          = Ok (Injected ["a"; "b"; "c"], state_after abc_scenario)) as Hi
    by (vm_compute; reflexivity).
  assert (("a", "c") ∉ hops ["a"; "b"; "c"]) as H1.
  { apply (bool_decide_unpack _). vm_compute. exact I. }
  assert (("c", "a") ∉ hops ["a"; "b"; "c"]) as H2.
  { apply (bool_decide_unpack _). vm_compute. exact I. }
  split; [exact Hi|]. split; [exact H1|]. split; [exact H2|].
  exact (inject_touches_only_its_path _ _ _ _ _ _ _ "a" "c" Hi H1 H2).
Defined.

(** ** The flows *)

Lemma reroute_flow_ids u v G st f st' :
  reroute_flow u v G st f = Ok st' →
  ∃ f', st'.1 = st.1 ++ [f'] ∧ flow_id f' = flow_id f ∧
        (f' = f ∨
         (u ∈ flow_path f ∧ v ∈ flow_path f ∧
          compute_path G (release (bandwidth f) st.2 (flow_path f))
            (src f) (dst f) (traffic_type f) = Ok (Some (flow_path f')))).
Proof.
  unfold reroute_flow.
  destruct (bool_decide (u ∈ _)) eqn:Hu; simpl;
    [|intros [= <-]; exists f; auto].
  destruct (bool_decide (v ∈ _)) eqn:Hv; simpl;
    [|intros [= <-]; exists f; auto].
  apply bool_decide_eq_true in Hu, Hv.
  intros (op & Hop & Hrest)%bind_Ok.
  destruct op as [[|x p]|];
    [injection Hrest as <-; exists f; auto|
    |injection Hrest as <-; exists f; auto].
  apply bind_Ok in Hrest as (L' & Hres & [= <-]). simpl.
  eexists. split_and!; [done..|]. right. simpl. auto.
Qed.

Lemma reroute_all_ids u v G fl visited L st' :
  for_each (reroute_flow u v G) (visited, L) fl = Ok st' →
  ∃ fl', st'.1 = visited ++ fl' ∧ flow_id <$> fl' = flow_id <$> fl.
Proof.
  revert visited L. induction fl as [|f fl IH]; intros visited L; simpl.
  - intros [= <-]. exists []. by rewrite app_nil_r.
  - intros ([vis1 L1] & (f' & Hv & Hid & _)%reroute_flow_ids & Hrest)%bind_Ok.
    simpl in Hv. subst vis1.
    apply IH in Hrest as (fl' & -> & Hids).
    exists (f' :: fl'). rewrite <-app_assoc. split; [done|].
    by rewrite !fmap_cons, Hid, Hids.
Qed.

Local Ltac same_flows :=
  exists []; rewrite app_nil_r; split; [done|simpl; lia].

Lemma exec_flows cmd c r c' :
  exec cmd c = Ok (r, c') →
  ∃ more, flow_id <$> flows c' = (flow_id <$> flows c) ++ more ∧
          (length more ≤ 1)%nat.
Proof.
  destruct cmd as [n|n|u v w|u v|s d ty bw|u v|s d]; simpl.
  - unfold add_node. destruct (has_node _ _); intros [= _ <-]; same_flows.
  - unfold remove_node. destruct (negb _); intros [= _ <-]; same_flows.
  - unfold add_link. destruct (_ || _); intros [= _ <-]; same_flows.
  - unfold remove_link. destruct (negb _); intros [= _ <-]; same_flows.
  - unfold inject_traffic_flow.
    destruct (_ || _); [intros [= _ <-]; same_flows|].
    intros (op & Hop & Hrest)%bind_Ok.
    destruct op as [[|x p]|];
      [injection Hrest as _ <-; same_flows|
      |injection Hrest as _ <-; same_flows].
    apply bind_Ok in Hrest as (L' & Hres & [= _ <-]). simpl.
    eexists [_]. rewrite fmap_app. split; [done|simpl; lia].
  - unfold simulate_link_failure.
    destruct (negb _) eqn:He; [intros [= _ <-]; same_flows|].
    intros (st & Hst & [= _ <-])%bind_Ok. simpl.
    apply reroute_all_ids in Hst as (fl' & -> & Hids). simpl.
    exists []. rewrite app_nil_r. split; [|simpl; lia]. rewrite Hids.
    unfold remove_link. by rewrite He.
  - unfold query_routing.
    destruct (_ || _); [intros [= _ <-]; same_flows|].
    intros (op & Hop & [= _ <-])%bind_Ok. same_flows.
Qed.

(** X11: no command removes a flow, reorders the flows or changes the
    source, destination, type or bandwidth of one: after any commands the
    flows of before are still there, followed by at most one new flow per
    command. *)
Theorem flows_are_never_removed cmds c c' :
  run cmds c = Ok c' →
  ∃ more, flow_id <$> flows c' = (flow_id <$> flows c) ++ more ∧
          (length more ≤ length cmds)%nat.
Proof.
  revert c. induction cmds as [|cmd cmds IH]; intros c; unfold run; simpl.
  - intros [= <-]. exists []. by rewrite app_nil_r.
  - intros (c1 & ([r c1'] & Hex & [= <-])%bind_Ok & Hrun)%bind_Ok.
    apply exec_flows in Hex as (m1 & H1 & Hl1).
    apply IH in Hrun as (m2 & H2 & Hl2).
    exists (m1 ++ m2). rewrite H2, H1, <-app_assoc, length_app.
    split; [done|lia].
Qed.

Lemma flows_are_never_removed_witness :
  run (detour_scenario ++ [FailLink "a" "c"]) init
  = Ok (state_after (detour_scenario ++ [FailLink "a" "c"])) ∧
  ∃ more,
    flow_id <$> flows (state_after (detour_scenario ++ [FailLink "a" "c"]))
    = (flow_id <$> flows init) ++ more ∧
    (length more ≤ length (detour_scenario ++ [FailLink "a" "c"]))%nat.
Proof.
  assert (run (detour_scenario ++ [FailLink "a" "c"]) init
          = Ok (state_after (detour_scenario ++ [FailLink "a" "c"]))) as Hr
    by (vm_compute; reflexivity).
  split; [exact Hr|].
  exact (flows_are_never_removed _ _ _ Hr).
Defined.

Lemma exec_end_to_end cmd c r c' :
  Forall end_to_end (flows c) → exec cmd c = Ok (r, c') →
  Forall end_to_end (flows c').
Proof.
  intros Hfl. destruct cmd as [n|n|u v w|u v|s d ty bw|u v|s d]; simpl.
  - unfold add_node. by destruct (has_node _ _); intros [= _ <-].
  - unfold remove_node. by destruct (negb _); intros [= _ <-].
  - unfold add_link. by destruct (_ || _); intros [= _ <-].
  - unfold remove_link. by destruct (negb _); intros [= _ <-].
  - unfold inject_traffic_flow. destruct (_ || _); [by intros [= _ <-]|].
    intros (op & Hop & Hrest)%bind_Ok.
    destruct op as [[|x p]|]; [by injection Hrest as _ <-| |by injection Hrest as _ <-].
    apply bind_Ok in Hrest as (L' & Hres & [= _ <-]). simpl.
    apply Forall_app. split; [done|]. apply Forall_singleton.
    apply compute_path_NoDup in Hop as (? & ? & ?). by split_and!.
  - unfold simulate_link_failure.
    destruct (negb _) eqn:He; [by intros [= _ <-]|].
    intros (st & Hst & [= _ <-])%bind_Ok. simpl.
    assert (Forall end_to_end (flows (remove_link u v c).2)) as Hfl1.
    { unfold remove_link. by rewrite He. }
    revert Hst.
    apply (for_each_invariant (λ st, Forall end_to_end st.1));
      [|by apply Forall_nil].
    intros st0 f st1 Hf Hst0 (f' & -> & Hid & Hf')%reroute_flow_ids.
    apply Forall_app. split; [done|]. apply Forall_singleton.
    rewrite Forall_forall in Hfl1. specialize (Hfl1 f Hf).
    destruct Hf' as [->|(_ & _ & Hcp)]; [done|].
    apply compute_path_NoDup in Hcp as (? & ? & ?).
    unfold flow_id in Hid. injection Hid as Hs Hd _ _.
    unfold end_to_end. rewrite Hs, Hd. by split_and!.
  - unfold query_routing. destruct (_ || _); [by intros [= _ <-]|].
    by intros (op & Hop & [= _ <-])%bind_Ok.
Qed.

(** X12: in every reachable state the stored path of each flow starts
    at its source, ends at its destination and repeats no node. *)
Theorem flow_paths_run_from_source_to_destination c f :
  reachable c → f ∈ flows c →
  head (flow_path f) = Some (src f) ∧ last (flow_path f) = Some (dst f) ∧
  NoDup (flow_path f).
Proof.
  intros [cmds Hc]. revert f.
  change (∀ f, f ∈ flows c → end_to_end f). apply Forall_forall.
  refine (run_invariant_all (λ c, Forall end_to_end (flows c))
            _ cmds init c _ Hc).
  - intros cmd c0 r c1. apply exec_end_to_end.
  - by apply Forall_nil.
Qed.

Lemma flow_paths_run_from_source_to_destination_witness :
  reachable (state_after (detour_scenario ++ [FailLink "a" "c"])) ∧
  mkFlow "a" "c" "data" 10 ["a"; "d"; "c"]
    ∈ flows (state_after (detour_scenario ++ [FailLink "a" "c"])) ∧
  NoDup ["a"; "d"; "c"].
Proof.
  assert (reachable (state_after (detour_scenario ++ [FailLink "a" "c"]))) as Hr.
  { exists (detour_scenario ++ [FailLink "a" "c"]). vm_compute. reflexivity. }
  assert (mkFlow "a" "c" "data" 10 ["a"; "d"; "c"]
            ∈ flows (state_after (detour_scenario ++ [FailLink "a" "c"]))) as Hf.
  { assert (flows (state_after (detour_scenario ++ [FailLink "a" "c"]))
            = [mkFlow "a" "c" "data" 10 ["a"; "d"; "c"]]) as ->
      by (vm_compute; reflexivity).
    apply list_elem_of_singleton. reflexivity. }
  split; [exact Hr|]. split; [exact Hf|].
  exact (proj2 (proj2
    (flow_paths_run_from_source_to_destination _ _ Hr Hf))).
Defined.

(** ** The choice of the path *)

Section sort_stable.
Context {A : Type} (key : A → Z).

Lemma sort_by_head_first l p r :
  sort_by key l = p :: r →
  ∃ l1 l2, l = l1 ++ p :: l2 ∧
           (∀ q, q ∈ l1 → key p < key q) ∧ (∀ q, q ∈ l2 → key p ≤ key q).
Proof.
  revert p r. induction l as [|x l IH]; intros p r; simpl; [done|].
  destruct (sort_by key l) as [|p' r'] eqn:Hs.
  - apply sort_by_nil in Hs as ->. simpl. intros [= <- <-].
    exists [], []. split_and!; [done|by intros ? ?%elem_of_nil..].
  - destruct (IH p' r' eq_refl) as (l1 & l2 & -> & H1 & H2). simpl.
    destruct (key x <=? key p') eqn:Hle.
    + intros [= <- <-]. apply Z.leb_le in Hle.
      exists [], (l1 ++ p' :: l2). split_and!; [done|by intros ? ?%elem_of_nil|].
      intros q [Hq|[->|Hq]%elem_of_cons]%elem_of_app.
      * specialize (H1 q Hq). lia.
      * done.
      * specialize (H2 q Hq). lia.
    + intros [= <- <-]. apply Z.leb_gt in Hle.
      exists (x :: l1), l2. split_and!; [done| |done].
      intros q [->|Hq]%elem_of_cons; [done|]. by apply H1.
Qed.

End sort_stable.

(** X13: [compute_path] breaks ties by the order of enumeration: the
    path it returns is the first one of the list of
    [nx.all_shortest_paths] that has the least utilization (every path
    listed before it has a strictly greater utilization, every path listed
    after it at least the same). *)
Theorem compute_path_breaks_ties_by_enumeration_order G L s d ty p :
  compute_path G L s d ty = Ok (Some p) →
  ∃ before after,
    all_shortest_paths G s d = Ok (before ++ p :: after) ∧
    (∀ q, q ∈ before → utilization L p < utilization L q) ∧
    (∀ q, q ∈ after → utilization L p ≤ utilization L q).
Proof.
  unfold compute_path. destruct (_ || _); [done|].
  destruct (all_shortest_paths G s d) as [paths|e|]; [|by destruct e|done].
  destruct paths as [|x paths]; [done|].
  destruct (sort_by _ _) as [|p' r] eqn:Hs; [done|]. intros [= ->].
  apply sort_by_head_first in Hs as (l1 & l2 & -> & ? & ?). eauto.
Qed.

Lemma compute_path_breaks_ties_by_enumeration_order_witness :
  compute_path (topology (state_after diamond_scenario))
    (link_utilization (state_after diamond_scenario)) "a" "d" "data"
  = Ok (Some ["a"; "c"; "d"]) ∧
  all_shortest_paths (topology (state_after diamond_scenario)) "a" "d"
  = Ok [["a"; "b"; "d"]; ["a"; "c"; "d"]] ∧
  ∃ before after,
    all_shortest_paths (topology (state_after diamond_scenario)) "a" "d"
    = Ok (before ++ ["a"; "c"; "d"] :: after) ∧
    (∀ q, q ∈ before →
       utilization (link_utilization (state_after diamond_scenario)) ["a"; "c"; "d"]
       < utilization (link_utilization (state_after diamond_scenario)) q) ∧
    (∀ q, q ∈ after →
       utilization (link_utilization (state_after diamond_scenario)) ["a"; "c"; "d"]
       ≤ utilization (link_utilization (state_after diamond_scenario)) q).
Proof.
  assert (compute_path (topology (state_after diamond_scenario))
            (link_utilization (state_after diamond_scenario)) "a" "d" "data"
          = Ok (Some ["a"; "c"; "d"])) as Hcp by (vm_compute; reflexivity).
  split; [exact Hcp|]. split; [vm_compute; reflexivity|].
  exact (compute_path_breaks_ties_by_enumeration_order _ _ _ _ _ _ Hcp).
Defined.

(** A walk of the graph for every [reach]. *)
Lemma reach_walk G s x d :
  has_node G s = true → reach G s x d →
  ∃ q, is_walk G s x q ∧ path_weight G q = d.
Proof.
  intros Hs. induction 1 as [|x y w d Hr (q & (Hh & Hl & _ & He) & Hw) Hxy].
  - exists [s]. split; [|done]. split_and!; try done. by intros a b ?%elem_of_nil.
  - exists (q ++ [y]). split; [split_and!|].
    + by destruct q.
    + by rewrite last_snoc.
    + done.
    + intros a b. rewrite (hops_snoc q x y Hl), elem_of_app.
      intros [?|Heq%list_elem_of_singleton]; [auto|].
      injection Heq as -> ->. by eexists.
    + rewrite (path_weight_snoc G q x y w Hl Hxy). lia.
Qed.

(** X14: on a well-formed topology with non-negative weights, the
    search that [compute_path] starts from an existing node returns, and
    its distances are the least weights: [dist[x] = d] exactly when [d] is
    the weight of a walk from the source to [x] and no walk to [x] is
    lighter; and [v] is listed in [pred[u]] exactly when the link v–u
    closes a lightest walk ([dist[v] + weight = dist[u]]). *)
Theorem dijkstra_computes_least_weights G s :
  wf_graph G → nonneg_weights G → has_node G s = true →
  ∃ pred dist,
    dijkstra_predecessor_and_distance G s = Ok (pred, dist) ∧
    (∀ x d, dist !! x = Some d ↔
            (∃ q, is_walk G s x q ∧ path_weight G q = d) ∧
            ∀ q, is_walk G s x q → d ≤ path_weight G q) ∧
    (∀ u v, (∃ ps, pred !! u = Some ps ∧ v ∈ ps) ↔
            ∃ dv w du, dist !! v = Some dv ∧ edge_weight G v u = Some w ∧
                       dist !! u = Some du ∧ dv + w = du).
Proof.
  intros Hwf Hnn Hs.
  destruct (dijkstra_total G Hwf Hnn s Hs) as (st & Hst & Hres & _).
  exists (pred st), (dist st).
  unfold dijkstra_predecessor_and_distance. rewrite Hs, Hst. simpl.
  split; [done|]. split.
  - intros x d. split.
    + intros Hx. split.
      * apply reach_walk; [done|]. by apply (sr_reach _ _ _ Hres).
      * intros q Hq.
        destruct (dist_lower_walk G s st Hres x q Hq) as (d' & ? & ?).
        by simplify_eq.
    + intros [(q & Hq & Hw) Hmin].
      destruct (dist_lower_walk G s st Hres x q Hq) as (d' & Hd' & Hle).
      destruct (reach_walk G s x d' Hs (sr_reach _ _ _ Hres x d' Hd'))
        as (q' & Hq' & Hw').
      specialize (Hmin q' Hq'). assert (d' = d) as -> by lia. done.
  - intros u v. split.
    + intros (ps & Hps & Hv). by apply (sr_pred _ _ _ Hres u ps Hps).
    + intros (dv & w & du & Hv & Hw & Hu & Heq).
      destruct (proj2 (sr_keys _ _ _ Hres u)) as [ps Hps]; [by eexists|].
      exists ps. split; [done|]. apply (sr_pred _ _ _ Hres u ps Hps). eauto 10.
Qed.

Lemma dijkstra_computes_least_weights_witness :
  wf_graph (topology (state_after abc_topology)) ∧
  nonneg_weights (topology (state_after abc_topology)) ∧
  has_node (topology (state_after abc_topology)) "a" = true ∧
  snd <$> dijkstra_predecessor_and_distance (topology (state_after abc_topology)) "a"
  = Ok {[ "a" := 0; "b" := 1; "c" := 2 ]} ∧
  ∃ pred dist,
    dijkstra_predecessor_and_distance (topology (state_after abc_topology)) "a"
    = Ok (pred, dist) ∧
    (∀ x d, dist !! x = Some d ↔
            (∃ q, is_walk (topology (state_after abc_topology)) "a" x q ∧
                  path_weight (topology (state_after abc_topology)) q = d) ∧
            ∀ q, is_walk (topology (state_after abc_topology)) "a" x q →
                 d ≤ path_weight (topology (state_after abc_topology)) q) ∧
    (∀ u v, (∃ ps, pred !! u = Some ps ∧ v ∈ ps) ↔
            ∃ dv w du, dist !! v = Some dv ∧
                       edge_weight (topology (state_after abc_topology)) v u = Some w ∧
                       dist !! u = Some du ∧ dv + w = du).
Proof.
  assert (wf_graph (topology (state_after abc_topology))) as Hwf.
  { apply (bool_decide_unpack _). vm_compute. exact I. }
  assert (nonneg_weights (topology (state_after abc_topology))) as Hnn.
  { apply (bool_decide_unpack _). vm_compute. exact I. }
  assert (has_node (topology (state_after abc_topology)) "a" = true) as Hs
    by (vm_compute; reflexivity).
  split; [exact Hwf|]. split; [exact Hnn|]. split; [exact Hs|].
  split; [vm_compute; reflexivity|].
  exact (dijkstra_computes_least_weights _ "a" Hwf Hnn Hs).
Defined.

(** X15: on a well-formed topology with non-negative weights,
    [nx.all_shortest_paths] from an existing node returns a non-empty list
    that holds exactly the paths of least weight, or raises
    [NetworkXNoPath] when there is no path. *)
Theorem all_shortest_paths_lists_the_least_weight_paths G s d :
  wf_graph G → nonneg_weights G → has_node G s = true →
  (∃ paths, all_shortest_paths G s d = Ok paths ∧ paths ≠ [] ∧
     ∀ p, p ∈ paths ↔
          is_path G s d p ∧
          ∀ q, is_walk G s d q → path_weight G p ≤ path_weight G q) ∨
  (all_shortest_paths G s d = Raise NetworkXNoPath ∧ ∀ q, ¬ is_path G s d q).
Proof.
  intros Hwf Hnn Hs.
  destruct (dijkstra_total G Hwf Hnn s Hs) as (st & Hst & Hres & Hsi).
  unfold all_shortest_paths, dijkstra_predecessor_and_distance.
  rewrite Hs, Hst. simpl. unfold build_paths_from_predecessors.
  destruct (pred st !! d) as [ps|] eqn:Hps.
  - left.
    destruct (build_from_spec s (pred st)) with (fuel := size (pred st))
      (trail := @nil string) (n := d) as (out & -> & Hout).
    { intros n ps' m Hn Hm. by destruct (si_edges _ _ Hsi n ps' m Hn Hm). }
    { by eexists. }
    { apply NoDup_singleton. }
    { by intros x ?%elem_of_nil. }
    { simpl. lia. }
    assert (∀ p, p ∈ out ↔ chain s (pred st) d p ∧ NoDup p) as Hout'.
    { intros p. rewrite Hout. split.
      - intros (q & Hc & Hq & ->). by rewrite app_nil_r in *.
      - intros [? ?]. exists p. by rewrite app_nil_r. }
    destruct (proj1 (sr_keys _ _ _ Hres d)) as [dt Hdt]; [by eexists|].
    assert (∀ q, is_walk G s d q → dt ≤ path_weight G q) as Hlow.
    { intros q Hq. destruct (dist_lower_walk G s st Hres d q Hq) as (dt' & ? & ?).
      by simplify_eq. }
    destruct (reach_path G Hnn s Hs d dt) as (q0 & Hq0 & Hle0).
    { by apply (sr_reach _ _ _ Hres). }
    pose proof (Hlow q0 (is_path_walk _ _ _ _ Hq0)) as Hge0.
    assert (∀ p, p ∈ out ↔
              is_path G s d p ∧
              ∀ q, is_walk G s d q → path_weight G p ≤ path_weight G q) as Hiff.
    { intros p. rewrite Hout'. split.
      - intros [Hc Hnd].
        destruct (chain_tight G Hnn s st Hres d p Hc) as (dt' & Hdt' & Hwp & He).
        simplify_eq. split.
        + split_and!; [by eapply chain_head|by eapply chain_last|done..].
        + intros q Hq. by apply Hlow.
      - intros [Hp Hmin]. split; [|by destruct Hp as (_ & _ & ? & _)].
        eapply tight_chain; [done..|].
        specialize (Hmin q0 (is_path_walk _ _ _ _ Hq0)).
        specialize (Hlow p (is_path_walk _ _ _ _ Hp)). lia. }
    eexists. split; [done|]. split; [|done].
    intros ->. eapply elem_of_nil, Hiff. split; [exact Hq0|].
    intros q Hq. specialize (Hlow q Hq). lia.
  - right. split; [done|]. intros q Hq.
    destruct (dist_lower G s st Hres d q Hq) as (dt & Hdt & _).
    destruct (proj2 (sr_keys _ _ _ Hres d)) as [? ?]; [by eexists|]. congruence.
Qed.

Lemma all_shortest_paths_lists_the_least_weight_paths_witness :
  wf_graph (topology (state_after diamond_scenario)) ∧
  nonneg_weights (topology (state_after diamond_scenario)) ∧
  has_node (topology (state_after diamond_scenario)) "a" = true ∧
  all_shortest_paths (topology (state_after diamond_scenario)) "a" "d"
  = Ok [["a"; "b"; "d"]; ["a"; "c"; "d"]] ∧
  ((∃ paths,
      all_shortest_paths (topology (state_after diamond_scenario)) "a" "d"
      = Ok paths ∧ paths ≠ [] ∧
      ∀ p, p ∈ paths ↔
           is_path (topology (state_after diamond_scenario)) "a" "d" p ∧
           ∀ q, is_walk (topology (state_after diamond_scenario)) "a" "d" q →
                path_weight (topology (state_after diamond_scenario)) p
                ≤ path_weight (topology (state_after diamond_scenario)) q) ∨
   (all_shortest_paths (topology (state_after diamond_scenario)) "a" "d"
    = Raise NetworkXNoPath ∧
    ∀ q, ¬ is_path (topology (state_after diamond_scenario)) "a" "d" q)).
Proof.
  assert (wf_graph (topology (state_after diamond_scenario))) as Hwf.
  { apply (bool_decide_unpack _). vm_compute. exact I. }
  assert (nonneg_weights (topology (state_after diamond_scenario))) as Hnn.
  { apply (bool_decide_unpack _). vm_compute. exact I. }
  assert (has_node (topology (state_after diamond_scenario)) "a" = true) as Hs
    by (vm_compute; reflexivity).
  split; [exact Hwf|]. split; [exact Hnn|]. split; [exact Hs|].
  split; [vm_compute; reflexivity|].
  exact (all_shortest_paths_lists_the_least_weight_paths _ "a" "d" Hwf Hnn Hs).
Defined.

(** *** The search on negative weights *)

Section dijkstra_closing.
Context (G : Graph) (s : node).

Lemma closing_skip v done d u w su st :
  closing_inv G s (Some (v, done)) st →
  dist st !! v = Some d → seen st !! u = Some su → su ≤ d + w →
  closing_inv G s (Some (v, done ++ [(u, w)])) st.
Proof.
  intros [Hds Hsrc Hf1 Hf2 Hcl] Hv Hu Hle. split; try done.
  intros v0 dv0 u0 w0 Hv0 He [Hr|(-> & -> & ->)]%relaxed_snoc; [eauto|].
  exists su. split; [done|]. simplify_eq. lia.
Qed.

Lemma closing_pred st ps :
  ∀ cur, closing_inv G s cur st →
  closing_inv G s cur (mkDS (dist st) (seen st) (fringe st) (count st) ps).
Proof. intros cur [Hds Hsrc Hf1 Hf2 Hcl]. by split. Qed.

Lemma closing_push v done d u w st :
  closing_inv G s (Some (v, done)) st →
  dist st !! v = Some d →
  dist st !! u = None → (∀ su, seen st !! u = Some su → d + w < su) →
  closing_inv G s (Some (v, done ++ [(u, w)])) (push u (d + w) v st).
Proof.
  intros [Hds Hsrc Hf1 Hf2 Hcl] Hv Hdu Hlt. split; simpl.
  - intros x dx Hx. rewrite lookup_insert_ne by congruence. auto.
  - rewrite lookup_insert_is_Some'. auto.
  - intros d' c x [Heq|Hin]%elem_of_cons.
    + injection Heq as -> -> ->. rewrite lookup_insert_eq. eexists. split; [done|lia].
    + destruct (Hf1 d' c x Hin) as (sx & Hsx & Hle).
      destruct (decide (x = u)) as [->|Hne].
      * rewrite lookup_insert_eq. eexists. split; [done|].
        specialize (Hlt _ Hsx). lia.
      * rewrite lookup_insert_ne by done. eauto.
  - intros x sx. destruct (decide (x = u)) as [->|Hne].
    + rewrite lookup_insert_eq. intros [= <-] _. eexists. left.
    + rewrite lookup_insert_ne by done. intros Hx Hdx.
      destruct (Hf2 x sx Hx Hdx) as [c Hc]. exists c. by right.
  - intros v0 dv0 u0 w0 Hv0 He Hr. apply relaxed_snoc in Hr as [Hr|(-> & -> & ->)].
    + destruct (Hcl v0 dv0 u0 w0 Hv0 He Hr) as (su & Hsu & Hle).
      destruct (decide (u0 = u)) as [->|Hne].
      * rewrite lookup_insert_eq. eexists. split; [done|].
        specialize (Hlt _ Hsu). lia.
      * rewrite lookup_insert_ne by done. eauto.
    + rewrite lookup_insert_eq. eexists. split; [done|]. simplify_eq. lia.
Qed.

Lemma relax_closing v done d u w st st' :
  closing_inv G s (Some (v, done)) st → dist st !! v = Some d →
  relax v d st (u, w) = Ok st' →
  closing_inv G s (Some (v, done ++ [(u, w)])) st' ∧ dist st' = dist st.
Proof.
  intros Hi Hv. unfold relax, pred_append. simpl.
  destruct (dist st !! u) as [du|] eqn:Hdu.
  - pose proof (cl_ds _ _ _ _ Hi u du Hdu) as Hsu.
    destruct (Z.ltb_spec (d + w) du); [done|].
    destruct (Z.eqb_spec (d + w) du) as [Heq|Hne].
    + destruct (pred st !! u); [|done]. intros [= <-]. split; [|done].
      apply closing_pred. by eapply closing_skip.
    + intros [= <-]. split; [|done]. by eapply closing_skip.
  - destruct (seen st !! u) as [su|] eqn:Hsu.
    + destruct (Z.ltb_spec (d + w) su).
      * intros [= <-]. split; [|done]. apply closing_push; [done..|].
        intros ? ?. by simplify_eq.
      * destruct (Z.eqb_spec (d + w) su) as [Heq|Hne].
        -- destruct (pred st !! u); [|done]. intros [= <-]. split; [|done].
           apply closing_pred. eapply closing_skip; [done..|lia].
        -- intros [= <-]. split; [|done]. eapply closing_skip; [done..|lia].
    + intros [= <-]. split; [|done]. apply closing_push; [done..|].
      intros ? ?. congruence.
Qed.

Lemma scan_closing v d l done st st' :
  closing_inv G s (Some (v, done)) st → dist st !! v = Some d →
  for_each (relax v d) st l = Ok st' →
  closing_inv G s (Some (v, done ++ l)) st' ∧ dist st' = dist st.
Proof.
  revert done st. induction l as [|[u w] l IH]; intros done st Hi Hv; simpl.
  - intros [= <-]. by rewrite app_nil_r.
  - intros (st1 & [Hi1 Hd1]%(relax_closing _ _ _ _ _ _ _ Hi Hv) & Hrest)%bind_Ok.
    apply (IH (done ++ [(u, w)])) in Hrest as [Hi2 Hd2]; [|done|by rewrite Hd1].
    rewrite <-app_assoc in Hi2. split; [done|congruence].
Qed.

Lemma closing_close v st :
  closing_inv G s (Some (v, nbrs G v)) st → closing_inv G s None st.
Proof.
  intros [Hds Hsrc Hf1 Hf2 Hcl]. split; try done.
  intros v0 dv0 u0 w0 Hv0 He _. apply (Hcl v0 dv0 u0 w0 Hv0 He).
  intros ->. rewrite edge_weight_nbrs in He.
  by apply odict_facts.get_Some_elem.
Qed.

Lemma dijkstra_loop_closing fuel st st' :
  closing_inv G s None st → dijkstra_loop fuel G st = Ok st' →
  closing_inv G s None st' ∧ fringe st' = [].
Proof.
  revert st. induction fuel as [|fuel IH]; intros st Hi; simpl.
  - destruct (heappop (fringe st)) as [[[[d c] v] h]|] eqn:Hpop; [done|].
    intros [= <-]. by apply heappop_None in Hpop.
  - destruct (heappop (fringe st)) as [[[[d c] v] h]|] eqn:Hpop;
      [|intros [= <-]; by apply heappop_None in Hpop].
    apply heappop_Some in Hpop as (Hin & Hmin & Hlen).
    destruct Hi as [Hds Hsrc Hf1 Hf2 Hcl].
    destruct (dist st !! v) as [dv|] eqn:Hdv.
    + apply IH. split; simpl; try done.
      * intros d' c' x Hx. apply (Hf1 d' c' x), Hin. by right.
      * intros x sx Hx Hdx. destruct (Hf2 x sx Hx Hdx) as [c' Hc'].
        exists c'. apply Hin in Hc' as [Heq|?]; [|done]. congruence.
    + destruct (Hf1 d c v) as (sv & Hsv & Hle); [apply Hin; by left|].
      destruct (Hf2 v sv Hsv Hdv) as [c' Hc'].
      pose proof (Hmin _ Hc') as Hge. simpl in Hge.
      assert (sv = d) as -> by lia.
      destruct (adj G !! v) as [l|] eqn:Hl; [|done].
      intros (st1 & Hscan & Hloop)%bind_Ok.
      apply (scan_closing v d l []) in Hscan as [Hi1 _].
      * apply (IH st1); [|done]. apply (closing_close v).
        unfold nbrs. by rewrite Hl.
      * split; simpl.
        -- intros x dx. rewrite lookup_insert_Some. intros [[<- <-]|[_ ?]]; auto.
        -- done.
        -- intros d' c'' x Hx. apply (Hf1 d' c'' x), Hin. by right.
        -- intros x sx Hx [Hdx Hne]%lookup_insert_None.
           destruct (Hf2 x sx Hx Hdx) as [c'' Hc''].
           exists c''. apply Hin in Hc'' as [Heq|?]; [|done]. congruence.
        -- intros v0 dv0 u0 w0. rewrite lookup_insert_Some.
           intros [[<- <-]|[Hne Hv0]] He Hr.
           ++ specialize (Hr eq_refl). by apply elem_of_nil in Hr.
           ++ apply (Hcl v0 dv0 u0 w0 Hv0 He I).
      * simpl. apply lookup_insert_eq.
Qed.

Lemma closing_init : closing_inv G s None (dijkstra_init s).
Proof.
  unfold dijkstra_init. split; simpl.
  - intros x d. by rewrite lookup_empty.
  - by rewrite lookup_singleton_eq.
  - intros d c x [= -> -> ->]%list_elem_of_singleton.
    exists 0. by rewrite lookup_singleton_eq.
  - intros x sx [<- <-]%lookup_singleton_Some _. exists 0%nat. left.
  - intros v dv u w. by rewrite lookup_empty.
Qed.

(** When the search ends without exception, every node reachable from the
    source has its distance, and no link shortens a distance. *)
Lemma closing_final st x d :
  closing_inv G s None st → fringe st = [] → reach G s x d →
  ∃ dx, dist st !! x = Some dx ∧
        ∀ y w, edge_weight G x y = Some w →
               ∃ dy, dist st !! y = Some dy ∧ dy ≤ dx + w.
Proof.
  intros [Hds Hsrc Hf1 Hf2 Hcl] Hfr.
  assert (∀ x sx, seen st !! x = Some sx → dist st !! x = Some sx) as Hsd.
  { intros z sz Hz. destruct (dist st !! z) as [dz|] eqn:Hdz.
    - apply Hds in Hdz. congruence.
    - destruct (Hf2 z sz Hz Hdz) as [c Hc]. rewrite Hfr in Hc.
      by apply elem_of_nil in Hc. }
  assert (∀ x dx, dist st !! x = Some dx →
            ∀ y w, edge_weight G x y = Some w →
                   ∃ dy, dist st !! y = Some dy ∧ dy ≤ dx + w) as Hstep.
  { intros z dz Hz y w He. destruct (Hcl z dz y w Hz He I) as (sy & Hsy & Hle).
    exists sy. auto. }
  intros Hr. assert (is_Some (dist st !! x)) as [dx Hdx].
  { induction Hr as [|z y w d0 _ [dz Hdz] He].
    - destruct Hsrc as [s0 Hs0]. eexists. by apply Hsd.
    - destruct (Hstep z dz Hdz y w He) as (dy & ? & _). by eexists. }
  exists dx. split; [done|]. by apply Hstep.
Qed.

End dijkstra_closing.

(** X16: on a well-formed topology, [compute_path] between existing
    nodes raises [ValueError] as soon as some link of negative weight can
    be reached from the source, wherever that link is. *)
Theorem compute_path_raises_on_reachable_negative_link G L s d ty q x y w :
  wf_graph G → has_node G d = true →
  is_walk G s x q → edge_weight G x y = Some w → w < 0 →
  compute_path G L s d ty = Raise ValueError.
Proof.
  intros Hwf Hd Hq Hxy Hneg.
  assert (has_node G s = true) as Hs by (by destruct Hq as (_ & _ & ? & _)).
  pose proof (compute_path_struct G L s d ty Hwf) as Hpost.
  destruct (compute_path G L s d ty) as [op|e|] eqn:Hcp; simpl in Hpost;
    [|by subst|done].
  exfalso. revert Hcp. unfold compute_path. rewrite Hs, Hd. simpl.
  unfold all_shortest_paths, dijkstra_predecessor_and_distance. rewrite Hs.
  pose proof (dijkstra_struct G Hwf s Hs) as Hds.
  destruct (dijkstra_loop _ _ _) as [st|e|] eqn:Hst; simpl in Hds;
    [|by subst e|done].
  intros _.
  apply dijkstra_loop_closing with (s := s) in Hst as [Hi Hfr];
    [|apply closing_init].
  assert (reach G s x (path_weight G q)) as Hr.
  { destruct Hq as (? & ? & _ & ?). by apply walk_reach. }
  destruct (closing_final G s st x _ Hi Hfr Hr) as (dx & Hdx & Hout).
  destruct (Hout y w Hxy) as (dy & Hdy & Hle).
  assert (reach G s y (path_weight G q + w)) as Hr' by (by eapply reach_step).
  destruct (closing_final G s st y _ Hi Hfr Hr') as (dy' & Hdy' & Hout').
  destruct (Hout' x w) as (dx' & Hdx' & Hle'); [by apply wf_graph_sym|].
  simplify_eq. lia.
Qed.

Lemma compute_path_raises_on_reachable_negative_link_witness :
  wf_graph (topology (state_after negative_scenario)) ∧
  has_node (topology (state_after negative_scenario)) "b" = true ∧
  is_walk (topology (state_after negative_scenario)) "a" "c" ["a"; "c"] ∧
  edge_weight (topology (state_after negative_scenario)) "c" "b" = Some (-5) ∧
  compute_path (topology (state_after negative_scenario)) ∅ "a" "b" "data"
  = Raise ValueError.
Proof.
  assert (wf_graph (topology (state_after negative_scenario))) as Hwf.
  { apply (bool_decide_unpack _). vm_compute. exact I. }
  assert (has_node (topology (state_after negative_scenario)) "b" = true) as Hd
    by (vm_compute; reflexivity).
  assert (is_walk (topology (state_after negative_scenario)) "a" "c" ["a"; "c"])
    as Hq.
  { split; [reflexivity|]. split; [reflexivity|].
    split; [vm_compute; reflexivity|].
    intros a b Hab. apply list_elem_of_singleton in Hab. injection Hab as -> ->.
    exists 2. vm_compute. reflexivity. }
  assert (edge_weight (topology (state_after negative_scenario)) "c" "b"
          = Some (-5)) as He by (vm_compute; reflexivity).
  split; [exact Hwf|]. split; [exact Hd|]. split; [exact Hq|]. split; [exact He|].
  assert (-5 < 0) as Hneg by lia.
  exact (compute_path_raises_on_reachable_negative_link _ ∅ "a" "b" "data"
           ["a"; "c"] "c" "b" (-5) Hwf Hd Hq He Hneg).
Defined.

(** X17: in a reachable state [query_routing] changes nothing and
    tells what [inject_traffic_flow] does for the same endpoints, whatever
    the traffic type and the bandwidth: both report a missing endpoint,
    both find no path, the flow is injected on the path that the query
    shows, or both raise the same exception. *)
Theorem query_predicts_inject s d ty bw c :
  reachable c →
  (∀ r c', query_routing s d c = Ok (r, c') → c' = c) ∧
  (query_routing s d c = Ok (EndpointDoesNotExist, c)
   ↔ inject_traffic_flow s d ty bw c = Ok (EndpointDoesNotExist, c)) ∧
  (query_routing s d c = Ok (Routing None, c)
   ↔ inject_traffic_flow s d ty bw c = Ok (NoAvailablePath, c)) ∧
  (∀ p, query_routing s d c = Ok (Routing (Some p), c)
        ↔ ∃ c', inject_traffic_flow s d ty bw c = Ok (Injected p, c')) ∧
  (∀ e, query_routing s d c = Raise e
        ↔ inject_traffic_flow s d ty bw c = Raise e).
Proof.
  intros [Hwf Hcov _]%reachable_inv.
  unfold query_routing, inject_traffic_flow.
  destruct (_ || _).
  { split_and!; try done.
    - by intros r c' [= _ <-].
    - intros q. split; [done|]. by intros [? ?]. }
  change (compute_path (topology c) (link_utilization c) s d "data")
    with (compute_path (topology c) (link_utilization c) s d ty).
  pose proof (compute_path_struct (topology c) (link_utilization c) s d ty Hwf)
    as Hcp.
  destruct (compute_path _ _ _ _ _) as [[p|]|e|]; simpl in *; [| | |done].
  - destruct (Hcp p eq_refl) as (Hnd & Hh & Hl & Hhops).
    destruct p as [|y p]; [done|].
    destruct (reserve_computed_path _ _ bw (y :: p) Hwf Hcov Hhops) as [L' HL'].
    rewrite HL'. simpl.
    split_and!; try done.
    + by intros r c' [= _ <-].
    + intros q. split; [intros [= <-]; eauto|]. by intros [c' [= <- _]].
  - split_and!; try done.
    + by intros r c' [= _ <-].
    + intros q. split; [done|]. by intros [? ?].
  - split_and!; try done. intros q. split; [done|]. by intros [? ?].
Qed.

Lemma query_predicts_inject_witness :
  reachable (state_after abc_topology) ∧
  query_routing "a" "c" (state_after abc_topology)
  = Ok (Routing (Some ["a"; "b"; "c"]), state_after abc_topology) ∧
  ∃ c', inject_traffic_flow "a" "c" "voice" 3 (state_after abc_topology)
        = Ok (Injected ["a"; "b"; "c"], c').
Proof.
  assert (reachable (state_after abc_topology)) as Hr.
  { exists abc_topology. vm_compute. reflexivity. }
  assert (query_routing "a" "c" (state_after abc_topology)
          = Ok (Routing (Some ["a"; "b"; "c"]), state_after abc_topology)) as Hq
    by (vm_compute; reflexivity).
  split; [exact Hr|]. split; [exact Hq|].
  exact (proj1 (proj1 (proj2 (proj2 (proj2
    (query_predicts_inject "a" "c" "voice" 3 _ Hr)))) ["a"; "b"; "c"]) Hq).
Defined.

(** ** Sessions without negative weights *)

(** X18: a session that adds no link of negative weight never ends on
    an exception: every command returns, and the weights stay
    non-negative. *)
Theorem session_never_raises_on_nonneg_weights cmds :
  forallb nonneg_command cmds = true →
  ∃ c, session cmds = Ok c ∧ nonneg_weights (topology c).
Proof.
  unfold session.
  assert (∀ c, ctrl_inv c → nonneg_weights (topology c) →
            forallb nonneg_command cmds = true →
            ∃ c', run cmds c = Ok c' ∧ nonneg_weights (topology c')) as H.
  { induction cmds as [|cmd cmds IH]; intros c Hi Hnn; unfold run; simpl.
    - by eexists.
    - intros [Hk Hks]%andb_prop.
      destruct (exec_total cmd c Hi Hnn) as [[r c1] Hex]. rewrite Hex. simpl.
      apply IH; [by eapply exec_Ok_inv| |done].
      eapply exec_nonneg; [done|apply Hi|done..]. }
  intros Hk. apply H; [apply init_inv| |done].
  intros u l. unfold init. simpl. by rewrite lookup_empty.
Qed.

Lemma session_never_raises_on_nonneg_weights_witness :
  forallb nonneg_command (detour_scenario ++ [FailLink "a" "c"]) = true ∧
  ∃ c, session (detour_scenario ++ [FailLink "a" "c"]) = Ok c ∧
       nonneg_weights (topology c).
Proof.
  assert (forallb nonneg_command (detour_scenario ++ [FailLink "a" "c"]) = true)
    as Hk by (vm_compute; reflexivity).
  split; [exact Hk|].
  exact (session_never_raises_on_nonneg_weights _ Hk).
Defined.

(** ** Link failures *)

Lemma reroute_flow_skip u v G st f :
  ¬ (u ∈ flow_path f ∧ v ∈ flow_path f) →
  reroute_flow u v G st f = Ok (st.1 ++ [f], st.2).
Proof.
  intros Hno. unfold reroute_flow.
  destruct (_ && _) eqn:Hc; [|done].
  apply andb_true_iff in Hc. by rewrite !bool_decide_eq_true in Hc.
Qed.

(** X19: when no flow has both endpoints of the failed link on its
    path, [simulate_link_failure] on an existing link does what
    [remove_link] does, and reports the failure. *)
Theorem failure_without_affected_flow_is_remove_link u v c :
  has_edge (topology c) u v = true →
  (∀ f, f ∈ flows c → ¬ (u ∈ flow_path f ∧ v ∈ flow_path f)) →
  simulate_link_failure u v c = Ok (LinkFailed, (remove_link u v c).2).
Proof.
  intros He Hfl. unfold simulate_link_failure, remove_link. rewrite He. simpl.
  assert (∀ fl visited L,
    (∀ f, f ∈ fl → ¬ (u ∈ flow_path f ∧ v ∈ flow_path f)) →
    for_each (reroute_flow u v (remove_edge (topology c) u v)) (visited, L) fl
    = Ok (visited ++ fl, L)) as Hloop.
  { induction fl as [|f fl IH]; intros visited L Hno; cbn [for_each].
    - by rewrite app_nil_r.
    - rewrite reroute_flow_skip by (apply Hno; left). simpl.
      rewrite IH, <-app_assoc; [done|]. intros ??. apply Hno. by right. }
  by rewrite Hloop.
Qed.

Lemma failure_without_affected_flow_is_remove_link_witness :
  has_edge (topology (state_after detour_scenario)) "a" "d" = true ∧
  flows (state_after detour_scenario) = [mkFlow "a" "c" "data" 10 ["a"; "b"; "c"]] ∧
  simulate_link_failure "a" "d" (state_after detour_scenario)
  = Ok (LinkFailed, (remove_link "a" "d" (state_after detour_scenario)).2).
Proof.
  assert (has_edge (topology (state_after detour_scenario)) "a" "d" = true) as He
    by (vm_compute; reflexivity).
  assert (flows (state_after detour_scenario)
          = [mkFlow "a" "c" "data" 10 ["a"; "b"; "c"]]) as Hfl
    by (vm_compute; reflexivity).
  assert (∀ f, f ∈ flows (state_after detour_scenario) →
            ¬ ("a" ∈ flow_path f ∧ "d" ∈ flow_path f)) as Hno.
  { intros f Hf. rewrite Hfl in Hf. apply list_elem_of_singleton in Hf.
    rewrite Hf. simpl. intros [_ Hd]. revert Hd.
    apply (bool_decide_unpack _). vm_compute. exact I. }
  split; [exact He|]. split; [exact Hfl|].
  exact (failure_without_affected_flow_is_remove_link "a" "d" _ He Hno).
Defined.

Lemma reroute_flow_rerouted u v G st f st' :
  reroute_flow u v G st f = Ok st' →
  ∃ f', st'.1 = st.1 ++ [f'] ∧ rerouted u v G f f'.
Proof.
  unfold reroute_flow.
  destruct (bool_decide_reflect (u ∈ flow_path f)) as [Hu|Hu]; simpl;
    [|intros [= <-]; exists f; split; [done|]; split_and!; [done|tauto|done]].
  destruct (bool_decide_reflect (v ∈ flow_path f)) as [Hv|Hv]; simpl;
    [|intros [= <-]; exists f; split; [done|]; split_and!; [done|tauto|done]].
  intros (op & Hop & Hrest)%bind_Ok.
  destruct op as [[|x p]|].
  - injection Hrest as <-. exists f. split; [done|]. split_and!; [done| |tauto].
    intros _. eexists. by rewrite Hop.
  - apply bind_Ok in Hrest as (L' & Hres & [= <-]). simpl.
    eexists. split; [done|]. split_and!; [done| |tauto].
    intros _. eexists. by rewrite Hop.
  - injection Hrest as <-. exists f. split; [done|]. split_and!; [done| |tauto].
    intros _. eexists. by rewrite Hop.
Qed.

Lemma reroute_all_rerouted u v G fl visited L st' :
  for_each (reroute_flow u v G) (visited, L) fl = Ok st' →
  ∃ fl', st'.1 = visited ++ fl' ∧ Forall2 (rerouted u v G) fl fl'.
Proof.
  revert visited L. induction fl as [|f fl IH]; intros visited L; simpl.
  - intros [= <-]. exists []. by rewrite app_nil_r.
  - intros ([vis1 L1] & (f' & Hv & Hr)%reroute_flow_rerouted & Hrest)%bind_Ok.
    simpl in Hv. subst vis1.
    apply IH in Hrest as (fl' & -> & Hall).
    exists (f' :: fl'). rewrite <-app_assoc. split; [done|]. by constructor.
Qed.

(** X20: after [simulate_link_failure u v] on a reachable state with
    non-negative weights, a flow whose path held both [u] and [v] keeps
    its place in the list, its source, destination and bandwidth, and then
    either follows a path of least weight of the new topology or is left
    as it was because the new topology has no path between its
    endpoints. *)
Theorem failure_puts_flows_on_least_weight_paths u v c r c' i f :
  reachable c → nonneg_weights (topology c) →
  has_edge (topology c) u v = true →
  simulate_link_failure u v c = Ok (r, c') →
  flows c !! i = Some f → u ∈ flow_path f → v ∈ flow_path f →
  ∃ f', flows c' !! i = Some f' ∧
    src f' = src f ∧ dst f' = dst f ∧ bandwidth f' = bandwidth f ∧
    ((is_path (topology c') (src f) (dst f) (flow_path f') ∧
      ∀ q, is_walk (topology c') (src f) (dst f) q →
           path_weight (topology c') (flow_path f')
           ≤ path_weight (topology c') q) ∨
     (f' = f ∧ ∀ q, ¬ is_path (topology c') (src f) (dst f) q)).
Proof.
  intros Hi%reachable_inv Hnn He. unfold simulate_link_failure. rewrite He. simpl.
  intros (st & Hst & [= _ <-])%bind_Ok. simpl.
  destruct (remove_link_inv u v c Hi) as [Hwf1 _ _].
  assert (nonneg_weights (topology (remove_link u v c).2)) as Hnn1.
  { eapply (exec_nonneg (RemoveLink u v) c (remove_link u v c).1);
      [done|apply Hi|done|].
    simpl. by destruct (remove_link u v c). }
  apply reroute_all_rerouted in Hst as (fl' & -> & Hall). simpl.
  assert (flows (remove_link u v c).2 = flows c) as Hfl.
  { unfold remove_link. by rewrite He. }
  rewrite Hfl in Hall. intros Hf Hu Hv.
  destruct (Forall2_lookup_l _ _ _ _ _ Hall Hf) as (f' & Hf' & Hid & Haff & _).
  exists f'. unfold flow_id in Hid. injection Hid as Hs Hd _ Hb.
  split_and!; [done..|].
  destruct (Haff (conj Hu Hv)) as [L HL].
  set (G1 := topology (remove_link u v c).2) in *.
  destruct (compute_path_optimal G1 L (src f) (dst f) (traffic_type f) Hwf1 Hnn1)
    as [(p & Hcp & Hp & Hmin & _)|[Hcp Hno]]; rewrite Hcp in HL.
  - left. destruct p as [|a p]; [by destruct Hp as (? & _)|].
    rewrite HL. done.
  - right. split; [done|]. intros q Hq.
    destruct Hno as [Hno|[Hno|Hno]].
    + destruct Hq as (_ & _ & _ & ? & _). congruence.
    + pose proof (is_path_has_node G1 _ _ _ Hwf1 Hq). congruence.
    + by apply (Hno q).
Qed.

Lemma failure_puts_flows_on_least_weight_paths_witness :
  reachable (state_after detour_scenario) ∧
  nonneg_weights (topology (state_after detour_scenario)) ∧
  has_edge (topology (state_after detour_scenario)) "a" "c" = true ∧
  simulate_link_failure "a" "c" (state_after detour_scenario)
  = Ok (LinkFailed, state_after (detour_scenario ++ [FailLink "a" "c"])) ∧
  flows (state_after detour_scenario) !! 0%nat
  = Some (mkFlow "a" "c" "data" 10 ["a"; "b"; "c"]) ∧
  flows (state_after (detour_scenario ++ [FailLink "a" "c"])) !! 0%nat
  = Some (mkFlow "a" "c" "data" 10 ["a"; "d"; "c"]) ∧
  ∃ f', flows (state_after (detour_scenario ++ [FailLink "a" "c"])) !! 0%nat
        = Some f' ∧
    src f' = "a" ∧ dst f' = "c" ∧ bandwidth f' = 10 ∧
    ((is_path (topology (state_after (detour_scenario ++ [FailLink "a" "c"])))
        "a" "c" (flow_path f') ∧
      ∀ q, is_walk (topology (state_after (detour_scenario ++ [FailLink "a" "c"])))
             "a" "c" q →
           path_weight (topology (state_after (detour_scenario ++ [FailLink "a" "c"])))
             (flow_path f')
           ≤ path_weight (topology (state_after (detour_scenario ++ [FailLink "a" "c"])))
               q) ∨
     (f' = mkFlow "a" "c" "data" 10 ["a"; "b"; "c"] ∧
      ∀ q, ¬ is_path (topology (state_after (detour_scenario ++ [FailLink "a" "c"])))
               "a" "c" q)).
Proof.
  assert (reachable (state_after detour_scenario)) as Hr.
  { exists detour_scenario. vm_compute. reflexivity. }
  assert (nonneg_weights (topology (state_after detour_scenario))) as Hnn.
  { apply (bool_decide_unpack _). vm_compute. exact I. }
  assert (has_edge (topology (state_after detour_scenario)) "a" "c" = true) as He
    by (vm_compute; reflexivity).
  assert (simulate_link_failure "a" "c" (state_after detour_scenario)
          = Ok (LinkFailed, state_after (detour_scenario ++ [FailLink "a" "c"])))
    as Hf by (vm_compute; reflexivity).
  assert (flows (state_after detour_scenario) !! 0%nat
          = Some (mkFlow "a" "c" "data" 10 ["a"; "b"; "c"])) as Hfl
    by (vm_compute; reflexivity).
  assert ("a" ∈ flow_path (mkFlow "a" "c" "data" 10 ["a"; "b"; "c"])) as Hu.
  { apply (bool_decide_unpack _). vm_compute. exact I. }
  assert ("c" ∈ flow_path (mkFlow "a" "c" "data" 10 ["a"; "b"; "c"])) as Hv.
  { apply (bool_decide_unpack _). vm_compute. exact I. }
  split; [exact Hr|]. split; [exact Hnn|]. split; [exact He|]. split; [exact Hf|].
  split; [exact Hfl|]. split; [vm_compute; reflexivity|].
  exact (failure_puts_flows_on_least_weight_paths "a" "c" _ _ _ 0%nat _
           Hr Hnn He Hf Hfl Hu Hv).
Defined.

(** ** [visualize] *)

(** X21: in a reachable state the label that [visualize] computes for
    a link is the ledger value of the link, the same whichever way the
    edge is listed: the fallback to the reversed key and the default 0
    are never used. *)
Theorem visualize_labels_links_with_their_ledger_value u v c :
  reachable c → has_edge (topology c) u v = true →
  link_utilization c !! (u, v) = Some (label_value (link_utilization c) u v) ∧
  label_value (link_utilization c) v u = label_value (link_utilization c) u v.
Proof.
  intros Hr He. pose proof (reachable_inv c Hr) as [_ Hcov _].
  apply has_edge_true in He. destruct (Hcov u v He) as [x Hx].
  pose proof (reachable_symmetric c Hr u v) as Hsym. unfold label_value.
  rewrite <-Hsym, Hx. rewrite !bool_decide_eq_true_2 by (by eexists).
  by rewrite <-Hsym, Hx.
Qed.

Lemma visualize_labels_links_with_their_ledger_value_witness :
  reachable (state_after abc_scenario) ∧
  has_edge (topology (state_after abc_scenario)) "b" "a" = true ∧
  label_value (link_utilization (state_after abc_scenario)) "b" "a" = 10 ∧
  link_utilization (state_after abc_scenario) !! ("b", "a")
  = Some (label_value (link_utilization (state_after abc_scenario)) "b" "a").
Proof.
  assert (reachable (state_after abc_scenario)) as Hr.
  { exists abc_scenario. vm_compute. reflexivity. }
  assert (has_edge (topology (state_after abc_scenario)) "b" "a" = true) as He
    by (vm_compute; reflexivity).
  split; [exact Hr|]. split; [exact He|]. split; [vm_compute; reflexivity|].
  exact (proj1 (visualize_labels_links_with_their_ledger_value "b" "a" _ Hr He)).
Defined.

(** ** [main] *)

Lemma lower_char_idemp a : py.lower_char (py.lower_char a) = py.lower_char a.
Proof. by destruct a as [[] [] [] [] [] [] [] []]. Qed.

Lemma lower_idemp s : py.lower (py.lower s) = py.lower s.
Proof. induction s as [|a s IH]; simpl; [done|]. by rewrite lower_char_idemp, IH. Qed.

Lemma int_raises max s e : py.int max s = Raise e → e = ValueError.
Proof.
  unfold py.int.
  destruct (match s with String "+" r => _ | String "-" r => _ | _ => _ end)
    as [neg body].
  destruct (py.int_digits body 0 0 false) as [[v n]|]; [|by intros [= <-]].
  destruct (_ && _); [by intros [= <-]|done].
Qed.

Lemma int_fuel max s : py.int max s ≠ OutOfFuel.
Proof.
  unfold py.int.
  destruct (match s with String "+" r => _ | String "-" r => _ | _ => _ end)
    as [neg body].
  destruct (py.int_digits body 0 0 false) as [[v n]|]; [|done].
  by destruct (_ && _).
Qed.

Section main_facts.
Context (max : nat) (vis : SDNController → bool).

Lemma loop_body_parse line c :
  loop_body max vis line c =
  match parse max line with
  | Ok r => perform vis r c
  | Raise e => Uncaught e
  | OutOfFuel => TurnOutOfFuel
  end.
Proof.
  unfold loop_body, parse.
  set (cmd := py.strip line). set (parts := py.split cmd).
  destruct (py.startswith cmd "add node").
  { by destruct parts as [|? [|? [|? [|? ?]]]]. }
  destruct (py.startswith cmd "remove node").
  { by destruct parts as [|? [|? [|? [|? ?]]]]. }
  destruct (py.startswith cmd "add link").
  { destruct parts as [|? [|? [|? [|? [|w ?]]]]]; try done.
    simpl. by destruct (py.int max w). }
  destruct (py.startswith cmd "remove link").
  { by destruct parts as [|? [|? [|? [|? [|? ?]]]]]. }
  destruct (py.startswith cmd "inject traffic").
  { destruct parts as [|? [|? [|? [|? [|? [|b ?]]]]]]; try done.
    simpl. by destruct (py.int max b). }
  destruct (py.startswith cmd "simulate link failure").
  { by destruct parts as [|? [|? [|? [|? [|? [|? ?]]]]]]. }
  destruct (py.startswith cmd "query routing").
  { by destruct parts as [|? [|? [|? [|? [|? ?]]]]]. }
  destruct (bool_decide (cmd = "visualize")); [done|].
  destruct (bool_decide_reflect (cmd ∈ ["exit"; "quit"; "q"])) as [Hin|Hin].
  - rewrite !elem_of_cons, elem_of_nil in Hin.
    destruct Hin as [->|[->|[->|[]]]]; done.
  - rewrite !elem_of_cons, elem_of_nil in Hin.
    repeat case_bool_decide; simpl; try done; tauto.
Qed.

Lemma loop_body_Continue line c out c' :
  loop_body max vis line c = Continue out c' →
  (c' = c ∧ ∀ r, out ≠ Print r) ∨
  (∃ cmd r, parse max line = Ok (Call cmd) ∧ exec cmd c = Ok (r, c') ∧
            out = Print r).
Proof.
  rewrite loop_body_parse.
  destruct (parse max line) as [[cmd|text| | |]|e|]; simpl; try done.
  - unfold after_call. destruct (exec cmd c) as [[r c1]|e|] eqn:Hex; try done.
    intros [= <- <-]. right. eauto.
  - intros [= <- <-]. by left.
  - destruct (vis c); [|done]. intros [= <- <-]. by left.
  - intros [= <- <-]. by left.
Qed.

Lemma loop_body_Break line c :
  loop_body max vis line c = Break ↔ py.strip line ∈ ["exit"; "quit"; "q"].
Proof.
  split.
  - unfold loop_body. set (cmd := py.strip line).
    repeat match goal with
    | |- context [if py.startswith cmd ?k then _ else _] =>
        destruct (py.startswith cmd k);
        [repeat match goal with
                | |- context [if ?b then _ else _] => destruct b
                end;
         unfold after_call;
         repeat match goal with
                | |- context [match ?r with Ok _ => _ | Raise _ => _ | OutOfFuel => _ end] =>
                    destruct r as [[? ?]| |]
                end; done|]
    end.
    destruct (bool_decide (cmd = "visualize")); [by destruct (vis c)|].
    by destruct (bool_decide_reflect (cmd ∈ ["exit"; "quit"; "q"])).
  - intros Hin. unfold loop_body.
    rewrite !elem_of_cons, elem_of_nil in Hin.
    by destruct Hin as [->|[->|[->|[]]]].
Qed.

Lemma parse_outcome line :
  match parse max line with
  | Ok (Call cmd) => Forall lower_case (names cmd)
  | Ok _ => True
  | Raise e => e = ValueError
  | OutOfFuel => False
  end.
Proof.
  unfold parse. set (cmd := py.strip line). set (parts := py.split cmd).
  assert (∀ n, lower_case (py.lower n)) as Hl by (intros n; apply lower_idemp).
  destruct (py.startswith cmd "add node").
  { destruct parts as [|? [|? [|? [|? ?]]]]; try done. by repeat constructor. }
  destruct (py.startswith cmd "remove node").
  { destruct parts as [|? [|? [|? [|? ?]]]]; try done. by repeat constructor. }
  destruct (py.startswith cmd "add link").
  { destruct parts as [|? [|? [|? [|? [|w ?]]]]]; try done.
    - by repeat constructor.
    - pose proof (int_raises max w). pose proof (int_fuel max w).
      destruct (py.int max w); simpl; [by repeat constructor|auto|done]. }
  destruct (py.startswith cmd "remove link").
  { destruct parts as [|? [|? [|? [|? [|? ?]]]]]; try done. by repeat constructor. }
  destruct (py.startswith cmd "inject traffic").
  { destruct parts as [|? [|? [|? [|? [|? [|b ?]]]]]]; try done.
    pose proof (int_raises max b). pose proof (int_fuel max b).
    destruct (py.int max b); simpl; [by repeat constructor|auto|done]. }
  destruct (py.startswith cmd "simulate link failure").
  { destruct parts as [|? [|? [|? [|? [|? [|? ?]]]]]]; try done.
    by repeat constructor. }
  destruct (py.startswith cmd "query routing").
  { destruct parts as [|? [|? [|? [|? [|? ?]]]]]; try done. by repeat constructor. }
  destruct (bool_decide _); [done|]. by destruct (_ || _).
Qed.

Lemma main_loop_invariant (I : SDNController → Prop) lines :
  (∀ line c out c', line ∈ lines → I c →
     loop_body max vis line c = Continue out c' → I c') →
  ∀ c out e, I c → main_loop max vis lines c = (out, e) →
  ∀ c', e = Returned c' ∨ e = EOFError c' → I c'.
Proof.
  induction lines as [|line lines IH]; intros Hstep c out e Hc; simpl.
  - intros [= <- <-] c' [?|[= <-]]; done.
  - destruct (loop_body max vis line c) as [out1 c1| |x| |] eqn:Hbody.
    + destruct (main_loop max vis lines c1) as [outs e1] eqn:Hrest.
      intros [= <- <-]. eapply IH; [|by eapply Hstep; [left|..]|done].
      intros ?????. apply Hstep. by right.
    + intros [= <- <-] c' [[= <-]|?]; done.
    + intros [= <- <-] c' [?|?]; done.
    + intros [= <- <-] c' [?|?]; done.
    + intros [= <- <-] c' [?|?]; done.
Qed.

(** X22: the controller that [main] holds when it returns, or when
    the input ends, is in the state of a session of commands, each of them
    the command of one of the lines read: what is proved of the reachable
    states holds of the states of [main]. *)
Theorem main_reaches_session_states lines out e c :
  main max vis lines = (out, e) → e = Returned c ∨ e = EOFError c →
  ∃ cmds, session cmds = Ok c ∧
          Forall (λ cmd, ∃ line, line ∈ lines ∧ parse max line = Ok (Call cmd))
                 cmds.
Proof.
  unfold main. intros Hmain He.
  refine (main_loop_invariant (λ c, ∃ cmds, session cmds = Ok c ∧
            Forall (λ cmd, ∃ line, line ∈ lines ∧ parse max line = Ok (Call cmd))
                   cmds) lines _ init out e _ Hmain c He).
  - intros line c0 out0 c1 Hline (cmds & Hrun & Hall)
      [[-> _]|(cmd & r & Hp & Hex & _)]%loop_body_Continue; [eauto|].
    exists (cmds ++ [cmd]). split; [by eapply run_snoc|].
    apply Forall_app. split; [done|]. apply Forall_singleton. eauto.
  - exists []. split; [done|]. by apply Forall_nil.
Qed.

(** X23: [main] returns exactly when it reads a line that is [exit],
    [quit] or [q] once stripped: the lines before it have been handled
    without exception, and no line after it is read. *)
Theorem main_returns_exactly_after_an_exit_line lines c out c' :
  main_loop max vis lines c = (out, Returned c') ↔
  ∃ before line after,
    lines = before ++ line :: after ∧
    py.strip line ∈ ["exit"; "quit"; "q"] ∧
    main_loop max vis before c = (out, EOFError c').
Proof.
  split.
  - revert c out. induction lines as [|line lines IH]; intros c out; simpl; [done|].
    destruct (loop_body max vis line c) as [out1 c1| |x| |] eqn:Hbody; try done.
    + destruct (main_loop max vis lines c1) as [outs e1] eqn:Hrest.
      intros [= <- ->].
      destruct (IH c1 outs Hrest) as (before & l & after & -> & Hl & Hb).
      exists (line :: before), l, after. split; [done|]. split; [done|].
      simpl. by rewrite Hbody, Hb.
    + intros [= <- <-]. exists [], line, lines. split; [done|].
      split; [by eapply loop_body_Break|done].
  - intros (before & l & after & -> & Hl & Hb). revert c out Hb.
    induction before as [|line before IH]; intros c out; simpl.
    + intros [= <- <-]. by rewrite (proj2 (loop_body_Break l c) Hl).
    + destruct (loop_body max vis line c) as [out1 c1| |x| |]; try done.
      destruct (main_loop max vis before c1) as [outs e1] eqn:Hrest.
      intros [= <- ->]. by rewrite (IH c1 outs Hrest).
Qed.

(** X24: apart from the end of the input and the drawing of
    [visualize], the only exception that can leave [main] is [ValueError]
    (a malformed number, or the search on negative weights): no
    [IndexError] from the words of a line, no [KeyError] from the
    ledger. *)
Theorem main_raises_value_error_only lines out e :
  main max vis lines = (out, e) →
  e ≠ MainOutOfFuel ∧ ∀ x, e = Raised x → x = ValueError.
Proof.
  unfold main. pose proof init_inv as Hi. revert Hi out. generalize init.
  induction lines as [|line lines IH]; intros c Hi out; simpl.
  - by intros [= <- <-].
  - rewrite loop_body_parse. pose proof (parse_outcome line) as Hp.
    assert (∀ out1 c1, ctrl_inv c1 →
              (let '(outs, e) := main_loop max vis lines c1 in (out1 :: outs, e))
              = (out, e) →
              e ≠ MainOutOfFuel ∧ ∀ x, e = Raised x → x = ValueError) as Hgo.
    { intros out1 c1 Hi1.
      destruct (main_loop max vis lines c1) as [outs e1] eqn:Hrest.
      intros [= <- <-]. by eapply IH. }
    destruct (parse max line) as [[cmd|text| | |]|x|]; simpl.
    + pose proof (exec_post cmd c Hi) as Hex. unfold after_call.
      destruct (exec cmd c) as [[r c1]|x|]; simpl in Hex.
      * by apply Hgo.
      * intros [= <- <-]. split; [done|]. by intros ? [= <-].
      * done.
    + by apply Hgo.
    + destruct (vis c); [by apply Hgo|]. by intros [= <- <-].
    + by intros [= <- <-].
    + by apply Hgo.
    + intros [= <- <-]. split; [done|]. by intros ? [= <-].
    + done.
Qed.

Lemma exec_lower_case cmd c r c' :
  Forall lower_case (names cmd) →
  (∀ x, has_node (topology c) x = true → lower_case x) →
  exec cmd c = Ok (r, c') →
  ∀ x, has_node (topology c') x = true → lower_case x.
Proof.
  intros Hn Hc. destruct cmd as [n|n|u v w|u v|s d ty bw|u v|s d]; simpl.
  - unfold add_node. destruct (has_node _ _); intros [= _ <-]; [done|]. simpl.
    simpl in Hn. rewrite Forall_singleton in Hn.
    intros x [->|?]%has_node_add_node; auto.
  - unfold remove_node. destruct (has_node _ _) eqn:Hh; intros [= _ <-]; [|done].
    simpl. intros x [_ ?]%has_node_remove_node; auto.
  - unfold add_link. destruct (_ || _); intros [= _ <-]; [done|]. simpl.
    simpl in Hn. rewrite !Forall_cons in Hn. destruct Hn as (Hu & Hv & _).
    intros x [->|[->|?]]%has_node_add_edge; auto.
  - unfold remove_link. destruct (negb _); intros [= _ <-]; [done|]. simpl.
    intros x. rewrite has_node_remove_edge. auto.
  - unfold inject_traffic_flow. destruct (_ || _); [by intros [= _ <-]|].
    intros (op & Hop & Hrest)%bind_Ok.
    destruct op as [[|y p]|]; [by injection Hrest as _ <-| |by injection Hrest as _ <-].
    by apply bind_Ok in Hrest as (L' & Hres & [= _ <-]).
  - unfold simulate_link_failure.
    destruct (negb _) eqn:He; [by intros [= _ <-]|].
    intros (st & Hst & [= _ <-])%bind_Ok. simpl.
    unfold remove_link. rewrite He. simpl.
    intros x. rewrite has_node_remove_edge. auto.
  - unfold query_routing. destruct (_ || _); [by intros [= _ <-]|].
    by intros (op & Hop & [= _ <-])%bind_Ok.
Qed.

(** X25: every node of the topology built by [main] has a lower-case
    name: [main] lower-cases the node names of every line. *)
Theorem main_keeps_node_names_lower_case lines out e c x :
  main max vis lines = (out, e) → e = Returned c ∨ e = EOFError c →
  has_node (topology c) x = true → py.lower x = x.
Proof.
  unfold main. intros Hmain He. revert x.
  refine (main_loop_invariant
            (λ c, ∀ x, has_node (topology c) x = true → lower_case x)
            lines _ init out e _ Hmain c He).
  - intros line c0 out0 c1 _ Hc0
      [[-> _]|(cmd & r & Hp & Hex & _)]%loop_body_Continue; [done|].
    pose proof (parse_outcome line) as Hn. rewrite Hp in Hn.
    by eapply exec_lower_case.
  - intros x. unfold init, has_node. simpl. rewrite lookup_empty.
    intros ?%bool_decide_eq_true. by destruct H as [? ?].
Qed.

End main_facts.

Lemma main_reaches_session_states_witness :
  main 4300 (λ _, true) typed_session
  = ([Print Silent; Print Silent; Print Silent; Print (Injected ["a"; "b"]);
      Print (Routing (Some ["a"; "b"]))],
     Returned (state_after [AddNode "a"; AddNode "b"; AddLink "a" "b" 3;
                            InjectTraffic "a" "b" "data" 7])) ∧
  ∃ cmds,
    session cmds = Ok (state_after [AddNode "a"; AddNode "b"; AddLink "a" "b" 3;
                                    InjectTraffic "a" "b" "data" 7]) ∧
    Forall (λ cmd, ∃ line, line ∈ typed_session ∧ parse 4300 line = Ok (Call cmd))
           cmds.
Proof.
  assert (main 4300 (λ _, true) typed_session
          = ([Print Silent; Print Silent; Print Silent; Print (Injected ["a"; "b"]);
              Print (Routing (Some ["a"; "b"]))],
             Returned (state_after [AddNode "a"; AddNode "b"; AddLink "a" "b" 3;
                                    InjectTraffic "a" "b" "data" 7]))) as Hm
    by (vm_compute; reflexivity).
  split; [exact Hm|].
  exact (main_reaches_session_states 4300 (λ _, true) typed_session _ _ _
           Hm (or_introl eq_refl)).
Defined.

Lemma main_raises_value_error_only_witness :
  main 4300 (λ _, true) ["add node a"; "add link a a 1.5"; "add node b"]
  = ([Print Silent], Raised ValueError) ∧
  Raised ValueError ≠ MainOutOfFuel ∧
  ∀ x, Raised ValueError = Raised x → x = ValueError.
Proof.
  assert (main 4300 (λ _, true) ["add node a"; "add link a a 1.5"; "add node b"]
          = ([Print Silent], Raised ValueError)) as Hm by (vm_compute; reflexivity).
  split; [exact Hm|].
  exact (main_raises_value_error_only 4300 (λ _, true) _ _ _ Hm).
Defined.

Lemma main_keeps_node_names_lower_case_witness :
  main 4300 (λ _, true) ["add node NodeA"]
  = ([Print Silent], EOFError (state_after [AddNode "nodea"])) ∧
  has_node (topology (state_after [AddNode "nodea"])) "nodea" = true ∧
  py.lower "nodea" = "nodea".
Proof.
  assert (main 4300 (λ _, true) ["add node NodeA"]
          = ([Print Silent], EOFError (state_after [AddNode "nodea"]))) as Hm
    by (vm_compute; reflexivity).
  assert (has_node (topology (state_after [AddNode "nodea"])) "nodea" = true) as Hn
    by (vm_compute; reflexivity).
  split; [exact Hm|]. split; [exact Hn|].
  exact (main_keeps_node_names_lower_case 4300 (λ _, true) _ _ _ _ "nodea"
           Hm (or_intror eq_refl) Hn).
Defined.

(** *** Words and lines *)

Lemma append_cons a s r : String a s +:+ r = String a (s +:+ r).
Proof. done. Qed.

Lemma append_nil_r s : s +:+ "" = s.
Proof. induction s as [|a s IH]; [done|]. by rewrite append_cons, IH. Qed.

Lemma startswith_app s p : py.startswith s p = true → ∃ r, s = p +:+ r.
Proof.
  revert s. induction p as [|a p IH]; intros s; simpl.
  - intros _. by exists s.
  - destruct s as [|b s]; [done|].
    intros [->%bool_decide_eq_true [r ->]%IH]%andb_prop. by exists r.
Qed.

Lemma startswith_app_true p r : py.startswith (p +:+ r) p = true.
Proof.
  induction p as [|a p IH]; [done|]. rewrite ?append_cons. simpl.
  by rewrite bool_decide_eq_true_2, IH.
Qed.

Lemma rev_app_rev_app s1 s2 s3 :
  String.rev_app (String.rev_app s1 s2) s3 = String.rev_app s2 (s1 +:+ s3).
Proof.
  revert s2. induction s1 as [|a s1 IH]; intros s2; simpl; [done|].
  by rewrite IH.
Qed.

Lemma split_from_word w tok rest :
  no_space w = true →
  py.split_from tok (w +:+ rest) = py.split_from (String.rev_app w tok) rest.
Proof.
  revert tok. induction w as [|a w IH]; intros tok; simpl; [done|].
  intros [Ha Hw]%andb_prop. rewrite ?append_cons. simpl.
  apply negb_true_iff in Ha. rewrite Ha. by apply IH.
Qed.

Lemma rev_app_not_empty w tok : w ≠ "" ∨ tok ≠ "" → String.rev_app w tok ≠ "".
Proof.
  revert tok. induction w as [|a w IH]; intros tok; simpl.
  - by intros [?|?].
  - intros _. apply IH. by right.
Qed.

Lemma word_inv w : word w = true → w ≠ "" ∧ no_space w = true.
Proof.
  unfold word. intros [Hne ?]%andb_prop. split; [|done].
  apply negb_true_iff in Hne. by apply bool_decide_eq_false in Hne.
Qed.

Lemma split_unwords ws : Forall (λ w, word w = true) ws → py.split (unwords ws) = ws.
Proof.
  unfold py.split. induction 1 as [|w ws [Hne Hw]%word_inv Hws IH]; [done|].
  assert (String.rev (String.rev_app w "") = w) as Hrev.
  { unfold String.rev. by rewrite rev_app_rev_app, append_nil_r. }
  pose proof (rev_app_not_empty w "" (or_introl Hne)) as Hne'.
  destruct ws as [|w' ws].
  - simpl. rewrite <-(append_nil_r w) at 1. rewrite split_from_word by done.
    simpl. revert Hrev Hne'. by destruct (String.rev_app w ""); [|intros ->].
  - change (unwords (w :: w' :: ws))
      with (w +:+ String " " (unwords (w' :: ws))).
    remember (unwords (w' :: ws)) as rest eqn:Hrest.
    rewrite split_from_word by done. simpl py.split_from. rewrite IH.
    revert Hrev Hne'. by destruct (String.rev_app w ""); [|intros ->].
Qed.

Lemma lstrip_word w r : word w = true → py.lstrip (w +:+ r) = w +:+ r.
Proof.
  intros [Hne Hw]%word_inv. destruct w as [|a w]; [done|].
  simpl in Hw. apply andb_prop in Hw as [Ha _]. apply negb_true_iff in Ha.
  rewrite ?append_cons. simpl. by rewrite Ha.
Qed.

Lemma rstrip_word w : no_space w = true → py.rstrip w = w.
Proof.
  induction w as [|a w IH]; simpl; [done|].
  intros [Ha Hw]%andb_prop. apply negb_true_iff in Ha.
  rewrite IH by done. rewrite Ha. by destruct w.
Qed.

Lemma rstrip_app s w : word w = true → py.rstrip (s +:+ w) = s +:+ w.
Proof.
  intros [Hne Hw]%word_inv. induction s as [|a s IH].
  - by apply rstrip_word.
  - rewrite ?append_cons. simpl. rewrite IH.
    destruct (s +:+ w) eqn:E; [|done].
    destruct s; [|done]. simpl in E. by subst.
Qed.

Lemma rstrip_app_keep s r :
  r ≠ "" → py.rstrip r = r → py.rstrip (s +:+ r) = s +:+ r.
Proof.
  intros Hr Heq. induction s as [|a s IHs]; [done|].
  rewrite ?append_cons. simpl. rewrite IHs.
  destruct (s +:+ r) eqn:E; [|done]. destruct s; [|done]. simpl in E. by subst.
Qed.

Lemma unwords_not_empty w ws : word w = true → unwords (w :: ws) ≠ "".
Proof.
  intros [Hne _]%word_inv. destruct ws; simpl; [done|]. by destruct w.
Qed.

Lemma rstrip_unwords ws :
  Forall (λ w, word w = true) ws → py.rstrip (unwords ws) = unwords ws.
Proof.
  induction 1 as [|w ws Hw Hws IH]; [done|].
  destruct ws as [|w' ws].
  - simpl. apply rstrip_word. by apply word_inv in Hw as [_ ?].
  - change (unwords (w :: w' :: ws))
      with (w +:+ String " " (unwords (w' :: ws))).
    apply Forall_cons in Hws as [Hw' _].
    pose proof (unwords_not_empty w' ws Hw') as Hne.
    remember (unwords (w' :: ws)) as rest eqn:Hrest.
    apply rstrip_app_keep; [done|]. simpl. rewrite IH. by destruct rest.
Qed.

Lemma strip_unwords ws :
  Forall (λ w, word w = true) ws → py.strip (unwords ws) = unwords ws.
Proof.
  intros Hws. unfold py.strip.
  assert (py.lstrip (unwords ws) = unwords ws) as ->; [|by apply rstrip_unwords].
  destruct Hws as [|w ws Hw Hws]; [done|].
  destruct ws as [|w' ws].
  - simpl. rewrite <-(append_nil_r w). by apply lstrip_word.
  - change (unwords (w :: w' :: ws)) with (w +:+ " " +:+ unwords (w' :: ws)).
    by apply lstrip_word.
Qed.

Section main_lines.
Context (max : nat) (vis : SDNController → bool).

Local Ltac decide_prefixes :=
  repeat match goal with
  | |- context [py.startswith ?s ?k] =>
      let b := eval vm_compute in (py.startswith s k) in
      change (py.startswith s k) with b; cbv iota
  end.

Local Ltac read_line :=
  unfold loop_body;
  rewrite strip_unwords by (repeat constructor; done);
  decide_prefixes;
  rewrite split_unwords by (repeat constructor; done);
  try done.

(** X26: the lines [main] understands: the keywords and the arguments
    separated by single spaces, the arguments being any words; the node
    names are lower-cased, the traffic type is not, weight and bandwidth
    go through [int] (the weight is 1 when left out). *)
Theorem main_reads_the_commands (a b ty w : string) c :
  word a = true → word b = true → word ty = true → word w = true →
  loop_body max vis (unwords ["add"; "node"; a]) c
  = after_call (Ok (add_node (py.lower a) c)) ∧
  loop_body max vis (unwords ["remove"; "node"; a]) c
  = after_call (Ok (remove_node (py.lower a) c)) ∧
  loop_body max vis (unwords ["add"; "link"; a; b]) c
  = after_call (Ok (add_link (py.lower a) (py.lower b) 1 c)) ∧
  loop_body max vis (unwords ["add"; "link"; a; b; w]) c
  = after_call (weight ← py.int max w;
                Ok (add_link (py.lower a) (py.lower b) weight c)) ∧
  loop_body max vis (unwords ["remove"; "link"; a; b]) c
  = after_call (Ok (remove_link (py.lower a) (py.lower b) c)) ∧
  loop_body max vis (unwords ["inject"; "traffic"; a; b; ty; w]) c
  = after_call (bw ← py.int max w;
                inject_traffic_flow (py.lower a) (py.lower b) ty bw c) ∧
  loop_body max vis (unwords ["simulate"; "link"; "failure"; a; b]) c
  = after_call (simulate_link_failure (py.lower a) (py.lower b) c) ∧
  loop_body max vis (unwords ["query"; "routing"; a; b]) c
  = after_call (query_routing (py.lower a) (py.lower b) c).
Proof.
  intros Ha Hb Hty Hw. split_and!; read_line.
Qed.

(** X27: a weight ([add link], fifth word) or a bandwidth ([inject
    traffic], sixth word) that [int] rejects ends [main] with
    [ValueError], whatever the state, and the lines that follow are not
    read. *)
Theorem main_ends_on_a_malformed_number line lines c w :
  (py.startswith (py.strip line) "add link" = true ∧
   py.split (py.strip line) !! 4%nat = Some w) ∨
  (py.startswith (py.strip line) "inject traffic" = true ∧
   py.split (py.strip line) !! 5%nat = Some w) →
  py.int max w = Raise ValueError →
  main_loop max vis (line :: lines) c = ([], Raised ValueError).
Proof.
  intros Hline Hint. simpl. rewrite loop_body_parse. unfold parse.
  destruct Hline as [[[r Hr]%startswith_app Hw]|[[r Hr]%startswith_app Hw]];
    rewrite Hr in *; decide_prefixes.
  - destruct (py.split _) as [|? [|? [|? [|? [|? ?]]]]]; try done.
    injection Hw as ->. by rewrite Hint.
  - destruct (py.split _) as [|? [|? [|? [|? [|? [|? ?]]]]]]; try done.
    injection Hw as ->. by rewrite Hint.
Qed.

End main_lines.

Lemma main_reads_the_commands_witness :
  word "A" = true ∧ word "b" = true ∧ word "Video" = true ∧ word "-5" = true ∧
  loop_body 4300 (λ _, true) "inject traffic A b Video -5"
    (state_after abc_topology)
  = after_call (bw ← py.int 4300 "-5";
                inject_traffic_flow "a" "b" "Video" bw (state_after abc_topology)) ∧
  py.int 4300 "-5" = Ok (-5).
Proof.
  assert (word "A" = true) as Ha by (vm_compute; reflexivity).
  assert (word "b" = true) as Hb by (vm_compute; reflexivity).
  assert (word "Video" = true) as Hty by (vm_compute; reflexivity).
  assert (word "-5" = true) as Hw by (vm_compute; reflexivity).
  split; [exact Ha|]. split; [exact Hb|]. split; [exact Hty|]. split; [exact Hw|].
  split; [|vm_compute; reflexivity].
  exact (proj1 (proj2 (proj2 (proj2 (proj2 (proj2
    (main_reads_the_commands 4300 (λ _, true) "A" "b" "Video" "-5"
       (state_after abc_topology) Ha Hb Hty Hw))))))).
Defined.

Lemma main_ends_on_a_malformed_number_witness :
  py.startswith (py.strip "add link a b 1.5") "add link" = true ∧
  py.split (py.strip "add link a b 1.5") !! 4%nat = Some "1.5" ∧
  py.int 4300 "1.5" = Raise ValueError ∧
  main_loop 4300 (λ _, true) ["add link a b 1.5"; "exit"] (state_after abc_topology)
  = ([], Raised ValueError).
Proof.
  assert (py.startswith (py.strip "add link a b 1.5") "add link" = true) as Hp
    by (vm_compute; reflexivity).
  assert (py.split (py.strip "add link a b 1.5") !! 4%nat = Some "1.5") as Hw
    by (vm_compute; reflexivity).
  assert (py.int 4300 "1.5" = Raise ValueError) as Hi by (vm_compute; reflexivity).
  split; [exact Hp|]. split; [exact Hw|]. split; [exact Hi|].
  exact (main_ends_on_a_malformed_number 4300 (λ _, true) _ ["exit"]
           (state_after abc_topology) "1.5" (or_introl (conj Hp Hw)) Hi).
Defined.

(** ** Removing a link and adding it again *)

(** X28: in a session that runs no [remove node], for every pair
    (u, v), nodes or not, [remove_link u v] followed by [add_link u v w]
    leaves both ledger entries reading 0, a missing entry counting for 0
    as [compute_path] reads it; when [u] and [v] are nodes the two entries
    are there and hold 0, whatever they held before. *)
Theorem round_trip_resets_ledger_without_remove_node cmds c u v w :
  forallb keeps_nodes cmds = true → session cmds = Ok c →
  default 0 (link_utilization
               (add_link u v w (remove_link u v c).2).2 !! (u, v)) = 0 ∧
  default 0 (link_utilization
               (add_link u v w (remove_link u v c).2).2 !! (v, u)) = 0 ∧
  (has_node (topology c) u = true → has_node (topology c) v = true →
   both_zero u v (add_link u v w (remove_link u v c).2).2).
Proof.
  intros Hok Hc.
  assert (reachable c) as Hr by (by exists cmds).
  pose proof (reachable_inv c Hr) as [Hwf _ _].
  assert (ledger_within (topology c) (link_utilization c)) as Hin.
  { refine (run_invariant keeps_nodes
              (λ c, ledger_within (topology c) (link_utilization c))
              _ cmds init c Hok _ Hc).
    - intros cmd c0 r c1. apply exec_ledger_within.
    - intros a b. unfold init. simpl. rewrite lookup_empty. by intros [? ?]. }
  destruct (has_node (topology c) u) eqn:Hu;
    [destruct (has_node (topology c) v) eqn:Hv|].
  - destruct (add_link_resets_ledger u v w c (or_introl (conj Hu Hv)))
      as [_ [H1 H2]].
    rewrite H1, H2. by split_and!.
  - assert (∀ a b, b = v → link_utilization c !! (a, b) = None ∧
                           link_utilization c !! (b, a) = None) as Hnone.
    { intros a b ->. split; apply eq_None_not_Some; intros [x Hx]%Hin.
      - apply wf_graph_sym in Hx; [|done].
        apply edge_weight_has_node in Hx. congruence.
      - apply edge_weight_has_node in Hx. congruence. }
    assert (has_edge (topology c) u v = false) as He.
    { apply not_true_is_false. intros [_ ?]%has_edge_has_nodes; [|done].
      congruence. }
    unfold remove_link, add_link. rewrite He. simpl. rewrite Hu, Hv. simpl.
    destruct (Hnone u v eq_refl) as [-> ->]. by split_and!.
  - assert (∀ a b, a = u → link_utilization c !! (a, b) = None ∧
                           link_utilization c !! (b, a) = None) as Hnone.
    { intros a b ->. split; apply eq_None_not_Some; intros [x Hx]%Hin.
      - apply edge_weight_has_node in Hx. congruence.
      - apply wf_graph_sym in Hx; [|done].
        apply edge_weight_has_node in Hx. congruence. }
    assert (has_edge (topology c) u v = false) as He.
    { apply not_true_is_false. intros [? _]%has_edge_has_nodes; [|done].
      congruence. }
    unfold remove_link, add_link. rewrite He. simpl. rewrite Hu. simpl.
    destruct (Hnone u v eq_refl) as [-> ->]. by split_and!.
Qed.

Lemma round_trip_resets_ledger_without_remove_node_witness :
  forallb keeps_nodes abc_scenario = true ∧
  session abc_scenario = Ok (state_after abc_scenario) ∧
  link_utilization (state_after abc_scenario) !! ("a", "b") = Some 10 ∧
  default 0 (link_utilization
               (add_link "a" "b" 7
                  (remove_link "a" "b" (state_after abc_scenario)).2).2
             !! ("a", "b")) = 0.
Proof.
  assert (forallb keeps_nodes abc_scenario = true) as Hk by (vm_compute; reflexivity).
  assert (session abc_scenario = Ok (state_after abc_scenario)) as Hs
    by (vm_compute; reflexivity).
  split; [exact Hk|]. split; [exact Hs|]. split; [vm_compute; reflexivity|].
  exact (proj1
    (round_trip_resets_ledger_without_remove_node abc_scenario _ "a" "b" 7 Hk Hs)).
Defined.
